(** * Facebook auto-poster: queue, scheduler and delivery core

    A shallow embedding of [index.js]: the content queue kept in
    [queue.json], the scheduler that assigns posting slots, the delivery
    pipeline with its dry-run switch, configuration check, rate limiter and
    temp-file cleanup, and the pass that posts due items.

    Conventions of the embedding.
    - A JavaScript [Date] and the ISO string [toISOString] prints for it are
      both represented by the instant they denote, in milliseconds since the
      epoch ([Timestamp]).  ISO strings of four-digit years compare, as
      strings, the way their instants compare as numbers.
    - Time zones are constant offsets from UTC (no daylight-saving rules).
      The zone of the process and the zone table used by [toLocaleString]
      are parameters of the development.
    - SHA-256, [__dirname], the clock, the network and the file system are
      outside the program.  The digest and the directory are parameters;
      clock readings and network replies are given to each operation as
      explicit inputs; the files on disk, the persisted queue and the rate
      limiter are fields of an explicit [World] that every operation threads.
    - [log] and [logError] only append to [posts.log] and [logs/error.log];
      they are not part of the [World].
    - A string is a list of characters; its length counts them. *)

From Stdlib Require Import ZArith List String Ascii Bool Lia Arith.
From Stdlib Require Import Numbers.DecimalString Numbers.DecimalZ.
Import ListNotations.

Set Implicit Arguments.

Local Open Scope string_scope.
Local Open Scope list_scope.
Local Open Scope Z_scope.

(** ** JavaScript values and built-ins used by the program *)

Module JS.

(** [String.prototype.includes]. *)
Fixpoint includes (s sub : string) : bool :=
  String.prefix sub s ||
  match s with
  | EmptyString => false
  | String _ s' => includes s' sub
  end.

(** [Array.prototype.includes] on an array of strings. *)
Definition arrayIncludes (l : list string) (x : string) : bool :=
  existsb (String.eqb x) l.

(** [Array.prototype.join]. *)
Fixpoint join (sep : string) (l : list string) : string :=
  match l with
  | [] => ""
  | [x] => x
  | x :: rest => (x ++ sep ++ join sep rest)%string
  end.

(** [Number.prototype.toString] of an integer. *)
Definition toString (n : Z) : string :=
  NilZero.string_of_int (Z.to_int n).

(** Truthiness of a value that is either absent or a string. *)
Definition truthy (o : option string) : bool :=
  match o with
  | Some s => negb (String.eqb s "")
  | None => false
  end.

(** [x || null] for such a value. *)
Definition orNull (o : option string) : option string :=
  if truthy o then o else None.

(** [Array.prototype.slice(0, e)]: a negative end counts from the back. *)
Definition slice0 {A} (e : Z) (l : list A) : list A :=
  if e <? 0
  then firstn (Z.to_nat (Z.max (Z.of_nat (List.length l) + e) 0)) l
  else firstn (Z.to_nat e) l.

(** [Array.prototype.shift], keeping the array only. *)
Definition shift {A} (l : list A) : list A := tl l.

(** [String.prototype.split(':')]. *)
Fixpoint splitColon (s : string) : list string :=
  match s with
  | EmptyString => [""]
  | String c s' =>
      if Ascii.eqb c ":"%char
      then "" :: splitColon s'
      else match splitColon s' with
           | [] => [String c ""]
           | w :: ws => String c w :: ws
           end
  end.

Definition digitValue (c : ascii) : option Z :=
  let n := Z.of_nat (nat_of_ascii c) in
  if (48 <=? n) && (n <=? 57) then Some (n - 48) else None.

Fixpoint digitsValue (acc : Z) (s : string) : option Z :=
  match s with
  | EmptyString => Some acc
  | String c s' =>
      match digitValue c with
      | Some d => digitsValue (10 * acc + d) s'
      | None => None
      end
  end.

(** [Number(s)] for a string [s].  [None] stands for [NaN].  The model is
    exact on strings of decimal digits (the empty string gives 0); every
    other string is mapped to [NaN], which leaves out the signed,
    fractional, exponent, hexadecimal and blank-padded literals that
    [Number] also reads. *)
Definition Number (s : string) : option Z := digitsValue 0 s.

(** [path.basename]: the part after the last slash (a trailing slash is
    not stripped). *)
Fixpoint basename (p : string) : string :=
  match p with
  | EmptyString => ""
  | String c p' =>
      if includes p' "/" then basename p'
      else if Ascii.eqb c "/"%char then p' else p
  end.

(** [String.prototype.endsWith]. *)
Definition endsWith (s suffix : string) : bool :=
  (String.length suffix <=? String.length s)%nat
  && String.eqb (String.substring (String.length s - String.length suffix)
                                  (String.length suffix) s) suffix.

End JS.

(** ** Dates *)

Abbreviation Timestamp := Z (only parsing).

Definition msPerSecond : Z := 1000.
Definition msPerMinute : Z := 60000.
Definition msPerHour : Z := 3600000.
Definition msPerDay : Z := 86400000.

(** ** Data model *)

(** The object handed to [addToQueue].  [text] is [None] when the member is
    absent or is not a string. *)
Module Content.
Record t : Type := mk {
  source : option string;
  text : option string;
  mediaUrl : option string;
  mediaType : option string;
  telegramFileId : option string
}.
End Content.

Inductive Status : Type :=
| pending_st   (* 'pending' *)
| posted_st    (* 'posted' *)
| failed_st.   (* 'failed' *)

Module Item.
Record t : Type := mk {
  id : string;
  source : option string;
  text : string;
  mediaUrl : option string;
  mediaType : string;
  telegramFileId : option string;
  contentHash : string;
  addedAt : Timestamp;
  scheduledFor : option Timestamp;
  status : Status;
  postedAt : option Timestamp;
  facebookPostId : option string;
  error : option string
}.

Definition setScheduledFor (s : Timestamp) (i : t) : t :=
  mk (id i) (source i) (text i) (mediaUrl i) (mediaType i)
     (telegramFileId i) (contentHash i) (addedAt i) (Some s) (status i)
     (postedAt i) (facebookPostId i) (error i).

(** [item.postedAt = now; item.facebookPostId = result.id;
    item.status = 'posted']. *)
Definition markPosted (now : Timestamp) (fbid : option string) (i : t) : t :=
  mk (id i) (source i) (text i) (mediaUrl i) (mediaType i)
     (telegramFileId i) (contentHash i) (addedAt i) (scheduledFor i)
     posted_st (Some now) fbid (error i).

(** [item.status = 'failed'; item.error = error.message]. *)
Definition markFailed (msg : string) (i : t) : t :=
  mk (id i) (source i) (text i) (mediaUrl i) (mediaType i)
     (telegramFileId i) (contentHash i) (addedAt i) (scheduledFor i)
     failed_st (postedAt i) (facebookPostId i) (Some msg).
End Item.

(** The document in [queue.json].  [postedHashes] is [None] when the key is
    missing (a file written before the duplicate guard existed). *)
Module Queue.
Record t : Type := mk {
  pending : list Item.t;
  posted : list Item.t;
  lastPostTime : option Timestamp;
  postedHashes : option (list string)
}.

(** [{ pending: [], posted: [], lastPostTime: null, postedHashes: [] }] *)
Definition empty : t := mk [] [] None (Some []).
End Queue.

(** [config.json] after [loadConfig], flattened.  [dry_run] is the test
    [config.settings.dry_run === true]. *)
Module Config.
Record t : Type := mk {
  dry_run : bool;
  page_id : option string;
  access_token : option string;
  api_version : option string;
  bot_token : option string;
  post_times : list string;
  timezone : option string;
  posts_per_day : option Z
}.
End Config.

(** ** Effects *)

Inductive Endpoint : Type :=
| TgGetFile | TgDownload
| FbFeed | FbPhotoUpload | FbPhotoUrl
| FbVideoStart | FbVideoTransfer | FbVideoFinish.

Inductive Event : Type :=
| EvNet (e : Endpoint)          (* a call of [fetch] *)
| EvSaveQueue (q : Queue.t)     (* [saveQueue]: queue.json overwritten *)
| EvWriteFile (p : string)      (* [fs.writeFileSync] of a download *)
| EvUnlink (p : string).        (* [fs.unlinkSync] *)

Record World : Type := mkWorld {
  store : option Queue.t;     (* queue.json; [None]: missing or unreadable *)
  rl_lastPostTime : Z;        (* rateLimiter.lastPostTime *)
  files : list string;        (* paths that exist on disk *)
  trace : list Event          (* what has been done so far, oldest first *)
}.

(** How a call ends. *)
Inductive Completion (A : Type) : Type :=
| Returns (a : A)
| Throws (msg : string).
Arguments Returns {A} a.
Arguments Throws {A} msg.

Definition isEvNet (e : Event) : bool :=
  match e with EvNet _ => true | _ => false end.
Definition isEvSaveQueue (e : Event) : bool :=
  match e with EvSaveQueue _ => true | _ => false end.

(** ** Object identity

    [schedulePosts] and [processScheduledPosts] filter [queue.pending] into
    a second array and then write to the objects of that second array; the
    writes are seen through [queue.pending] because both arrays hold the
    same objects.  While such a loop runs, every object of the loaded
    [pending] array carries a reference (its position at load time), and a
    write goes to the object with that reference wherever it now sits. *)

Abbreviation Ref := nat (only parsing).

Definition allocFrom {A} (start : nat) (l : list A) : list (Ref * A) :=
  combine (seq start (List.length l)) l.

Definition alloc {A} (l : list A) : list (Ref * A) := allocFrom 0 l.

Definition deref {A} (l : list (Ref * A)) : list A := map snd l.

Definition updateRef {A} (r : Ref) (f : A -> A) (l : list (Ref * A))
  : list (Ref * A) :=
  map (fun p => if Nat.eqb (fst p) r then (fst p, f (snd p)) else p) l.

(** ** Inputs from outside, one record per call *)

(** A reply of the Graph API, after [res.json()]. *)
Inductive Reply : Type :=
| ReplyError (msg : string)      (* a body with an [error] member *)
| ReplyOk (id : option string)   (* a body without one; [id] may be absent *)
| NoReply (msg : string).        (* [fetch] or [json()] rejects *)

(** The reply of Telegram's [getFile]. *)
Inductive TgInfo : Type :=
| InfoOk (file_path : string)
| InfoNotOk
| InfoNoReply (msg : string).

(** The reply to the download of the file itself. *)
Inductive TgFile : Type :=
| FileOk
| FileStatus (code : Z)
| FileNoReply (msg : string).

(** Everything one call of [postToFacebook] reads from outside. *)
Record Attempt : Type := mkAttempt {
  clock_dry : Z;        (* [Date.now()] in the dry-run branch *)
  clock_gate : Z;       (* [Date.now()] in [checkRateLimit] *)
  clock_download : Z;   (* [Date.now()] in [downloadTelegramFile] *)
  clock_done : Z;       (* [Date.now()] in [updateRateLimit] *)
  tg_info : TgInfo;
  tg_file : TgFile;
  fb_publish : Reply;   (* feed or photos *)
  fb_video_start : Reply;
  fb_video_transfer : Reply;
  fb_video_finish : Reply
}.

(** Everything one call of [addToQueue] reads from outside: [Date.now()]
    for the id, [new Date()] for [addedAt], and the [new Date()] of each
    call of [getNextScheduleTime] made by the [schedulePosts] it ends with. *)
Record AddEnv : Type := mkAddEnv {
  now_id : Z;
  now_added : Timestamp;
  sched_clock : nat -> Timestamp
}.

Record Validation : Type := mkValidation {
  valid : bool;
  errors : list string
}.

(** [{ allowed: true }] or [{ allowed: false, waitTime, message }]. *)
Inductive RateLimit : Type :=
| Allowed
| Denied (waitTime : Z) (message : string).

(** What [postToFacebook] resolves to. *)
Record PostResult : Type := mkPostResult {
  r_id : option string;
  r_dryRun : bool
}.

(** What [addToQueue] gives back. *)
Inductive AddResult : Type :=
| AddInvalid (errs : list string)   (* { success: false, errors } *)
| AddDuplicate                      (* { success: false, reason: 'duplicate' } *)
| AddSuccess (item : Item.t)        (* { success: true, item } *)
| AddThrows (msg : string).         (* [schedulePosts] threw *)

(** The queue object held in memory during a pass. *)
Record Mem : Type := mkMem {
  m_pending : list (Ref * Item.t);
  m_posted : list Item.t;
  m_lastPostTime : option Timestamp;
  m_postedHashes : option (list string)
}.

Definition toQueue (m : Mem) : Queue.t :=
  Queue.mk (deref (m_pending m)) (m_posted m) (m_lastPostTime m)
           (m_postedHashes m).

Definition fromQueue (q : Queue.t) : Mem :=
  mkMem (alloc (Queue.pending q)) (Queue.posted q) (Queue.lastPostTime q)
        (Queue.postedHashes q).

(** One line of the pass: the due item as it was loaded and how its
    delivery ended ([log] prints one of "Successfully posted" and "Failed
    to post" for it). *)
Definition PassLog : Type := list (Item.t * Completion PostResult).

(** ** The program *)

Section Program.

(** [crypto.createHash('sha256').update(s).digest('hex')] *)
Variable sha256hex : string -> string.
(** [__dirname], absolute and without a trailing slash *)
Variable dirname : string.
(** The zone the process runs in: [localOffset t isUTC] is the
    LocalTZA(t, isUTC) of ECMAScript, the offset in milliseconds that
    applies at the instant [t] when [isUTC] is true, and at the local time
    [t] when it is false (the engine's choice where a local time occurs twice
    or not at all). *)
Variable localOffset : Z -> bool -> Z.
(** A named zone at an instant: the offset in milliseconds that
    [toLocaleString('en-US', { timeZone })] adds to the instant, or [None]
    when the name is not a time zone and [toLocaleString] throws a
    RangeError. *)
Variable zoneOffset : string -> Timestamp -> option Z.

Definition TEMP_DIR : string := (dirname ++ "/temp")%string.

(** [rateLimiter.minInterval] *)
Definition minInterval : Z := 60000.

(** *** Dates in the zone of the process *)

(** LocalTime(t) and UTC(t) of ECMAScript. *)
Definition localTime (d : Timestamp) : Z := d + localOffset d true.

Definition UTC (t : Z) : Timestamp := t - localOffset t false.

Definition getHours (d : Timestamp) : Z := (localTime d / msPerHour) mod 24.

Definition getMinutes (d : Timestamp) : Z := (localTime d / msPerMinute) mod 60.

(** [d.setHours(h, m, s, ms)]: the local day of [d] at that time of day;
    values out of range carry over, as in JavaScript. *)
Definition setHours (d : Timestamp) (h m s ms : Z) : Timestamp :=
  UTC ((localTime d / msPerDay) * msPerDay
       + (h * msPerHour + m * msPerMinute + s * msPerSecond + ms)).

(** [d.setDate(d.getDate() + 1)]: same local time of day, next calendar
    day of the process's zone. *)
Definition setDateNext (d : Timestamp) : Timestamp :=
  UTC (localTime d + msPerDay).

(** [new Date(now.toLocaleString('en-US', { timeZone: timezone }))]: the
    wall clock of [now] in [timezone], to the second, read back as a local
    time of the process's zone.  It throws for a name that is not a time
    zone. *)
Definition tzDate (timezone : string) (now : Timestamp)
  : Completion Timestamp :=
  match zoneOffset timezone now with
  | None => Throws "RangeError: Invalid time zone specified"
  | Some offset =>
      Returns (UTC (((now + offset) / msPerSecond) * msPerSecond))
  end.

(** *** Queue store *)

Definition loadQueue (w : World) : Queue.t :=
  match store w with
  | Some q => q
  | None => Queue.empty
  end.

Definition saveQueue (queue : Queue.t) (w : World) : World :=
  mkWorld (Some queue) (rl_lastPostTime w) (files w)
          (trace w ++ [EvSaveQueue queue]).

(** *** Duplicate guard *)

(** The default [mediaType = 'text'] applies when the argument is absent. *)
Definition generateContentHash (text : string) (mediaType : option string)
  : string :=
  let mt := match mediaType with Some m => m | None => "text" end in
  let content := (text ++ ":" ++ mt)%string in
  String.substring 0 16 (sha256hex content).

Definition hashesOf (postedHashes : option (list string)) : list string :=
  match postedHashes with
  | Some hs => hs
  | None => []
  end.

(** Returns the queue too, because a missing [postedHashes] is set to []. *)
Definition isDuplicateContent (queue : Queue.t) (hash : string)
  : bool * Queue.t :=
  let queue' :=
    Queue.mk (Queue.pending queue) (Queue.posted queue)
             (Queue.lastPostTime queue)
             (Some (hashesOf (Queue.postedHashes queue))) in
  (JS.arrayIncludes (hashesOf (Queue.postedHashes queue')) hash, queue').

(** *** Validation *)

Definition validMediaTypes : list string := ["text"; "image"; "video"].

Definition validateInput (item : Content.t) : Validation :=
  let errors1 :=
    match Content.text item with
    | None => ["Text content is required"]
    | Some t =>
        if String.eqb t "" then ["Text content is required"]
        else if Z.of_nat (String.length t) >? 2200
             then ["Text exceeds Facebook limit of 2200 characters"]
             else []
    end in
  let errors2 :=
    match Content.mediaType item with
    | Some m =>
        if negb (String.eqb m "") && negb (JS.arrayIncludes validMediaTypes m)
        then [("Invalid media type. Must be one of: "
               ++ JS.join ", " validMediaTypes)%string]
        else []
    | None => []
    end in
  let errors := errors1 ++ errors2 in
  mkValidation (Nat.eqb (List.length errors) 0) errors.

Definition missingOrPlaceholder (o : option string) : bool :=
  match o with
  | Some s => String.eqb s "" || JS.includes s "YOUR_"
  | None => true
  end.

Definition validateConfig (config : Config.t) : Validation :=
  let errors1 :=
    if missingOrPlaceholder (Config.page_id config)
    then ["Facebook Page ID is required"] else [] in
  let errors2 :=
    if missingOrPlaceholder (Config.access_token config)
    then ["Facebook Access Token is required"] else [] in
  let errors := errors1 ++ errors2 in
  mkValidation (Nat.eqb (List.length errors) 0) errors.

(** *** Rate limiter *)

(** [Math.ceil(x / 1000)] *)
Definition ceilSeconds (x : Z) : Z := (x + 999) / 1000.

Definition checkRateLimit (now : Z) (w : World) : RateLimit :=
  let timeSinceLastPost := now - rl_lastPostTime w in
  if timeSinceLastPost <? minInterval then
    let waitTime := ceilSeconds (minInterval - timeSinceLastPost) in
    Denied waitTime
      ("Rate limit exceeded. Please wait " ++ JS.toString waitTime
       ++ " seconds before next post.")%string
  else Allowed.

Definition updateRateLimit (now : Z) (w : World) : World :=
  mkWorld (store w) now (files w) (trace w).

(** *** Effects on the world *)

Definition emit (e : Event) (w : World) : World :=
  mkWorld (store w) (rl_lastPostTime w) (files w) (trace w ++ [e]).

Definition existsSync (p : string) (w : World) : bool :=
  existsb (String.eqb p) (files w).

Definition writeFileSync (p : string) (w : World) : World :=
  mkWorld (store w) (rl_lastPostTime w)
          (if existsSync p w then files w else files w ++ [p])
          (trace w ++ [EvWriteFile p]).

Definition unlinkSync (p : string) (w : World) : World :=
  mkWorld (store w) (rl_lastPostTime w)
          (filter (fun q => negb (String.eqb p q)) (files w))
          (trace w ++ [EvUnlink p]).

(** *** Media: download and cleanup *)

(** Every failure inside is rethrown as "Telegram download failed: ...". *)
Definition downloadTelegramFile (a : Attempt) (w : World)
  : Completion string * World :=
  let failed msg := Throws ("Telegram download failed: " ++ msg)%string in
  let w1 := emit (EvNet TgGetFile) w in
  match tg_info a with
  | InfoNoReply msg => (failed msg, w1)
  | InfoNotOk => (failed "Failed to get file info from Telegram", w1)
  | InfoOk filePath =>
      let fileName := JS.basename filePath in
      let localPath :=
        (TEMP_DIR ++ "/" ++ JS.toString (clock_download a) ++ "_" ++ fileName)%string in
      let w2 := emit (EvNet TgDownload) w1 in
      match tg_file a with
      | FileNoReply msg => (failed msg, w2)
      | FileStatus code =>
          (failed ("Failed to download file: " ++ JS.toString code)%string, w2)
      | FileOk => (Returns localPath, writeFileSync localPath w2)
      end
  end.

(** An error of [unlinkSync] would be caught and logged; the file system of
    the model always lets an existing file go. *)
Definition cleanupTempFile (filePath : string) (w : World) : World :=
  if negb (String.eqb filePath "") && existsSync filePath w
     && JS.includes filePath TEMP_DIR
  then unlinkSync filePath w
  else w.

(** *** Delivery *)

(** The three phases of the video upload. *)
Definition postVideoToFacebook (a : Attempt) (w : World)
  : Completion (option string) * World :=
  let w1 := emit (EvNet FbVideoStart) w in
  match fb_video_start a with
  | NoReply msg => (Throws msg, w1)
  | ReplyError msg => (Throws ("Video Init failed: " ++ msg)%string, w1)
  | ReplyOk _ =>
      let w2 := emit (EvNet FbVideoTransfer) w1 in
      match fb_video_transfer a with
      | NoReply msg => (Throws msg, w2)
      | ReplyError msg => (Throws ("Video Transfer failed: " ++ msg)%string, w2)
      | ReplyOk _ =>
          let w3 := emit (EvNet FbVideoFinish) w2 in
          match fb_video_finish a with
          | NoReply msg => (Throws msg, w3)
          | ReplyError msg =>
              (Throws ("Video Finish failed: " ++ msg)%string, w3)
          | ReplyOk id => (Returns id, w3)
          end
      end
  end.

(** One request to [feed] or [photos]; [if (result.error) throw ...]. *)
Definition publishOnce (e : Endpoint) (a : Attempt) (w : World)
  : Completion (option string) * World :=
  let w1 := emit (EvNet e) w in
  match fb_publish a with
  | NoReply msg => (Throws msg, w1)
  | ReplyError msg => (Throws msg, w1)
  | ReplyOk id => (Returns id, w1)
  end.

(** The end of the [try] block, once a branch has its result:
    [updateRateLimit(); return result]. *)
Definition delivered (a : Attempt) (res : Completion (option string) * World)
  : Completion PostResult * World :=
  match res with
  | (Throws msg, w1) => (Throws msg, w1)
  | (Returns id, w1) =>
      (Returns (mkPostResult id false), updateRateLimit (clock_done a) w1)
  end.

(** The branch on the media type and the media path. *)
Definition publish (item : Item.t) (mediaPath : option string) (a : Attempt)
    (w : World) : Completion PostResult * World :=
  let hasPath := JS.truthy mediaPath in
  let onDisk :=
    match mediaPath with
    | Some p => existsSync p w
    | None => false
    end in
  delivered a
    (if String.eqb (Item.mediaType item) "video" && hasPath && onDisk
     then postVideoToFacebook a w
     else if String.eqb (Item.mediaType item) "image" && hasPath && onDisk
     then publishOnce FbPhotoUpload a w
     else if String.eqb (Item.mediaType item) "image" && hasPath
     then publishOnce FbPhotoUrl a w
     else publishOnce FbFeed a w).

(** The [try] block: it also gives back [tempFilePath] for the [finally]. *)
Definition deliver (item : Item.t) (config : Config.t) (a : Attempt)
    (w : World) : Completion PostResult * option string * World :=
  if JS.truthy (Item.telegramFileId item)
     && JS.truthy (Config.bot_token config)
  then
    match downloadTelegramFile a w with
    | (Throws msg, w1) => (Throws msg, None, w1)
    | (Returns localPath, w1) =>
        let '(res, w2) := publish item (Some localPath) a w1 in
        (res, Some localPath, w2)
    end
  else
    let '(res, w1) := publish item (Item.mediaUrl item) a w in
    (res, None, w1).

Definition postToFacebook (item : Item.t) (config : Config.t) (a : Attempt)
    (w : World) : Completion PostResult * World :=
  if Config.dry_run config then
    (Returns (mkPostResult
                (Some ("dry-run-" ++ JS.toString (clock_dry a))%string) true),
     w)
  else
    let validation := validateConfig config in
    if negb (valid validation) then
      (Throws ("Config error: " ++ JS.join ", " (errors validation))%string, w)
    else
      match checkRateLimit (clock_gate a) w with
      | Denied _ message => (Throws message, w)
      | Allowed =>
          let '(res, tempFilePath, w1) := deliver item config a w in
          let w2 :=
            match tempFilePath with
            | Some p => cleanupTempFile p w1
            | None => w1
            end in
          (res, w2)
      end.

(** *** Scheduler *)

(** [NaN] is [None]; a comparison with [NaN] is false. *)
Definition slotOf (timeStr : string) : option Z * option Z :=
  match map JS.Number (JS.splitColon timeStr) with
  | hour :: minute :: _ => (hour, minute)
  | [hour] => (hour, None)
  | [] => (None, None)
  end.

(** The [for] loop: the first slot, in the order of the list, that lies
    after [currentTime]. *)
Fixpoint firstLater (currentTime : Z) (times : list string)
  : option (Z * Z) :=
  match times with
  | [] => None
  | timeStr :: rest =>
      match slotOf timeStr with
      | (Some hour, Some minute) =>
          if hour * 60 + minute >? currentTime then Some (hour, minute)
          else firstLater currentTime rest
      | _ => firstLater currentTime rest
      end
  end.

Definition getNextScheduleTime (config : Config.t) (now : Timestamp)
  : Completion Timestamp :=
  let times := Config.post_times config in
  let timezone :=
    if JS.truthy (Config.timezone config)
    then match Config.timezone config with Some z => z | None => "" end
    else "Asia/Bangkok" in
  match tzDate timezone now with
  | Throws msg => Throws msg
  | Returns tzNow =>
      let currentTime := getHours tzNow * 60 + getMinutes tzNow in
      match firstLater currentTime times with
      | Some (hour, minute) => Returns (setHours tzNow hour minute 0 0)
      | None =>
          match times with
          | [] => Throws "TypeError: Cannot read properties of undefined"
          | first :: _ =>
              match slotOf first with
              | (Some firstHour, Some firstMinute) =>
                  Returns
                    (setHours (setDateNext tzNow) firstHour firstMinute 0 0)
              | _ => Throws "RangeError: Invalid time value"
              end
          end
      end
  end.

Definition unscheduled (item : Item.t) : bool :=
  match Item.scheduledFor item with
  | Some _ => false
  | None => true
  end.

(** The [for] loop of [schedulePosts]; [clock k] is the [new Date()] of the
    [k]-th call of [getNextScheduleTime]. *)
Fixpoint scheduleLoop (config : Config.t) (clock : nat -> Timestamp)
    (k : nat) (toSchedule : list (Ref * Item.t))
    (pending : list (Ref * Item.t)) : Completion (list (Ref * Item.t)) :=
  match toSchedule with
  | [] => Returns pending
  | (r, _) :: rest =>
      match getNextScheduleTime config (clock k) with
      | Throws msg => Throws msg
      | Returns s =>
          scheduleLoop config clock (S k) rest
            (updateRef r (Item.setScheduledFor s) pending)
      end
  end.

(** [posts_per_day || 2] *)
Definition postsPerDay (config : Config.t) : Z :=
  match Config.posts_per_day config with
  | Some n => if n =? 0 then 2 else n
  | None => 2
  end.

Definition schedulePosts (config : Config.t) (clock : nat -> Timestamp)
    (w : World) : Completion unit * World :=
  let queue := loadQueue w in
  let m := fromQueue queue in
  let unsched := filter (fun p => unscheduled (snd p)) (m_pending m) in
  if Nat.eqb (List.length unsched) 0 then (Returns tt, w)
  else
    let toSchedule := JS.slice0 (postsPerDay config) unsched in
    match scheduleLoop config clock 0 toSchedule (m_pending m) with
    | Throws msg => (Throws msg, w)
    | Returns pending' =>
        (Returns tt,
         saveQueue (toQueue (mkMem pending' (m_posted m) (m_lastPostTime m)
                                   (m_postedHashes m))) w)
    end.

(** *** Ingestion *)

Definition addToQueue (content : Content.t) (config : Config.t)
    (env : AddEnv) (w : World) : AddResult * World :=
  let validation := validateInput content in
  if negb (valid validation) then (AddInvalid (errors validation), w)
  else
    (* validation has checked that [content.text] is a non-empty string *)
    let text := match Content.text content with Some t => t | None => "" end in
    let contentHash := generateContentHash text (Content.mediaType content) in
    let '(duplicate, queue) := isDuplicateContent (loadQueue w) contentHash in
    if duplicate then (AddDuplicate, w)
    else
      let item :=
        Item.mk (JS.toString (now_id env))
                (Content.source content)
                text
                (JS.orNull (Content.mediaUrl content))
                (if JS.truthy (Content.mediaType content)
                 then match Content.mediaType content with
                      | Some m => m | None => "text" end
                 else "text")
                (JS.orNull (Content.telegramFileId content))
                contentHash
                (now_added env)
                None
                pending_st
                None None None in
      let queue' :=
        Queue.mk (Queue.pending queue ++ [item]) (Queue.posted queue)
                 (Queue.lastPostTime queue) (Queue.postedHashes queue) in
      let w1 := saveQueue queue' w in
      match schedulePosts config (sched_clock env) w1 with
      | (Throws msg, w2) => (AddThrows msg, w2)
      | (Returns _, w2) => (AddSuccess item, w2)
      end.

(** *** Processing pass *)

Definition isDue (now : Timestamp) (item : Item.t) : bool :=
  (negb (String.eqb (Item.text item) "") && JS.includes (Item.text item) "#now")
  || match Item.scheduledFor item with
     | Some s => s <=? now
     | None => false
     end.

(** The bookkeeping after a successful delivery:
    [if (!queue.postedHashes) queue.postedHashes = [];] then the guarded
    [push] and the [shift] above 1000 entries. *)
Definition recordHash (contentHash : string)
    (postedHashes : option (list string)) : option (list string) :=
  let hs := hashesOf postedHashes in
  if negb (String.eqb contentHash "") && negb (JS.arrayIncludes hs contentHash)
  then
    let hs' := hs ++ [contentHash] in
    if (1000 <? List.length hs')%nat then Some (JS.shift hs') else Some hs'
  else Some hs.

(** The body of the [try] after [postToFacebook] has returned. *)
Definition onPosted (now : Timestamp) (result : PostResult) (item : Item.t)
    (m : Mem) : Mem :=
  let item' := Item.markPosted now (r_id result) item in
  mkMem (filter (fun p => negb (String.eqb (Item.id (snd p)) (Item.id item')))
                (m_pending m))
        (m_posted m ++ [item'])
        (m_lastPostTime m)
        (recordHash (Item.contentHash item') (m_postedHashes m)).

(** The [catch] block: a write to the object [r]. *)
Definition onFailed (msg : string) (r : Ref) (m : Mem) : Mem :=
  mkMem (updateRef r (Item.markFailed msg) (m_pending m))
        (m_posted m) (m_lastPostTime m) (m_postedHashes m).

(** The [for] loop over [duePosts]; [oracle k] is what the [k]-th delivery
    reads from outside.  An object is written only in its own turn, so the
    item of a turn still reads as it was loaded. *)
Fixpoint processLoop (config : Config.t) (now : Timestamp)
    (oracle : nat -> Attempt) (k : nat) (duePosts : list (Ref * Item.t))
    (m : Mem) (w : World) : PassLog * Mem * World :=
  match duePosts with
  | [] => ([], m, w)
  | (r, item) :: rest =>
      let '(res, w1) := postToFacebook item config (oracle k) w in
      let m1 :=
        match res with
        | Returns result => onPosted now result item m
        | Throws msg => onFailed msg r m
        end in
      let '(log, m2, w2) := processLoop config now oracle (S k) rest m1 w1 in
      ((item, res) :: log, m2, w2)
  end.

Definition duePosts (now : Timestamp) (m : Mem) : list (Ref * Item.t) :=
  filter (fun p => isDue now (snd p)) (m_pending m).

Definition processScheduledPosts (config : Config.t) (now : Timestamp)
    (oracle : nat -> Attempt) (w : World) : PassLog * World :=
  let m := fromQueue (loadQueue w) in
  let '(log, m', w1) := processLoop config now oracle 0 (duePosts now m) m w in
  (log, saveQueue (toQueue m') w1).

(** ** Notions used to state the properties *)

(** The ids that occur in the queue, pending first. *)
Definition queueIds (q : Queue.t) : list string :=
  map Item.id (Queue.pending q) ++ map Item.id (Queue.posted q).

(** The partition of the queue: no id occurs twice in pending and posted
    taken together (so none occurs in both), and no pending item carries
    the status 'posted'. *)
Definition partitioned (q : Queue.t) : Prop :=
  NoDup (queueIds q) /\
  Forall (fun i => Item.status i <> posted_st) (Queue.pending q).

(** The worlds the program reaches from a missing [queue.json] when every
    ingestion reads a clock value that is not yet the id of a queued item. *)
Inductive Reachable : World -> Prop :=
| reach_init : forall w, store w = None -> Reachable w
| reach_add : forall w content config env,
    Reachable w ->
    ~ In (JS.toString (now_id env)) (queueIds (loadQueue w)) ->
    Reachable (snd (addToQueue content config env w))
| reach_schedule : forall w config clock,
    Reachable w -> Reachable (snd (schedulePosts config clock w))
| reach_process : forall w config now oracle,
    Reachable w ->
    Reachable (snd (processScheduledPosts config now oracle w)).

(** The events a step added to the trace. *)
Definition added (w w' : World) : list Event :=
  skipn (List.length (trace w)) (trace w').

(** [w'] comes from [w] by the events [evs]; [queue.json] is untouched. *)
Definition runs (w w' : World) (evs : list Event) : Prop :=
  store w' = store w /\
  trace w' = trace w ++ evs /\
  forallb (fun e => negb (isEvSaveQueue e)) evs = true.

(** What the loop of a pass relies on: the objects of pending are distinct,
    their ids are distinct, and the due objects still to be handled are
    distinct objects of pending. *)
Definition coherent (due : list (nat * Item.t)) (m : Mem) : Prop :=
  NoDup (map fst (m_pending m)) /\
  NoDup (map Item.id (deref (m_pending m))) /\
  incl due (m_pending m) /\
  NoDup due.

(** The hashes a pass leaves, read off its log. *)
Definition hashesAfter (log : PassLog) (postedHashes : option (list string))
  : option (list string) :=
  fold_left
    (fun acc e =>
       match snd e with
       | Returns _ => recordHash (Item.contentHash (fst e)) acc
       | Throws _ => acc
       end)
    log postedHashes.

(** The id a dry run makes up. *)
Definition dryRunId (a : Attempt) : string :=
  ("dry-run-" ++ JS.toString (clock_dry a))%string.

(** An item with its slot erased. *)
Definition clearSchedule (i : Item.t) : Item.t :=
  Item.mk (Item.id i) (Item.source i) (Item.text i) (Item.mediaUrl i)
          (Item.mediaType i) (Item.telegramFileId i) (Item.contentHash i)
          (Item.addedAt i) None (Item.status i) (Item.postedAt i)
          (Item.facebookPostId i) (Item.error i).

(** [content.text] once validation has passed. *)
Definition contentText (content : Content.t) : string :=
  match Content.text content with Some t => t | None => "" end.

(** The scheduler as the specification words it: walk pending in arrival
    order, give [slot] to the first [n] items that have no slot yet, leave
    every other item as it is. *)
Fixpoint assignFirst (n : nat) (slot : Timestamp) (l : list Item.t)
  : list Item.t :=
  match l with
  | [] => []
  | item :: rest =>
      match Item.scheduledFor item, n with
      | None, S n' => Item.setScheduledFor slot item :: assignFirst n' slot rest
      | _, _ => item :: assignFirst n slot rest
      end
  end.

(** The write one turn of the scheduler's loop makes. *)
Definition assignRef (slot : Z) (acc : list (nat * Item.t)) (p : nat * Item.t)
  : list (nat * Item.t) :=
  updateRef (fst p) (Item.setScheduledFor slot) acc.

(** The zone name [getNextScheduleTime] uses. *)
Definition zoneName (config : Config.t) : string :=
  if JS.truthy (Config.timezone config)
  then match Config.timezone config with Some z => z | None => "" end
  else "Asia/Bangkok".

(** The wall clock of an instant in a named zone, as milliseconds since
    the epoch of that wall clock, when the zone is known; the calendar day
    and the minute of the day of a wall clock. *)
Definition wallClock (timezone : string) (now : Timestamp) : option Z :=
  match zoneOffset timezone now with
  | Some offset => Some (now + offset)
  | None => None
  end.
Definition dayOf (wall : Z) : Z := wall / msPerDay.
Definition minuteOfDay (wall : Z) : Z := (wall / msPerMinute) mod 1440.

(** A calendar day at [hour]:[minute]:00.000, as a wall-clock reading. *)
Definition atDay (day hour minute : Z) : Z :=
  day * msPerDay + hour * msPerHour + minute * msPerMinute.

(** A slot string that reads as a time of day, "HH:MM". *)
Definition validSlot (timeStr : string) : bool :=
  match slotOf timeStr with
  | (Some hour, Some minute) =>
      (0 <=? hour) && (hour <? 24) && (0 <=? minute) && (minute <? 60)
  | _ => false
  end.

(** Minutes after midnight of a slot string (0 when it is not a slot). *)
Definition slotMinutes (timeStr : string) : Z :=
  match slotOf timeStr with
  | (Some hour, Some minute) => hour * 60 + minute
  | _ => 0
  end.

(** The last [n] elements of a list. *)
Definition lastN {A} (n : nat) (l : list A) : list A :=
  skipn (List.length l - n) l.

Fixpoint nodupb (l : list string) : bool :=
  match l with
  | [] => true
  | x :: rest => negb (JS.arrayIncludes rest x) && nodupb rest
  end.

Definition isReturns {A} (c : Completion A) : bool :=
  match c with Returns _ => true | Throws _ => false end.

(** A path lies under the scratch directory. *)
Definition underTempDir (p : string) : bool :=
  String.prefix (TEMP_DIR ++ "/")%string p.

(** The hashes of the persisted queue. *)
Definition storedHashes (w : World) : list string :=
  hashesOf (Queue.postedHashes (loadQueue w)).

(** The worlds the program reaches from a missing [queue.json], whatever
    the clock reads. *)
Inductive Produced : World -> Prop :=
| produced_init : forall w, store w = None -> Produced w
| produced_add : forall w content config env,
    Produced w -> Produced (snd (addToQueue content config env w))
| produced_schedule : forall w config clock,
    Produced w -> Produced (snd (schedulePosts config clock w))
| produced_process : forall w config now oracle,
    Produced w ->
    Produced (snd (processScheduledPosts config now oracle w)).

(** What validation lets into the queue. *)
Definition admissible (i : Item.t) : Prop :=
  Item.text i <> "" /\
  (String.length (Item.text i) <= 2200)%nat /\
  In (Item.mediaType i) validMediaTypes.

(** The bookkeeping fields of an item that waits, and of one that is
    posted. *)
Definition waiting (i : Item.t) : Prop :=
  (Item.status i = pending_st \/ Item.status i = failed_st) /\
  (Item.status i = failed_st <-> Item.error i <> None) /\
  Item.postedAt i = None /\
  Item.facebookPostId i = None.

Definition done (i : Item.t) : Prop :=
  Item.status i = posted_st /\ Item.postedAt i <> None.

(** The state of the queue that every operation keeps. *)
Definition sound (q : Queue.t) : Prop :=
  Forall waiting (Queue.pending q) /\
  Forall admissible (Queue.pending q) /\
  Forall done (Queue.posted q) /\
  Forall admissible (Queue.posted q).

(** The entries a pass appends to posted, read off its log. *)
Definition deliveredOf (now : Timestamp) (log : PassLog) : list Item.t :=
  flat_map
    (fun e =>
       match snd e with
       | Returns result => [Item.markPosted now (r_id result) (fst e)]
       | Throws _ => []
       end)
    log.

(** What a pass makes of one pending item, read off its log by the id of
    the item: gone when its delivery returned, marked failed when it threw,
    as it was when the item was not due. *)
Definition settle (log : PassLog) (item : Item.t) : list Item.t :=
  match find (fun e => String.eqb (Item.id (fst e)) (Item.id item)) log with
  | Some (_, Returns _) => []
  | Some (_, Throws msg) => [Item.markFailed msg item]
  | None => [item]
  end.

(** Where [downloadTelegramFile] puts the file with Telegram path
    [filePath]. *)
Definition downloadPath (a : Attempt) (filePath : string) : string :=
  (TEMP_DIR ++ "/" ++ JS.toString (clock_download a) ++ "_"
   ++ JS.basename filePath)%string.

(** The attempt has a Telegram file to fetch and the fetch goes wrong. *)
Definition downloadFails (a : Attempt) : bool :=
  match tg_info a, tg_file a with
  | InfoOk _, FileOk => false
  | _, _ => true
  end.

Definition isTelegramRequest (e : Event) : bool :=
  match e with
  | EvNet TgGetFile | EvNet TgDownload => true
  | _ => false
  end.

(** The requests of a video upload, in order. *)
Definition videoPhases : list Event :=
  [EvNet FbVideoStart; EvNet FbVideoTransfer; EvNet FbVideoFinish].

(** One item before and after a run of the scheduler: untouched, or it had
    no slot and was given one. *)
Definition slotGiven (old new : Item.t) : Prop :=
  new = old \/
  (Item.scheduledFor old = None /\
   exists s, new = Item.setScheduledFor s old).

End Program.

(** ** Loading the configuration *)

(** A parsed JSON document. *)
#[local] Set Warnings "-register-all".
Inductive Json : Type :=
| JNull
| JBool (b : bool)
| JNum (n : Z)
| JStr (s : string)
| JArr (items : list Json)
| JObj (members : list (string * Json))
| JForeign.   (* a function or object of the runtime; [JSON.parse] never
                 yields one *)

(** The variables of the environment: a variable is unset or has a string
    value. *)
Abbreviation Env := (string -> option string) (only parsing).

(** The names [process.env] inherits from [Object.prototype]: a lookup of
    one of them finds a function (for [__proto__], an object) when no
    variable of that name is set. *)
Definition objectPrototype : list string :=
  ["constructor"; "hasOwnProperty"; "isPrototypeOf"; "propertyIsEnumerable";
   "toLocaleString"; "toString"; "valueOf"; "__proto__";
   "__defineGetter__"; "__defineSetter__"; "__lookupGetter__";
   "__lookupSetter__"].

(** What [process.env[name] || ...] finds. *)
Inductive Lookup : Type :=
| Falsy                  (* unset, or set to the empty string *)
| Value (v : string)     (* a variable with a non-empty value *)
| Member.                (* no variable: a member of [Object.prototype] *)

Definition lookup (env : Env) (name : string) : Lookup :=
  match env name with
  | Some v => if String.eqb v "" then Falsy else Value v
  | None => if JS.arrayIncludes objectPrototype name then Member else Falsy
  end.

(** [process.env[name]] when it is truthy, for a name that
    [Object.prototype] does not have. *)
Definition envValue (env : Env) (name : string) : option string :=
  match env name with
  | Some v => if String.eqb v "" then None else Some v
  | None => None
  end.

(** [s.startsWith('${') && s.endsWith('}')] *)
Definition isPlaceholder (s : string) : bool :=
  String.prefix "${" s && JS.endsWith s "}".

(** [s.slice(2, -1)]: the name inside a placeholder. *)
Definition placeholderName (s : string) : string :=
  String.substring 2 (String.length s - 3) s.

(** What [replaceEnvVars] finds for a string: nothing when it is not a
    placeholder. *)
Definition found (env : Env) (s : string) : Lookup :=
  if isPlaceholder s then lookup env (placeholderName s) else Falsy.

(** [process.env[s.slice(2, -1)] || s] for a placeholder, [s] otherwise. *)
Definition resolveValue (env : Env) (s : string) : Json :=
  match found env s with
  | Value v => JStr v
  | Member => JForeign
  | Falsy => JStr s
  end.

(** The same where the result is a string: the placeholder does not name
    a member of [Object.prototype], or a variable of that name is set. *)
Definition resolve (env : Env) (s : string) : string :=
  if isPlaceholder s then
    match envValue env (placeholderName s) with
    | Some v => v
    | None => s
    end
  else s.

(** What [replaceEnvVars] does to the value of one key: a string is
    resolved, an array or object is entered, anything else stays. *)
Fixpoint replaceValue (env : Env) (j : Json) : Json :=
  match j with
  | JStr s => resolveValue env s
  | JArr items => JArr (map (replaceValue env) items)
  | JObj members =>
      JObj (map (fun kv => (fst kv, replaceValue env (snd kv))) members)
  | _ => j
  end.

(** [replaceEnvVars(obj)]: the loop over the keys of [obj]. *)
Definition replaceEnvVars (env : Env) (obj : Json) : Json :=
  match obj with
  | JArr _ | JObj _ => replaceValue env obj
  | _ => obj
  end.

(** The strings of a document, at any depth. *)
Fixpoint stringsOf (j : Json) : list string :=
  match j with
  | JStr s => [s]
  | JArr items => flat_map stringsOf items
  | JObj members => flat_map (fun kv => stringsOf (snd kv)) members
  | _ => []
  end.

(** The value of [dry_run] in the file. *)
Inductive Flag : Type :=
| FlagAbsent
| FlagBool (b : bool)
| FlagStr (s : string).

(** The members of [config.json] that the program reads: under [settings]
    the sections [facebook] and [telegram] (objects; [None] when the key is
    missing or null), [dry_run], and [schedule]. *)
Module Raw.
Record facebook : Type := mkFacebook {
  page_id : option string;
  access_token : option string;
  api_version : option string
}.
Record t : Type := mk {
  fb : option facebook;
  bot_token : option (option string);   (* [telegram], then [bot_token] *)
  dry_run : Flag;
  post_times : list string;
  timezone : option string;
  posts_per_day : option Z
}.
(** The parsed file: [None] when it has no [settings] (the key is missing
    or null). *)
Definition document : Type := option t.
End Raw.

Definition member (key : string) (value : option Json) : list (string * Json) :=
  match value with
  | Some v => [(key, v)]
  | None => []
  end.

(** The document as [JSON.parse] gives it. *)
Definition toJson (c : Raw.t) : Json :=
  JObj
    [("settings",
      JObj
        (member "facebook"
           (option_map
              (fun f =>
                 JObj (member "page_id" (option_map JStr (Raw.page_id f))
                       ++ member "access_token"
                            (option_map JStr (Raw.access_token f))
                       ++ member "api_version"
                            (option_map JStr (Raw.api_version f))))
              (Raw.fb c))
         ++ member "telegram"
              (option_map
                 (fun b => JObj (member "bot_token" (option_map JStr b)))
                 (Raw.bot_token c))
         ++ member "dry_run"
              match Raw.dry_run c with
              | FlagAbsent => None
              | FlagBool b => Some (JBool b)
              | FlagStr s => Some (JStr s)
              end
         ++ [("schedule",
              JObj
                ([("post_times", JArr (map JStr (Raw.post_times c)))]
                 ++ member "timezone" (option_map JStr (Raw.timezone c))
                 ++ member "posts_per_day"
                      (option_map JNum (Raw.posts_per_day c))))]))].

(** [replaceEnvVars] on a document of that shape: every string in it is
    resolved. *)
Definition resolveConfig (env : Env) (c : Raw.t) : Raw.t :=
  Raw.mk
    (option_map
       (fun f =>
          Raw.mkFacebook (option_map (resolve env) (Raw.page_id f))
                         (option_map (resolve env) (Raw.access_token f))
                         (option_map (resolve env) (Raw.api_version f)))
       (Raw.fb c))
    (option_map (option_map (resolve env)) (Raw.bot_token c))
    match Raw.dry_run c with
    | FlagStr s => FlagStr (resolve env s)
    | f => f
    end
    (map (resolve env) (Raw.post_times c))
    (option_map (resolve env) (Raw.timezone c))
    (Raw.posts_per_day c).

(** One of the four variables that [loadConfig] reads directly is set. *)
Definition overrides (env : Env) : bool :=
  match envValue env "FACEBOOK_PAGE_ID", envValue env "FACEBOOK_ACCESS_TOKEN",
        envValue env "TELEGRAM_BOT_TOKEN", envValue env "DRY_RUN" with
  | None, None, None, None => false
  | _, _, _, _ => true
  end.

(** [loadConfig]: [None] is [process.exit(1)].  [file] is [None] when
    [config.json] is missing or does not parse.  An override that has to
    write into [settings], or into a section of it, that the file does not
    have throws, and the handler of [loadConfig] exits.  The strings are
    resolved as strings: see [resolve]. *)
Definition loadConfig (env : Env) (file : option Raw.document)
  : option Raw.document :=
  match file with
  | None => None
  | Some None => if overrides env then None else Some None
  | Some (Some parsed) =>
      let config := resolveConfig env parsed in
      let afterPageId :=
        match envValue env "FACEBOOK_PAGE_ID" with
        | Some v =>
            match Raw.fb config with
            | Some f =>
                Some (Some (Raw.mkFacebook (Some v) (Raw.access_token f)
                                           (Raw.api_version f)))
            | None => None
            end
        | None => Some (Raw.fb config)
        end in
      match afterPageId with
      | None => None
      | Some fb1 =>
          let afterToken :=
            match envValue env "FACEBOOK_ACCESS_TOKEN" with
            | Some v =>
                match fb1 with
                | Some f =>
                    Some (Some (Raw.mkFacebook (Raw.page_id f) (Some v)
                                               (Raw.api_version f)))
                | None => None
                end
            | None => Some fb1
            end in
          match afterToken with
          | None => None
          | Some fb2 =>
              let afterBot :=
                match envValue env "TELEGRAM_BOT_TOKEN" with
                | Some v =>
                    match Raw.bot_token config with
                    | Some _ => Some (Some (Some v))
                    | None => None
                    end
                | None => Some (Raw.bot_token config)
                end in
              match afterBot with
              | None => None
              | Some bot =>
                  let flag :=
                    match envValue env "DRY_RUN" with
                    | Some v => FlagBool (String.eqb v "true")
                    | None => Raw.dry_run config
                    end in
                  Some (Some (Raw.mk fb2 bot flag (Raw.post_times config)
                                     (Raw.timezone config)
                                     (Raw.posts_per_day config)))
              end
          end
      end
  end.

(** How the program reads the loaded document: [settings.dry_run === true],
    [settings.facebook?.page_id], [settings.telegram?.bot_token], and the
    members of [settings.schedule]. *)
Definition settingsOf (c : Raw.t) : Config.t :=
  Config.mk
    match Raw.dry_run c with FlagBool true => true | _ => false end
    match Raw.fb c with Some f => Raw.page_id f | None => None end
    match Raw.fb c with Some f => Raw.access_token f | None => None end
    match Raw.fb c with Some f => Raw.api_version f | None => None end
    match Raw.bot_token c with Some b => b | None => None end
    (Raw.post_times c) (Raw.timezone c) (Raw.posts_per_day c).

(** ** The Telegram webhook *)

Module Telegram.
Record chat : Type := mkChat {
  chat_id : Z;
  title : option string;
  username : option string
}.
Record message : Type := mkMessage {
  from : chat;                      (* [message.chat] *)
  text : option string;
  caption : option string;
  photo : option (list string)      (* the [file_id] of each size *)
}.
End Telegram.

(** What [processTelegramWebhook] returns. *)
Inductive WebhookAnswer : Type :=
| NoMessage                       (* { ok: false, reason: 'no_message' } *)
| NotAllowed (chat : string)      (* { ok: false, reason: 'not_allowed', chat } *)
| Skipped                         (* { ok: false, reason: 'skipped' } *)
| Handed (content : Content.t).   (* { ok: true, ... } after [addToQueue] *)

Definition skipPatterns : list string := ["#skip"; "#draft"; "#ignore"].

(** [a || b] for values that are absent or strings. *)
Definition orElse (a b : option string) : option string :=
  if JS.truthy a then a else b.

(** [processTelegramWebhook(update)].  [toLowerCase] is
    [String.prototype.toLowerCase]; [sources] is
    [config.telegram_sources || []]; [add] is what the name [addToQueue]
    is bound to, as an action on the world (its result is only printed). *)
Definition processTelegramWebhook (toLowerCase : string -> string)
    (sources : list string) (add : Content.t -> World -> World)
    (update : option Telegram.message) (w : World) : WebhookAnswer * World :=
  match update with
  | None => (NoMessage, w)
  | Some message =>
      let chatId := JS.toString (Telegram.chat_id (Telegram.from message)) in
      let username := Telegram.username (Telegram.from message) in
      let chatTitle :=
        match orElse (Telegram.title (Telegram.from message))
                     (orElse username (Some chatId)) with
        | Some t => t
        | None => chatId
        end in
      let isAllowed :=
        existsb
          (fun source =>
             String.eqb chatId source || String.eqb chatTitle source
             || match username with
                | Some u => String.eqb u source
                | None => false
                end)
          sources in
      if negb isAllowed then (NotAllowed chatTitle, w)
      else
        let text :=
          match orElse (Telegram.text message)
                       (orElse (Telegram.caption message) (Some "")) with
          | Some t => t
          | None => ""
          end in
        if existsb (fun pattern => JS.includes (toLowerCase text) pattern)
                   skipPatterns
        then (Skipped, w)
        else
          let telegramFileId :=
            match Telegram.photo message with
            | Some (first :: rest) => Some (last rest first)
            | _ => None
            end in
          let mediaType :=
            match telegramFileId with Some _ => "image" | None => "text" end in
          let content :=
            Content.mk (Some chatTitle) (Some text) telegramFileId
                       (Some mediaType) telegramFileId in
          (Handed content, add content w)
  end.

(** ** Concrete inputs *)

Module Demo.

(** A stand-in for the digest: any function serves, the program only
    compares the strings it returns. *)
Definition digest (s : string) : string := s.

Definition dir : string := "/app".

(** Bangkok is seven hours ahead of UTC the whole year; no other name is
    known. *)
Definition zones (name : string) (now : Timestamp) : option Z :=
  if String.eqb name "Asia/Bangkok" then Some (7 * msPerHour)
  else if String.eqb name "UTC" then Some 0
  else None.

(** The process runs in the configured zone (TZ=Asia/Bangkok). *)
Definition offset (t : Z) (isUTC : bool) : Z := 7 * msPerHour.

(** The process runs in UTC (TZ=UTC). *)
Definition utc (t : Z) (isUTC : bool) : Z := 0.

(** Midnight, Bangkok time, of some day. *)
Definition midnight : Timestamp := 20000 * msPerDay - 7 * msPerHour.

Definition config : Config.t :=
  Config.mk false (Some "1234567890") (Some "EAAB-token") (Some "v18.0")
            (Some "bot-token") ["09:00"; "18:00"] (Some "Asia/Bangkok") None.

Definition dryConfig : Config.t :=
  Config.mk true (Some "1234567890") (Some "EAAB-token") (Some "v18.0")
            (Some "bot-token") ["09:00"; "18:00"] (Some "Asia/Bangkok") None.

Definition badConfig : Config.t :=
  Config.mk false (Some "YOUR_PAGE_ID") (Some "EAAB-token") (Some "v18.0")
            (Some "bot-token") ["09:00"; "18:00"] (Some "Asia/Bangkok") None.

Definition fresh : World := mkWorld None 0 [] [].

Definition hello : Content.t :=
  Content.mk (Some "AI-Media") (Some "hello #now") None (Some "text") None.

Definition bye : Content.t :=
  Content.mk (Some "AI-Media") (Some "bye") None (Some "text") None.

(** Ingestion at 10:00, Bangkok time, with [Date.now()] reading [ms]. *)
Definition at10 (ms : Z) : AddEnv :=
  mkAddEnv ms ms (fun _ => midnight + 10 * msPerHour).

(** A delivery for which everything outside answers well. *)
Definition fine (gate done : Z) : Attempt :=
  mkAttempt gate gate gate done (InfoOk "photos/file_1.jpg") FileOk
            (ReplyOk (Some "1234567890_1")) (ReplyOk None) (ReplyOk None)
            (ReplyOk (Some "1234567890_2")).

(** [queue.json] after "hello #now" was ingested into an empty queue. *)
Definition queued : World :=
  snd (addToQueue digest offset zones hello config (at10 5) fresh).

(** ... and after "bye" was ingested in the same millisecond. *)
Definition clash : World :=
  snd (addToQueue digest offset zones bye config (at10 5) queued).

Definition noon : Timestamp := midnight + 12 * msPerHour.

(** ... and after a dry-run pass at noon has posted it. *)
Definition afterPass : World :=
  snd (processScheduledPosts dir dryConfig noon (fun k => fine 0 0) queued).

(** A pending item that is due whenever a pass runs. *)
Definition due (k : nat) : Item.t :=
  Item.mk (JS.toString (Z.of_nat k)) (Some "AI-Media") "post #now" None "text"
          None ("hash-" ++ JS.toString (Z.of_nat k))%string 0 None pending_st
          None None None.

(** A queue of [n] such items and nothing else. *)
Definition backlog (n : nat) : World :=
  mkWorld (Some (Queue.mk (map due (seq 0 n)) [] None (Some []))) 0 [] [].

(** A file next to the temp directory, not in it. *)
Definition sibling : string := "/app/temporary/keep.txt".

(** A delivery that Facebook answers with an error. *)
Definition refused (gate done : Z) : Attempt :=
  mkAttempt gate gate gate done (InfoOk "photos/file_1.jpg") FileOk
            (ReplyError "(#200) Permissions error") (ReplyOk None)
            (ReplyOk None) (ReplyOk (Some "1234567890_2")).

(** The first delivery of a pass is refused, the later ones go well. *)
Definition oneFails (k : nat) : Attempt :=
  if Nat.eqb k 0 then refused 100000 100500 else fine 100000 100500.

Definition evening : Timestamp := midnight + 19 * msPerHour.

(** The limiter after a delivery that ended at 100.5 s. *)
Definition warm : World := mkWorld None 100500 [] [].

(** A pending photo that came from Telegram. *)
Definition photo : Item.t :=
  Item.mk "7" (Some "AI-Media") "sunset" (Some "AgAC-file") "image"
          (Some "AgAC-file") "hash-photo" 0 None pending_st None None None.

(** A delivery during which Telegram does not know the file. *)
Definition offline (gate done : Z) : Attempt :=
  mkAttempt gate gate gate done InfoNotOk FileOk
            (ReplyOk (Some "1234567890_1")) (ReplyOk None) (ReplyOk None)
            (ReplyOk (Some "1234567890_2")).

(** A configuration without any slot. *)
Definition noSlots : Config.t :=
  Config.mk false (Some "1234567890") (Some "EAAB-token") (Some "v18.0")
            (Some "bot-token") [] (Some "Asia/Bangkok") None.

(** [config.json] with its credentials left to the environment. *)
Definition template : Raw.t :=
  Raw.mk (Some (Raw.mkFacebook (Some "${FACEBOOK_PAGE_ID}")
                               (Some "${FACEBOOK_ACCESS_TOKEN}")
                               (Some "v18.0")))
         (Some (Some "${TELEGRAM_BOT_TOKEN}"))
         (FlagBool true)
         ["09:00"; "18:00"] (Some "Asia/Bangkok") (Some 2).

(** An environment with a page id, and [DRY_RUN=1]. *)
Definition env (name : string) : option string :=
  if String.eqb name "FACEBOOK_PAGE_ID" then Some "1234567890"
  else if String.eqb name "DRY_RUN" then Some "1"
  else None.

(** An environment that holds nothing but [HOME]. *)
Definition bare (name : string) : option string :=
  if String.eqb name "HOME" then Some "/root" else None.

End Demo.


(** * Properties *)

(** ** Strings and arrays *)

Lemma arrayIncludes_In (l : list string) (x : string) :
  JS.arrayIncludes l x = true <-> In x l.
Proof.
  unfold JS.arrayIncludes. rewrite existsb_exists. split.
  - intros [y [Hy He]]. apply String.eqb_eq in He. now subst.
  - intros H. exists x. split; [assumption | apply String.eqb_refl].
Qed.

Lemma arrayIncludes_not_In (l : list string) (x : string) :
  JS.arrayIncludes l x = false <-> ~ In x l.
Proof.
  rewrite <- arrayIncludes_In.
  destruct (JS.arrayIncludes l x); split; intros; congruence.
Qed.

Lemma prefix_app (p s : string) : String.prefix p (p ++ s)%string = true.
Proof.
  induction p as [|c p IH]; simpl.
  - now destruct s.
  - destruct (Ascii.ascii_dec c c); [assumption | congruence].
Qed.

Lemma includes_prefix (p s : string) : JS.includes (p ++ s)%string p = true.
Proof.
  destruct p as [|c p]; simpl.
  - destruct s; reflexivity.
  - rewrite prefix_app.
    destruct (Ascii.ascii_dec c c); [reflexivity | congruence].
Qed.

Lemma nodupb_NoDup (l : list string) : nodupb l = true -> NoDup l.
Proof.
  induction l as [|x l IH]; simpl; intros H.
  - constructor.
  - apply andb_prop in H as [Hx Hl]. constructor.
    + apply arrayIncludes_not_In. now apply negb_true_iff.
    + auto.
Qed.

(** ** References *)

Lemma deref_allocFrom {A} (l : list A) (s : nat) : deref (allocFrom s l) = l.
Proof.
  unfold deref, allocFrom. revert s.
  induction l as [|x l IH]; intros s; simpl; [reflexivity|].
  now rewrite IH.
Qed.

Lemma refs_allocFrom {A} (l : list A) (s : nat) :
  map fst (allocFrom s l) = seq s (List.length l).
Proof.
  unfold allocFrom. revert s.
  induction l as [|x l IH]; intros s; simpl; [reflexivity|].
  now rewrite IH.
Qed.

Lemma allocFrom_cons {A} (x : A) (l : list A) (s : nat) :
  allocFrom s (x :: l) = (s, x) :: allocFrom (S s) l.
Proof. reflexivity. Qed.

Lemma refs_alloc_NoDup {A} (l : list A) : NoDup (map fst (alloc l)).
Proof. unfold alloc. rewrite refs_allocFrom. apply seq_NoDup. Qed.

Lemma updateRef_refs {A} (r : Ref) (f : A -> A) (l : list (Ref * A)) :
  map fst (updateRef r f l) = map fst l.
Proof.
  unfold updateRef. rewrite map_map. apply map_ext.
  intros [r' x]; simpl. now destruct (Nat.eqb r' r).
Qed.

Lemma updateRef_absent {A} (r : Ref) (f : A -> A) (l : list (Ref * A)) :
  ~ In r (map fst l) -> updateRef r f l = l.
Proof.
  unfold updateRef. induction l as [|[r' x] l IH]; simpl; intros H.
  - reflexivity.
  - destruct (Nat.eqb_spec r' r) as [->|Hne].
    + exfalso. apply H. now left.
    + f_equal. apply IH. intro Hin. apply H. now right.
Qed.

Lemma updateRef_proj {A B} (g : A -> B) (r : Ref) (f : A -> A)
    (l : list (Ref * A)) :
  (forall x, g (f x) = g x) ->
  map g (deref (updateRef r f l)) = map g (deref l).
Proof.
  intros Hg. unfold deref, updateRef. rewrite !map_map. apply map_ext.
  intros [r' x]; simpl. destruct (Nat.eqb r' r); simpl; auto.
Qed.

Lemma updateRef_other {A} (r : Ref) (f : A -> A) (l : list (Ref * A))
    (p : Ref * A) :
  fst p <> r -> In p l -> In p (updateRef r f l).
Proof.
  intros Hne Hin. unfold updateRef. apply in_map_iff. exists p.
  split; [|assumption]. cbv beta.
  destruct (Nat.eqb (fst p) r) eqn:E; [|reflexivity].
  apply Nat.eqb_eq in E. contradiction.
Qed.

Lemma updateRef_self {A} (r : Ref) (f : A -> A) (l : list (Ref * A)) (x : A) :
  In (r, x) l -> In (r, f x) (updateRef r f l).
Proof.
  intros Hin. unfold updateRef. apply in_map_iff. exists (r, x).
  split; [|assumption]. simpl. now rewrite Nat.eqb_refl.
Qed.

(** Two entries of a list whose keys never repeat are equal as soon as
    their keys are. *)
Lemma NoDup_map_inj {A B} (f : A -> B) (l : list A) (a b : A) :
  NoDup (map f l) -> In a l -> In b l -> f a = f b -> a = b.
Proof.
  induction l as [|x l IH]; simpl; intros Hnd Ha Hb Hf; [contradiction|].
  inversion Hnd as [|? ? Hx Hl]; subst.
  destruct Ha as [->|Ha], Hb as [->|Hb]; auto.
  - exfalso. apply Hx. rewrite Hf. now apply in_map.
  - exfalso. apply Hx. rewrite <- Hf. now apply in_map.
Qed.

(** ** The trace *)

Lemma added_app (w w' : World) (evs : list Event) :
  trace w' = trace w ++ evs -> added w w' = evs.
Proof.
  intros H. unfold added. rewrite H.
  rewrite skipn_app, skipn_all, Nat.sub_diag. reflexivity.
Qed.

Lemma added_saveQueue (q : Queue.t) (w : World) :
  added w (saveQueue q w) = [EvSaveQueue q].
Proof. now apply added_app. Qed.

(** ** The writes of the scheduler *)

Lemma clearSchedule_setScheduledFor (s : Z) (i : Item.t) :
  clearSchedule (Item.setScheduledFor s i) = clearSchedule i.
Proof. reflexivity. Qed.

Lemma fold_assignRef_head (slot : Z) (upds : list (nat * Item.t))
    (r : nat) (x : Item.t) (l : list (nat * Item.t)) :
  ~ In r (map fst upds) ->
  fold_left (assignRef slot) upds ((r, x) :: l)
  = (r, x) :: fold_left (assignRef slot) upds l.
Proof.
  revert l. induction upds as [|[r' y] upds IH]; intros l Hr; simpl.
  - reflexivity.
  - unfold assignRef at 2 4. simpl.
    destruct (Nat.eqb_spec r r') as [->|Hne].
    + exfalso. apply Hr. now left.
    + apply IH. intro Hin. apply Hr. now right.
Qed.

Lemma In_firstn {A} (n : nat) (l : list A) (x : A) :
  In x (firstn n l) -> In x l.
Proof.
  revert l. induction n as [|n IH]; intros [|y l]; simpl; try tauto.
  intros [H|H]; auto.
Qed.

Lemma selected_refs_above (s n : nat) (l : list Item.t) (r : nat) :
  In r (map fst (firstn n (filter (fun p => unscheduled (snd p))
                                   (allocFrom (S s) l)))) ->
  (s < r)%nat.
Proof.
  intros H. apply in_map_iff in H as [p [<- Hp]].
  apply In_firstn in Hp. apply filter_In in Hp as [Hp _].
  apply (in_map fst) in Hp. rewrite refs_allocFrom in Hp.
  apply in_seq in Hp. lia.
Qed.

Lemma assignFirst_zero (slot : Z) (l : list Item.t) :
  assignFirst 0 slot l = l.
Proof.
  induction l as [|it l IH]; simpl; [reflexivity|].
  rewrite IH. now destruct (Item.scheduledFor it).
Qed.

Lemma assignFirst_none_unscheduled (n : nat) (slot : Z) (l : list Item.t) :
  filter unscheduled l = [] -> assignFirst n slot l = l.
Proof.
  induction l as [|it l IH]; simpl; [reflexivity|].
  unfold unscheduled at 1.
  destruct (Item.scheduledFor it); [|discriminate].
  intros H. now rewrite IH.
Qed.

(** The loop over the selected references computes [assignFirst]. *)
Lemma schedule_refines (slot : Z) (l : list Item.t) (s n : nat) :
  deref (fold_left (assignRef slot)
           (firstn n (filter (fun p => unscheduled (snd p)) (allocFrom s l)))
           (allocFrom s l))
  = assignFirst n slot l.
Proof.
  revert s n. induction l as [|it l IH]; intros s n.
  - simpl. now rewrite firstn_nil.
  - rewrite allocFrom_cons. simpl filter. simpl assignFirst.
    unfold unscheduled at 1. simpl snd.
    destruct (Item.scheduledFor it) as [t|] eqn:Hs.
    + rewrite fold_assignRef_head.
      * unfold deref in *. simpl. now rewrite IH.
      * intro Hin. apply selected_refs_above in Hin. lia.
    + destruct n as [|n].
      * cbn [firstn fold_left]. unfold deref. cbn [map snd].
        rewrite assignFirst_zero. f_equal. apply (deref_allocFrom l (S s)).
      * simpl firstn. simpl fold_left. unfold assignRef at 2. simpl.
        rewrite Nat.eqb_refl.
        rewrite updateRef_absent.
        2:{ rewrite refs_allocFrom. intro Hin. apply in_seq in Hin. lia. }
        rewrite fold_assignRef_head.
        -- unfold deref in *. simpl. now rewrite IH.
        -- intro Hin. apply selected_refs_above in Hin. lia.
Qed.

Lemma filter_deref_alloc (f : Item.t -> bool) (l : list Item.t) (s : nat) :
  deref (filter (fun p => f (snd p)) (allocFrom s l)) = filter f l.
Proof.
  revert s. induction l as [|it l IH]; intros s; [reflexivity|].
  rewrite allocFrom_cons. simpl. destruct (f it); unfold deref in *; simpl;
    now rewrite IH.
Qed.

(** Position by position: an item receives the slot exactly when it has
    none and fewer than [n] items before it had none either. *)
Lemma assignFirst_nth (n : nat) (slot : Z) (l : list Item.t) (i : nat)
    (it : Item.t) :
  nth_error l i = Some it ->
  nth_error (assignFirst n slot l) i
  = Some (if unscheduled it
             && (List.length (filter unscheduled (firstn i l)) <? n)%nat
          then Item.setScheduledFor slot it else it).
Proof.
  revert n i. induction l as [|x l IH]; intros n i H.
  - destruct i; discriminate.
  - destruct i as [|i]; simpl in H.
    + inversion H; subst. simpl. unfold unscheduled.
      destruct (Item.scheduledFor it); [reflexivity|].
      destruct n; reflexivity.
    + simpl assignFirst. simpl firstn. simpl filter.
      unfold unscheduled at 2.
      destruct (Item.scheduledFor x); simpl.
      * now apply IH.
      * destruct n as [|n]; simpl.
        -- rewrite (IH 0%nat i H).
           replace (List.length (filter unscheduled (firstn i l)) <? 0)%nat
             with false by (symmetry; apply Nat.ltb_ge; lia).
           now rewrite !andb_false_r.
        -- rewrite (IH n i H). reflexivity.
Qed.

(** ** Arithmetic of dates *)

Lemma trunc_div (x k : Z) : 0 < k -> (x / 1000 * 1000) / (k * 1000) = x / (1000 * k).
Proof.
  intros Hk. rewrite Zdiv_mult_cancel_r by lia.
  rewrite Z.div_div by lia. reflexivity.
Qed.

(** ** Runs of the world *)

Lemma runs_refl (w : World) : runs w w [].
Proof. repeat split. now rewrite app_nil_r. Qed.

Lemma runs_trans (w1 w2 w3 : World) (e1 e2 : list Event) :
  runs w1 w2 e1 -> runs w2 w3 e2 -> runs w1 w3 (e1 ++ e2).
Proof.
  intros (S1 & T1 & F1) (S2 & T2 & F2). repeat split.
  - congruence.
  - rewrite T2, T1. now rewrite app_assoc.
  - rewrite forallb_app. now rewrite F1, F2.
Qed.

Lemma runs_emit (e : Endpoint) (w : World) : runs w (emit (EvNet e) w) [EvNet e].
Proof. repeat split. Qed.

Lemma runs_writeFileSync (p : string) (w : World) :
  runs w (writeFileSync p w) [EvWriteFile p].
Proof. repeat split. Qed.

Lemma runs_unlinkSync (p : string) (w : World) :
  runs w (unlinkSync p w) [EvUnlink p].
Proof. repeat split. Qed.

Lemma runs_updateRateLimit (now : Z) (w : World) (w0 : World) (evs : list Event) :
  runs w0 w evs -> runs w0 (updateRateLimit now w) evs.
Proof. intros (S1 & T1 & F1). repeat split; assumption. Qed.

Lemma postVideoToFacebook_runs (a : Attempt) (w : World) :
  exists evs,
    runs w (snd (postVideoToFacebook a w)) (EvNet FbVideoStart :: evs) /\
    rl_lastPostTime (snd (postVideoToFacebook a w)) = rl_lastPostTime w /\
    files (snd (postVideoToFacebook a w)) = files w.
Proof.
  unfold postVideoToFacebook.
  destruct (fb_video_start a); [|destruct (fb_video_transfer a);
      [|destruct (fb_video_finish a)|]|]; simpl;
    eexists; (split; [repeat split; simpl; try reflexivity|split; reflexivity]);
    try (rewrite <- !app_assoc; simpl; reflexivity); reflexivity.
Qed.

Lemma publishOnce_runs (e : Endpoint) (a : Attempt) (w : World) :
  runs w (snd (publishOnce e a w)) [EvNet e] /\
  rl_lastPostTime (snd (publishOnce e a w)) = rl_lastPostTime w /\
  files (snd (publishOnce e a w)) = files w.
Proof.
  unfold publishOnce. destruct (fb_publish a); simpl; repeat split.
Qed.

Lemma delivered_runs (a : Attempt) (w : World)
    (res : Completion (option string) * World) (e : Endpoint)
    (evs : list Event) :
  runs w (snd res) (EvNet e :: evs) ->
  rl_lastPostTime (snd res) = rl_lastPostTime w ->
  files (snd res) = files w ->
  runs w (snd (delivered a res)) (EvNet e :: evs) /\
  files (snd (delivered a res)) = files w /\
  match fst (delivered a res) with
  | Returns r =>
      r_dryRun r = false /\ rl_lastPostTime (snd (delivered a res)) = clock_done a
  | Throws _ => rl_lastPostTime (snd (delivered a res)) = rl_lastPostTime w
  end.
Proof.
  destruct res as [[id|msg] w1]; simpl; intros Hr Hl Hf.
  - split; [now apply runs_updateRateLimit|]. split; [assumption|].
    split; reflexivity.
  - repeat split; try assumption; apply Hr.
Qed.

(** Publishing starts with a request; it moves the rate limiter exactly
    when it returns, and then to the clock read at that moment. *)
Lemma publish_runs (item : Item.t) (mediaPath : option string) (a : Attempt)
    (w : World) :
  exists e evs,
    runs w (snd (publish item mediaPath a w)) (EvNet e :: evs) /\
    files (snd (publish item mediaPath a w)) = files w /\
    match fst (publish item mediaPath a w) with
    | Returns r =>
        r_dryRun r = false /\
        rl_lastPostTime (snd (publish item mediaPath a w)) = clock_done a
    | Throws _ =>
        rl_lastPostTime (snd (publish item mediaPath a w)) = rl_lastPostTime w
    end.
Proof.
  unfold publish.
  destruct (String.eqb (Item.mediaType item) "video" && _ && _);
    [|destruct (String.eqb (Item.mediaType item) "image" && _ && _);
      [|destruct (String.eqb (Item.mediaType item) "image" && _)]].
  - destruct (postVideoToFacebook_runs a w) as (evs & Hr & Hl & Hf).
    do 2 eexists. apply delivered_runs; eassumption.
  - destruct (publishOnce_runs FbPhotoUpload a w) as (Hr & Hl & Hf).
    do 2 eexists. apply delivered_runs; eassumption.
  - destruct (publishOnce_runs FbPhotoUrl a w) as (Hr & Hl & Hf).
    do 2 eexists. apply delivered_runs; eassumption.
  - destruct (publishOnce_runs FbFeed a w) as (Hr & Hl & Hf).
    do 2 eexists. apply delivered_runs; eassumption.
Qed.

Lemma checkRateLimit_cases (now : Z) (w : World) :
  (now - rl_lastPostTime w < 60000 /\
   exists waitTime message, checkRateLimit now w = Denied waitTime message)
  \/ (60000 <= now - rl_lastPostTime w /\ checkRateLimit now w = Allowed).
Proof.
  unfold checkRateLimit, minInterval.
  destruct (Z.ltb_spec (now - rl_lastPostTime w) 60000).
  - left. split; [assumption|]. do 2 eexists. reflexivity.
  - right. split; [assumption | reflexivity].
Qed.

(** ** Invariants of the loop of a pass *)

Lemma NoDup_map_filter {A B} (g : A -> B) (f : A -> bool) (l : list A) :
  NoDup (map g l) -> NoDup (map g (filter f l)).
Proof.
  induction l as [|x l IH]; simpl; intros H; [constructor|].
  inversion H as [|? ? Hx Hl]; subst.
  destruct (f x); simpl; auto. constructor; auto.
  intro Hin. apply Hx. apply in_map_iff in Hin as [y [Hy Hin]].
  apply filter_In in Hin as [Hin _]. rewrite <- Hy. now apply in_map.
Qed.

Lemma ids_deref (l : list (nat * Item.t)) :
  map Item.id (deref l) = map (fun p => Item.id (snd p)) l.
Proof. unfold deref. now rewrite map_map. Qed.

Lemma deref_filter_ids (x : string) (l : list (nat * Item.t)) :
  map Item.id
    (deref (filter (fun p => negb (String.eqb (Item.id (snd p)) x)) l))
  = filter (fun i => negb (String.eqb i x)) (map Item.id (deref l)).
Proof.
  induction l as [|[r it] l IH]; simpl; [reflexivity|].
  destruct (negb (String.eqb (Item.id it) x)); simpl; now rewrite IH.
Qed.

Lemma coherent_distinct (r : nat) (item : Item.t) (rest : list (nat * Item.t))
    (m : Mem) (p : nat * Item.t) :
  coherent ((r, item) :: rest) m -> In p rest ->
  fst p <> r /\ Item.id (snd p) <> Item.id item.
Proof.
  intros (Hrefs & Hids & Hincl & Hdue) Hp.
  inversion Hdue as [|? ? Hhead _]; subst.
  assert (Hp' : In p (m_pending m)) by (apply Hincl; now right).
  assert (Hh : In (r, item) (m_pending m)) by (apply Hincl; now left).
  rewrite ids_deref in Hids.
  split; intro Heq; apply Hhead.
  - now rewrite <- (NoDup_map_inj fst _ p (r, item) Hrefs Hp' Hh Heq).
  - now rewrite <- (NoDup_map_inj (fun q => Item.id (snd q)) _ p (r, item)
                      Hids Hp' Hh Heq).
Qed.

Lemma coherent_posted (now : Z) (result : PostResult) (r : nat)
    (item : Item.t) (rest : list (nat * Item.t)) (m : Mem) :
  coherent ((r, item) :: rest) m -> coherent rest (onPosted now result item m).
Proof.
  intros H. pose proof H as (Hrefs & Hids & Hincl & Hdue).
  unfold coherent, onPosted; simpl. repeat split.
  - now apply NoDup_map_filter.
  - rewrite ids_deref in *. now apply NoDup_map_filter.
  - intros p Hp. apply filter_In. split.
    + apply Hincl. now right.
    + destruct (coherent_distinct p H Hp) as [_ Hne].
      apply negb_true_iff. now apply String.eqb_neq.
  - now inversion Hdue.
Qed.

Lemma coherent_failed (msg : string) (r : nat) (item : Item.t)
    (rest : list (nat * Item.t)) (m : Mem) :
  coherent ((r, item) :: rest) m -> coherent rest (onFailed msg r m).
Proof.
  intros H. pose proof H as (Hrefs & Hids & Hincl & Hdue).
  unfold coherent, onFailed; simpl. repeat split.
  - now rewrite updateRef_refs.
  - now rewrite (updateRef_proj Item.id) by reflexivity.
  - intros p Hp. apply updateRef_other.
    + now destruct (coherent_distinct p H Hp).
    + apply Hincl. now right.
  - now inversion Hdue.
Qed.

Lemma coherent_start (now : Z) (q : Queue.t) :
  NoDup (map Item.id (Queue.pending q)) ->
  coherent (duePosts now (fromQueue q)) (fromQueue q).
Proof.
  intros H. unfold coherent, duePosts, fromQueue; simpl. repeat split.
  - apply refs_alloc_NoDup.
  - unfold alloc. now rewrite deref_allocFrom.
  - intros p Hp. now apply filter_In in Hp.
  - apply NoDup_filter. apply (NoDup_map_inv fst). apply refs_alloc_NoDup.
Qed.

Lemma deref_duePosts (now : Z) (q : Queue.t) :
  deref (duePosts now (fromQueue q)) = filter (isDue now) (Queue.pending q).
Proof. unfold duePosts, fromQueue, alloc. simpl. apply filter_deref_alloc. Qed.

Lemma isDue_later (now later : Z) (msg : string) (item : Item.t) :
  isDue now item = true -> now <= later ->
  isDue later (Item.markFailed msg item) = true.
Proof.
  unfold isDue. simpl. intros H Hle.
  apply orb_true_iff in H as [H|H]; [now rewrite H|].
  destruct (Item.scheduledFor item) as [s|]; [|discriminate].
  apply Z.leb_le in H. apply orb_true_iff. right. apply Z.leb_le. lia.
Qed.

(** ** The partition of the queue *)

Lemma NoDup_app_inv {A} (l1 l2 : list A) :
  NoDup (l1 ++ l2) ->
  NoDup l1 /\ NoDup l2 /\ forall a, In a l1 -> ~ In a l2.
Proof.
  intros H. split; [|split].
  - now apply NoDup_app_remove_r in H.
  - now apply NoDup_app_remove_l in H.
  - induction l1 as [|x l1 IH]; simpl in *; [tauto|].
    inversion H as [|? ? Hx Hl]; subst.
    intros a [<-|Ha]; [|now apply IH].
    intro Hin. apply Hx. apply in_or_app. now right.
Qed.

(** Moving an id from pending to the end of posted keeps ids distinct. *)
Lemma NoDup_move (x : string) (P Q : list string) :
  NoDup (P ++ Q) -> In x P ->
  NoDup (filter (fun i => negb (String.eqb i x)) P ++ Q ++ [x]).
Proof.
  intros H Hx. destruct (NoDup_app_inv _ _ H) as (HP & HQ & Hdis).
  apply NoDup_app.
  - now apply NoDup_filter.
  - apply NoDup_app; [assumption | repeat constructor; intros [] |].
    intros a Ha [Hax|[]]. subst a. exact (Hdis x Hx Ha).
  - intros a Ha Hin. apply filter_In in Ha as [Ha Hne].
    apply negb_true_iff, String.eqb_neq in Hne.
    apply in_app_or in Hin as [Hin|[Hax|[]]].
    + exact (Hdis a Ha Hin).
    + congruence.
Qed.

Lemma partitioned_posted (now : Z) (result : PostResult) (r : nat)
    (item : Item.t) (m : Mem) :
  In (r, item) (m_pending m) ->
  partitioned (toQueue m) ->
  partitioned (toQueue (onPosted now result item m)).
Proof.
  intros Hin [Hids Hst]. unfold partitioned, queueIds, toQueue, onPosted in *.
  simpl in *. split.
  - rewrite deref_filter_ids, map_app. simpl.
    apply NoDup_move; [assumption|].
    apply in_map_iff. exists item. split; [reflexivity|].
    unfold deref. apply in_map_iff. now exists (r, item).
  - rewrite Forall_forall in *. intros i Hi. apply Hst.
    unfold deref in *. apply in_map_iff in Hi as [p [<- Hp]].
    apply filter_In in Hp as [Hp _]. now apply in_map.
Qed.

Lemma partitioned_failed (msg : string) (r : nat) (m : Mem) :
  partitioned (toQueue m) -> partitioned (toQueue (onFailed msg r m)).
Proof.
  intros [Hids Hst]. unfold partitioned, queueIds, toQueue, onFailed in *.
  simpl in *. split.
  - now rewrite (updateRef_proj Item.id) by reflexivity.
  - rewrite Forall_forall in *. intros i Hi.
    unfold deref, updateRef in Hi. rewrite map_map in Hi.
    apply in_map_iff in Hi as [[r' x] [<- Hp]]. simpl.
    destruct (Nat.eqb r' r); simpl; [discriminate|].
    apply Hst. unfold deref. apply in_map_iff. now exists (r', x).
Qed.

Lemma toQueue_fromQueue (q : Queue.t) : toQueue (fromQueue q) = q.
Proof.
  unfold toQueue, fromQueue, alloc. simpl. rewrite deref_allocFrom.
  now destruct q.
Qed.

Lemma clearSchedule_ids (a b : list Item.t) :
  map clearSchedule a = map clearSchedule b -> map Item.id a = map Item.id b.
Proof.
  intros H. apply (f_equal (map Item.id)) in H.
  rewrite !map_map in H. exact H.
Qed.

Lemma clearSchedule_status (a b : list Item.t) :
  map clearSchedule a = map clearSchedule b ->
  Forall (fun i => Item.status i <> posted_st) b ->
  Forall (fun i => Item.status i <> posted_st) a.
Proof.
  intros H Hb.
  apply (Forall_map clearSchedule (fun i => Item.status i <> posted_st)) in Hb.
  rewrite <- H in Hb.
  now apply (Forall_map clearSchedule (fun i => Item.status i <> posted_st)).
Qed.

(** ** The history of posted hashes *)

Lemma recordHash_bound (h : string) (hs : option (list string)) :
  (List.length (hashesOf hs) <= 1000)%nat ->
  (List.length (hashesOf (recordHash h hs)) <= 1000)%nat.
Proof.
  intros H. unfold recordHash.
  destruct (negb (String.eqb h "") && negb (JS.arrayIncludes (hashesOf hs) h));
    [|assumption].
  destruct (Nat.ltb_spec 1000 (List.length (hashesOf hs ++ [h]))) as [Hlt|Hge];
    simpl; [|assumption].
  rewrite length_app in Hlt. simpl in Hlt.
  destruct (hashesOf hs); simpl in *; [lia|].
  rewrite length_app. simpl. lia.
Qed.

Lemma hashesAfter_bound (log : PassLog) (hs : option (list string)) :
  (List.length (hashesOf hs) <= 1000)%nat ->
  (List.length (hashesOf (hashesAfter log hs)) <= 1000)%nat.
Proof.
  revert hs. unfold hashesAfter.
  induction log as [|[item res] log IH]; intros hs H; simpl; [assumption|].
  apply IH. destruct res; [now apply recordHash_bound | assumption].
Qed.

Lemma In_skipn {A} (n : nat) (l : list A) (x : A) : In x (skipn n l) -> In x l.
Proof.
  intros H. rewrite <- (firstn_skipn n l). apply in_or_app. now right.
Qed.

Lemma tl_skipn {A} (n : nat) (l : list A) : tl (skipn n l) = skipn (S n) l.
Proof.
  revert l. induction n as [|n IH]; intros [|x l]; simpl; auto.
Qed.

(** Recording a new hash keeps the last 1000 of all hashes seen. *)
Lemma recordHash_lastN (h : string) (l : list string) :
  h <> "" -> ~ In h l ->
  recordHash h (Some (lastN 1000 l)) = Some (lastN 1000 (l ++ [h])).
Proof.
  intros Hne Hnin. unfold recordHash. simpl hashesOf.
  apply String.eqb_neq in Hne. rewrite Hne. simpl negb.
  assert (Hnot : JS.arrayIncludes (lastN 1000 l) h = false).
  { apply arrayIncludes_not_In. intro Hin. apply Hnin.
    unfold lastN in Hin. now apply In_skipn in Hin. }
  rewrite Hnot. simpl. unfold lastN, JS.shift.
  rewrite !length_app, length_skipn. simpl List.length.
  destruct (Nat.ltb_spec 1000 (List.length l - (List.length l - 1000) + 1))
    as [Hlt|Hge].
  - assert (Hlen : (1000 <= List.length l)%nat) by lia.
    replace (List.length l + 1 - 1000)%nat with (S (List.length l - 1000)) by lia.
    rewrite <- tl_skipn. rewrite skipn_app.
    replace (List.length l - 1000 - List.length l)%nat with 0%nat by lia.
    reflexivity.
  - assert (Hlen : (List.length l < 1000)%nat) by lia.
    replace (List.length l - 1000)%nat with 0%nat by lia.
    replace (List.length l + 1 - 1000)%nat with 0%nat by lia.
    reflexivity.
Qed.

Lemma hashesAfter_all_posted (log : PassLog) (l : list string) :
  forallb (fun e => isReturns (snd e)) log = true ->
  forallb (fun h => negb (String.eqb h ""))
          (map (fun e => Item.contentHash (fst e)) log) = true ->
  NoDup (l ++ map (fun e => Item.contentHash (fst e)) log) ->
  hashesAfter log (Some (lastN 1000 l))
  = Some (lastN 1000 (l ++ map (fun e => Item.contentHash (fst e)) log)).
Proof.
  revert l. unfold hashesAfter.
  induction log as [|[item res] log IH]; intros l Hret Hne Hnd; simpl in *.
  - now rewrite app_nil_r.
  - apply andb_prop in Hret as [Hres Hret].
    apply andb_prop in Hne as [Hh Hne].
    destruct res as [result|msg]; [|discriminate].
    apply negb_true_iff, String.eqb_neq in Hh.
    rewrite recordHash_lastN.
    + rewrite IH; try assumption.
      * now rewrite <- app_assoc.
      * now rewrite <- app_assoc.
    + assumption.
    + apply NoDup_remove_2 in Hnd. intro Hin. apply Hnd.
      apply in_or_app. now left.
Qed.

Lemma lastN_short {A} (n : nat) (l : list A) :
  (List.length l <= n)%nat -> lastN n l = l.
Proof.
  intros H. unfold lastN.
  replace (List.length l - n)%nat with 0%nat by lia. reflexivity.
Qed.

(** A missing [postedHashes] behaves as the empty list. *)
Lemma hashesAfter_missing (log : PassLog) :
  hashesOf (hashesAfter log None) = hashesOf (hashesAfter log (Some [])).
Proof.
  unfold hashesAfter.
  induction log as [|[item res] log IH]; simpl; [reflexivity|].
  destruct res; [reflexivity | assumption].
Qed.

Lemma prefix_dryRunId (a : Attempt) : String.prefix "dry-run-" (dryRunId a) = true.
Proof. apply prefix_app. Qed.

(** ** Files *)

Lemma existsSync_writeFileSync (p : string) (w : World) :
  existsSync p (writeFileSync p w) = true.
Proof.
  unfold existsSync at 1, writeFileSync. simpl.
  destruct (existsSync p w) eqn:E; [exact E|].
  rewrite existsb_app. simpl. rewrite String.eqb_refl.
  now rewrite orb_true_r.
Qed.

Lemma existsSync_unlinkSync (p : string) (w : World) :
  existsSync p (unlinkSync p w) = false.
Proof.
  unfold existsSync, unlinkSync. simpl.
  induction (files w) as [|q l IH]; simpl; [reflexivity|].
  destruct (String.eqb p q) eqn:E; simpl; [assumption|].
  now rewrite E.
Qed.

(** ** The scheduler: slots and runs *)

Section Scheduler.

Variable localOffset : Z -> bool -> Z.
Variable zoneOffset : string -> Z -> option Z.

Lemma scheduleLoop_clearSchedule (config : Config.t) (clock : nat -> Z)
    (toSchedule pending pending' : list (nat * Item.t)) (k : nat) :
  scheduleLoop localOffset zoneOffset config clock k toSchedule pending
    = Returns pending' ->
  map clearSchedule (deref pending') = map clearSchedule (deref pending).
Proof.
  revert k pending.
  induction toSchedule as [|[r it] rest IH]; intros k pending H; simpl in H.
  - now inversion H.
  - destruct (getNextScheduleTime localOffset zoneOffset config (clock k));
      [|discriminate].
    apply IH in H. rewrite H.
    apply updateRef_proj. intros x. apply clearSchedule_setScheduledFor.
Qed.

(** A run of the scheduler either leaves the world alone or saves the
    loaded queue with nothing but slots changed. *)
Lemma schedulePosts_cases (config : Config.t) (clock : nat -> Z) (w : World) :
  let q := loadQueue w in
  let w' := snd (schedulePosts localOffset zoneOffset config clock w) in
  w' = w \/
  exists pending',
    w' = saveQueue (Queue.mk pending' (Queue.posted q) (Queue.lastPostTime q)
                             (Queue.postedHashes q)) w /\
    map clearSchedule pending' = map clearSchedule (Queue.pending q).
Proof.
  intros q w'. subst w'. unfold schedulePosts.
  destruct (Nat.eqb _ 0); [now left|].
  destruct (scheduleLoop _ _ _ _ _ _ _) as [pending'|msg] eqn:E; [|now left].
  right. exists (deref pending'). split; [reflexivity|].
  apply scheduleLoop_clearSchedule in E. rewrite E.
  simpl. unfold alloc. now rewrite deref_allocFrom.
Qed.

Lemma scheduleLoop_same_slot (config : Config.t) (clock : nat -> Z)
    (now slot : Z) (toSchedule pending : list (nat * Item.t)) (k : nat) :
  (forall j, clock j = now) ->
  getNextScheduleTime localOffset zoneOffset config now = Returns slot ->
  scheduleLoop localOffset zoneOffset config clock k toSchedule pending
  = Returns (fold_left (assignRef slot) toSchedule pending).
Proof.
  intros Hclock Hslot. revert k pending.
  induction toSchedule as [|[r it] rest IH]; intros k pending; simpl.
  - reflexivity.
  - rewrite Hclock, Hslot. apply IH.
Qed.

(** C9. One run of [schedulePosts] whose clock readings all fall on the
    same instant gives the slot computed for that instant to the first
    [posts_per_day] (2 when not configured) pending items that have no slot,
    in arrival order, and leaves every other item, the posted items and the
    hashes as they were. *)
Theorem schedulePosts_first_n_same_slot (config : Config.t)
    (clock : nat -> Z) (now slot : Z) (w : World) :
  (forall k, clock k = now) ->
  getNextScheduleTime localOffset zoneOffset config now = Returns slot ->
  match Config.posts_per_day config with
  | Some n => 0 < n
  | None => True
  end ->
  let n := match Config.posts_per_day config with
           | Some n => Z.to_nat n
           | None => 2%nat
           end in
  let q := loadQueue w in
  let q' := loadQueue (snd (schedulePosts localOffset zoneOffset config clock w)) in
  fst (schedulePosts localOffset zoneOffset config clock w) = Returns tt /\
  q' = Queue.mk (assignFirst n slot (Queue.pending q)) (Queue.posted q)
                (Queue.lastPostTime q) (Queue.postedHashes q) /\
  (forall i it, nth_error (Queue.pending q) i = Some it ->
     nth_error (Queue.pending q') i
     = Some (if unscheduled it
                && (List.length (filter unscheduled
                                   (firstn i (Queue.pending q))) <? n)%nat
             then Item.setScheduledFor slot it else it)).
Proof.
  intros Hclock Hslot Hn n q q'.
  assert (Hmain :
    fst (schedulePosts localOffset zoneOffset config clock w) = Returns tt /\
    q' = Queue.mk (assignFirst n slot (Queue.pending q)) (Queue.posted q)
                  (Queue.lastPostTime q) (Queue.postedHashes q)).
  { subst q'. unfold schedulePosts. fold q.
    destruct (Nat.eqb_spec
                (List.length (filter (fun p => unscheduled (snd p))
                                (m_pending (fromQueue q)))) 0) as [He|Hne].
    - simpl. split; [reflexivity|]. fold q.
      apply length_zero_iff_nil in He.
      apply (f_equal (@deref Item.t)) in He. simpl in He.
      unfold alloc in He. rewrite filter_deref_alloc in He.
      rewrite (assignFirst_none_unscheduled n slot _ He).
      now destruct q.
    - rewrite (scheduleLoop_same_slot config clock (now := now) (slot := slot))
        by assumption.
      simpl. split; [reflexivity|]. unfold toQueue. simpl.
      assert (Hslice : forall A (l : list A),
                 JS.slice0 (postsPerDay config) l = firstn n l).
      { intros A l. unfold JS.slice0, postsPerDay. subst n.
        destruct (Config.posts_per_day config) as [z|]; simpl.
        - destruct (Z.eqb_spec z 0); [lia|].
          destruct (Z.ltb_spec z 0); [lia|reflexivity].
        - reflexivity. }
      rewrite Hslice. unfold alloc. rewrite schedule_refines. reflexivity. }
  destruct Hmain as [H1 H2]. repeat split; try assumption.
  intros i it Hi. rewrite H2. simpl. now apply assignFirst_nth.
Qed.

(** The loop stops at the first slot, in list order, that lies after the
    current minute of the day. *)
Lemma firstLater_found (currentTime : Z) (times : list string) (hour minute : Z) :
  forallb validSlot times = true ->
  firstLater currentTime times = Some (hour, minute) ->
  exists before slot after,
    times = before ++ slot :: after /\
    Forall (fun s => slotMinutes s <= currentTime) before /\
    slotOf slot = (Some hour, Some minute) /\
    currentTime < slotMinutes slot.
Proof.
  induction times as [|t times IH]; simpl; intros Hv H; [discriminate|].
  apply andb_prop in Hv as [Ht Hv].
  unfold validSlot in Ht.
  destruct (slotOf t) as [[h|] [m|]] eqn:Hs; try discriminate.
  destruct (Z.gtb_spec (h * 60 + m) currentTime) as [Hgt|Hle].
  - inversion H; subst. exists [], t, times. repeat split; auto.
    unfold slotMinutes. rewrite Hs. lia.
  - destruct (IH Hv H) as (before & slot & after & -> & Hb & Hslot & Hlt).
    exists (t :: before), slot, after. repeat split; auto.
    constructor; [|assumption]. unfold slotMinutes. rewrite Hs. lia.
Qed.

Lemma firstLater_none (currentTime : Z) (times : list string) :
  forallb validSlot times = true ->
  firstLater currentTime times = None ->
  Forall (fun s => slotMinutes s <= currentTime) times.
Proof.
  induction times as [|t times IH]; simpl; intros Hv H; [constructor|].
  apply andb_prop in Hv as [Ht Hv].
  unfold validSlot in Ht.
  destruct (slotOf t) as [[h|] [m|]] eqn:Hs; try discriminate.
  destruct (Z.gtb_spec (h * 60 + m) currentTime) as [Hgt|Hle]; [discriminate|].
  constructor; [|auto]. unfold slotMinutes. rewrite Hs. lia.
Qed.

Lemma firstLater_morning_evening (currentTime : Z) :
  firstLater currentTime ["09:00"; "18:00"]
  = if 540 >? currentTime then Some (9, 0)
    else if 1080 >? currentTime then Some (18, 0) else None.
Proof. reflexivity. Qed.

Lemma schedulePosts_partitioned (config : Config.t) (clock : nat -> Z)
    (w : World) :
  partitioned (loadQueue w) ->
  partitioned
    (loadQueue (snd (schedulePosts localOffset zoneOffset config clock w))).
Proof.
  intros [Hids Hst].
  destruct (schedulePosts_cases config clock w) as [H | [pending' [H Hp]]];
    rewrite H; [now split|].
  unfold partitioned, queueIds in *. simpl. split.
  - now rewrite (@clearSchedule_ids _ _ Hp).
  - now apply (@clearSchedule_status _ _ Hp).
Qed.

End Scheduler.

(** ** Slots when the zone of the process never changes its offset *)

Lemma second_day (x : Z) : dayOf (x / 1000 * 1000) = dayOf x.
Proof.
  unfold dayOf, msPerDay.
  change 86400000 with (86400 * 1000). rewrite trunc_div by lia.
  reflexivity.
Qed.

Lemma second_minute (x : Z) :
  ((x / 1000 * 1000) / msPerHour) mod 24 * 60
  + ((x / 1000 * 1000) / msPerMinute) mod 60
  = minuteOfDay x.
Proof.
  unfold minuteOfDay, msPerHour, msPerMinute.
  change 3600000 with (3600 * 1000). change 60000 with (60 * 1000) at 1.
  rewrite !trunc_div by lia.
  change (1000 * 3600) with (60000 * 60). change (1000 * 60) with 60000.
  rewrite <- Z.div_div by lia.
  change 1440 with (60 * 24).
  rewrite (Z.rem_mul_r (x / 60000) 60 24) by lia. lia.
Qed.

Section FixedZone.

Variable localOffset : Z -> bool -> Z.
Variable zoneOffset : string -> Z -> option Z.

(** The process runs in a zone without daylight saving time. *)
Variable offset : Z.
Hypothesis fixed : forall t isUTC, localOffset t isUTC = offset.

Lemma localTime_fixed (d : Z) : localTime localOffset d = d + offset.
Proof. unfold localTime. now rewrite fixed. Qed.

Lemma UTC_fixed (t : Z) : UTC localOffset t = t - offset.
Proof. unfold UTC. now rewrite fixed. Qed.

Lemma tzDate_known (timezone : string) (now zone : Z) :
  zoneOffset timezone now = Some zone ->
  tzDate localOffset zoneOffset timezone now
  = Returns ((now + zone) / 1000 * 1000 - offset).
Proof.
  intros Hz. unfold tzDate. rewrite Hz, UTC_fixed. reflexivity.
Qed.

Lemma localTime_setHours (d h m : Z) :
  localTime localOffset (setHours localOffset d h m 0 0)
  = atDay (localTime localOffset d / msPerDay) h m.
Proof.
  unfold setHours. rewrite localTime_fixed, UTC_fixed.
  unfold atDay. ring.
Qed.

Lemma setDateNext_day (d : Z) :
  localTime localOffset (setDateNext localOffset d) / msPerDay
  = localTime localOffset d / msPerDay + 1.
Proof.
  unfold setDateNext. rewrite localTime_fixed, UTC_fixed.
  replace (localTime localOffset d + msPerDay - offset + offset)
    with (localTime localOffset d + 1 * msPerDay) by ring.
  unfold msPerDay. rewrite Z.div_add by lia. reflexivity.
Qed.

(** [getNextScheduleTime] in terms of the wall clock of the configured
    zone, when that zone is known. *)
Lemma getNextScheduleTime_wall (config : Config.t) (now zone : Z) :
  zoneOffset (zoneName config) now = Some zone ->
  let wall := now + zone in
  getNextScheduleTime localOffset zoneOffset config now
  = match firstLater (minuteOfDay wall) (Config.post_times config) with
    | Some (hour, minute) =>
        Returns (atDay (dayOf wall) hour minute - offset)
    | None =>
        match Config.post_times config with
        | [] => Throws "TypeError: Cannot read properties of undefined"
        | first :: _ =>
            match slotOf first with
            | (Some hour, Some minute) =>
                Returns (atDay (dayOf wall + 1) hour minute - offset)
            | _ => Throws "RangeError: Invalid time value"
            end
        end
    end.
Proof.
  intros Hz wall. unfold getNextScheduleTime. fold (zoneName config).
  rewrite (tzDate_known Hz). fold wall.
  set (tzNow := wall / 1000 * 1000 - offset).
  assert (Hlocal : localTime localOffset tzNow = wall / 1000 * 1000).
  { rewrite localTime_fixed. unfold tzNow. ring. }
  assert (Hcur : getHours localOffset tzNow * 60 + getMinutes localOffset tzNow
                 = minuteOfDay wall).
  { unfold getHours, getMinutes. rewrite Hlocal. apply second_minute. }
  assert (Hday : localTime localOffset tzNow / msPerDay = dayOf wall).
  { rewrite Hlocal. apply second_day. }
  assert (Hset : forall d h m,
             setHours localOffset d h m 0 0
             = atDay (localTime localOffset d / msPerDay) h m - offset).
  { intros. rewrite <- localTime_setHours, localTime_fixed. ring. }
  rewrite Hcur.
  destruct (firstLater _ _) as [[hour minute]|].
  - rewrite Hset, Hday. reflexivity.
  - destruct (Config.post_times config) as [|first rest]; [reflexivity|].
    destruct (slotOf first) as [[h|] [m|]]; try reflexivity.
    rewrite Hset, setDateNext_day, Hday. reflexivity.
Qed.

(** With a non-empty list of "HH:MM" slots and a known zone,
    [getNextScheduleTime] returns a date whose reading in the zone of the
    process is: the calendar day of the configured zone, at the first slot of
    the list that is strictly later than the current minute of the day in
    the configured zone; or, when no slot is later, the day after at the
    first slot of the list.  It is the reading in the configured zone when
    the configured zone has the offset of the process at the returned
    instant. *)
Lemma getNextScheduleTime_first_later_slot (config : Config.t) (now zone : Z) :
  zoneOffset (zoneName config) now = Some zone ->
  Config.post_times config <> [] ->
  forallb validSlot (Config.post_times config) = true ->
  let times := Config.post_times config in
  let wall := now + zone in
  let today := dayOf wall in
  let currentTime := minuteOfDay wall in
  exists r,
    getNextScheduleTime localOffset zoneOffset config now = Returns r /\
    ((exists before slot after hour minute,
         times = before ++ slot :: after /\
         Forall (fun s => slotMinutes s <= currentTime) before /\
         slotOf slot = (Some hour, Some minute) /\
         currentTime < slotMinutes slot /\
         localTime localOffset r = atDay today hour minute)
     \/
     (Forall (fun s => slotMinutes s <= currentTime) times /\
      exists first rest hour minute,
        times = first :: rest /\
        slotOf first = (Some hour, Some minute) /\
        localTime localOffset r = atDay (today + 1) hour minute)) /\
    (times = ["09:00"; "18:00"] ->
     (currentTime < 9 * 60 -> localTime localOffset r = atDay today 9 0) /\
     (9 * 60 <= currentTime < 18 * 60 ->
      localTime localOffset r = atDay today 18 0) /\
     (18 * 60 <= currentTime ->
      localTime localOffset r = atDay (today + 1) 9 0)) /\
    (forall zone', zoneOffset (zoneName config) r = Some zone' ->
       wallClock zoneOffset (zoneName config) r
       = Some (localTime localOffset r + (zone' - offset))).
Proof.
  intros Hz Hne Hv times wall today currentTime. subst times.
  pose proof (@getNextScheduleTime_wall config now zone Hz) as E. cbv zeta in E.
  fold wall today currentTime in E.
  assert (Hzone : forall r zone',
             zoneOffset (zoneName config) r = Some zone' ->
             wallClock zoneOffset (zoneName config) r
             = Some (localTime localOffset r + (zone' - offset))).
  { intros r zone' Hr. unfold wallClock. rewrite Hr, localTime_fixed.
    f_equal. ring. }
  destruct (firstLater currentTime (Config.post_times config))
    as [[hour minute]|] eqn:Hf.
  - exists (atDay today hour minute - offset).
    split; [assumption|]. split; [|split; [|apply Hzone]].
    + left.
      destruct (firstLater_found currentTime _ Hv Hf)
        as (before & slot & after & Ht & Hb & Hs & Hlt).
      exists before, slot, after, hour, minute. repeat split; auto.
      rewrite localTime_fixed. lia.
    + intros Ht. rewrite Ht, firstLater_morning_evening in Hf.
      rewrite localTime_fixed.
      destruct (Z.gtb_spec 540 currentTime);
        [|destruct (Z.gtb_spec 1080 currentTime)];
        inversion Hf; subst hour minute; repeat split; intros; lia.
  - destruct (Config.post_times config) as [|first rest] eqn:Ht;
      [contradiction|].
    pose proof Hv as Hv'. simpl in Hv'. apply andb_prop in Hv' as [Hfirst _].
    unfold validSlot in Hfirst.
    destruct (slotOf first) as [[h|] [m|]] eqn:Hs; try discriminate.
    exists (atDay (today + 1) h m - offset).
    split; [assumption|]. split; [|split; [|apply Hzone]].
    + right. split; [now apply firstLater_none|].
      exists first, rest, h, m. repeat split; auto.
      rewrite localTime_fixed. lia.
    + intros Ht'. inversion Ht'; subst first rest.
      rewrite firstLater_morning_evening in Hf.
      vm_compute in Hs. inversion Hs; subst h m. rewrite localTime_fixed.
      destruct (Z.gtb_spec 540 currentTime);
        [|destruct (Z.gtb_spec 1080 currentTime)];
        try discriminate; repeat split; intros; lia.
Qed.

End FixedZone.


(** ** Delivery and the processing pass *)

Section Delivery.

Variable dirname : string.

Lemma runs_cleanupTempFile (p : string) (w : World) :
  exists evs, runs w (cleanupTempFile dirname p w) evs /\
              rl_lastPostTime (cleanupTempFile dirname p w) = rl_lastPostTime w /\
              filter isEvNet evs = [].
Proof.
  unfold cleanupTempFile.
  destruct (_ && _ && _).
  - exists [EvUnlink p]. repeat split.
  - exists []. split; [apply runs_refl | split; reflexivity].
Qed.

(** The download starts with a request and leaves the rate limiter alone. *)
Lemma downloadTelegramFile_runs (a : Attempt) (w : World) :
  exists evs,
    runs w (snd (downloadTelegramFile dirname a w)) (EvNet TgGetFile :: evs) /\
    rl_lastPostTime (snd (downloadTelegramFile dirname a w)) = rl_lastPostTime w.
Proof.
  unfold downloadTelegramFile.
  destruct (tg_info a); [destruct (tg_file a)| |]; simpl;
    eexists; (split; [repeat split; simpl; try reflexivity|reflexivity]);
    try (rewrite <- !app_assoc; simpl; reflexivity); reflexivity.
Qed.

Lemma deliver_runs (item : Item.t) (config : Config.t) (a : Attempt) (w : World) :
  exists e evs,
    runs w (snd (deliver dirname item config a w)) (EvNet e :: evs) /\
    match fst (fst (deliver dirname item config a w)) with
    | Returns r =>
        r_dryRun r = false /\
        rl_lastPostTime (snd (deliver dirname item config a w)) = clock_done a
    | Throws _ =>
        rl_lastPostTime (snd (deliver dirname item config a w)) = rl_lastPostTime w
    end.
Proof.
  unfold deliver.
  destruct (JS.truthy (Item.telegramFileId item) && JS.truthy (Config.bot_token config)).
  - destruct (downloadTelegramFile_runs a w) as (evs1 & Hr1 & Hl1).
    destruct (downloadTelegramFile dirname a w) as [[localPath|msg] w1];
      simpl in *.
    + destruct (publish_runs item (Some localPath) a w1)
        as (e & evs2 & Hr2 & _ & Hres).
      destruct (publish item (Some localPath) a w1) as [res w2]; simpl in *.
      exists TgGetFile, (evs1 ++ EvNet e :: evs2). split.
      * apply (runs_trans Hr1 Hr2).
      * destruct res; [assumption | congruence].
    + exists TgGetFile, evs1. split; assumption.
  - destruct (publish_runs item (Item.mediaUrl item) a w)
      as (e & evs & Hr & _ & Hres).
    destruct (publish item (Item.mediaUrl item) a w) as [res w1]; simpl in *.
    exists e, evs. split; assumption.
Qed.

(** One attempt, outcome by outcome. *)
Lemma postToFacebook_dry_run (item : Item.t) (config : Config.t) (a : Attempt)
    (w : World) :
  Config.dry_run config = true ->
  postToFacebook dirname item config a w
  = (Returns (mkPostResult
                (Some ("dry-run-" ++ JS.toString (clock_dry a))%string) true), w).
Proof. intros H. unfold postToFacebook. now rewrite H. Qed.

Lemma postToFacebook_config_error (item : Item.t) (config : Config.t)
    (a : Attempt) (w : World) :
  Config.dry_run config = false ->
  valid (validateConfig config) = false ->
  postToFacebook dirname item config a w
  = (Throws ("Config error: "
             ++ JS.join ", " (errors (validateConfig config)))%string, w).
Proof. intros Hd Hv. unfold postToFacebook. now rewrite Hd, Hv. Qed.

Lemma postToFacebook_rate_limited (item : Item.t) (config : Config.t)
    (a : Attempt) (w : World) (waitTime : Z) (message : string) :
  Config.dry_run config = false ->
  valid (validateConfig config) = true ->
  checkRateLimit (clock_gate a) w = Denied waitTime message ->
  postToFacebook dirname item config a w = (Throws message, w).
Proof. intros Hd Hv Hr. unfold postToFacebook. now rewrite Hd, Hv, Hr. Qed.

Lemma postToFacebook_past_gate (item : Item.t) (config : Config.t)
    (a : Attempt) (w : World) :
  Config.dry_run config = false ->
  valid (validateConfig config) = true ->
  checkRateLimit (clock_gate a) w = Allowed ->
  postToFacebook dirname item config a w
  = (fst (fst (deliver dirname item config a w)),
     match snd (fst (deliver dirname item config a w)) with
     | Some p => cleanupTempFile dirname p (snd (deliver dirname item config a w))
     | None => snd (deliver dirname item config a w)
     end).
Proof.
  intros Hd Hv Hr. unfold postToFacebook. rewrite Hd, Hv, Hr. simpl.
  now destruct (deliver dirname item config a w) as [[res tmp] w1].
Qed.

(** Whatever happens, an attempt writes no queue; it moves the rate limiter
    exactly when it returns from a real delivery. *)
Lemma postToFacebook_runs (item : Item.t) (config : Config.t) (a : Attempt)
    (w : World) :
  exists evs,
    runs w (snd (postToFacebook dirname item config a w)) evs /\
    match fst (postToFacebook dirname item config a w) with
    | Returns r =>
        if r_dryRun r
        then snd (postToFacebook dirname item config a w) = w
        else rl_lastPostTime (snd (postToFacebook dirname item config a w))
             = clock_done a
    | Throws _ =>
        rl_lastPostTime (snd (postToFacebook dirname item config a w))
        = rl_lastPostTime w
    end.
Proof.
  destruct (Config.dry_run config) eqn:Hd.
  { rewrite postToFacebook_dry_run by assumption. simpl.
    exists []. split; [apply runs_refl | reflexivity]. }
  destruct (valid (validateConfig config)) eqn:Hv.
  2:{ rewrite postToFacebook_config_error by assumption. simpl.
      exists []. split; [apply runs_refl | reflexivity]. }
  destruct (checkRateLimit_cases (clock_gate a) w)
    as [[_ (wt & msg & Hr)] | [_ Hr]].
  { rewrite (postToFacebook_rate_limited item config a w Hd Hv Hr). simpl.
    exists []. split; [apply runs_refl | reflexivity]. }
  rewrite postToFacebook_past_gate by assumption. simpl.
  destruct (deliver_runs item config a w) as (e & evs & Hr1 & Hres).
  destruct (deliver dirname item config a w) as [[res tmp] w1]; simpl in *.
  destruct tmp as [p|].
  - destruct (runs_cleanupTempFile p w1) as (evs2 & Hr2 & Hl2 & _).
    eexists. split; [apply (runs_trans Hr1 Hr2)|].
    rewrite Hl2. destruct res as [r|msg]; [|assumption].
    destruct Hres as [-> Hl]. assumption.
  - eexists. split; [eassumption|].
    destruct res as [r|msg]; [|assumption].
    destruct Hres as [-> Hl]. assumption.
Qed.

(** C4. After a delivery that succeeded, a second attempt (not a dry run,
    with a valid configuration, so that it reaches the gate) whose clock
    reads less than 60 seconds after that delivery is turned away with the
    rate-limit message and leaves the world untouched: no request is made.
    One whose clock reads 60 seconds or more later passes the gate and
    makes a request.  The rate limiter moves only when an attempt returns
    from a real delivery; an attempt that throws (configuration error, rate
    limit, publish error) and a dry run leave it where it was. *)
Theorem rate_limit_gate (item1 item2 : Item.t) (config1 config2 : Config.t)
    (a1 a2 : Attempt) (w w1 : World) (r1 : PostResult) :
  postToFacebook dirname item1 config1 a1 w = (Returns r1, w1) ->
  r_dryRun r1 = false ->
  Config.dry_run config2 = false ->
  valid (validateConfig config2) = true ->
  rl_lastPostTime w1 = clock_done a1 /\
  (clock_gate a2 - clock_done a1 < 60000 ->
   exists waitTime,
     postToFacebook dirname item2 config2 a2 w1
     = (Throws ("Rate limit exceeded. Please wait " ++ JS.toString waitTime
                ++ " seconds before next post.")%string, w1)) /\
  (60000 <= clock_gate a2 - clock_done a1 ->
   checkRateLimit (clock_gate a2) w1 = Allowed /\
   exists e evs,
     trace (snd (postToFacebook dirname item2 config2 a2 w1))
     = trace w1 ++ EvNet e :: evs) /\
  (forall item config a w0,
     match fst (postToFacebook dirname item config a w0) with
     | Returns r =>
         r_dryRun r = true ->
         rl_lastPostTime (snd (postToFacebook dirname item config a w0))
         = rl_lastPostTime w0
     | Throws _ =>
         rl_lastPostTime (snd (postToFacebook dirname item config a w0))
         = rl_lastPostTime w0
     end).
Proof.
  intros E1 Hreal Hd2 Hv2.
  assert (Hclock : rl_lastPostTime w1 = clock_done a1).
  { destruct (postToFacebook_runs item1 config1 a1 w) as (evs & _ & H).
    rewrite E1 in H. simpl in H. now rewrite Hreal in H. }
  split; [assumption|]. split; [|split].
  - intros Hlt. unfold postToFacebook. rewrite Hd2, Hv2. simpl.
    unfold checkRateLimit, minInterval. rewrite Hclock.
    destruct (Z.ltb_spec (clock_gate a2 - clock_done a1) 60000); [|lia].
    eexists. reflexivity.
  - intros Hge.
    assert (Hallowed : checkRateLimit (clock_gate a2) w1 = Allowed).
    { unfold checkRateLimit, minInterval. rewrite Hclock.
      destruct (Z.ltb_spec (clock_gate a2 - clock_done a1) 60000);
        [lia | reflexivity]. }
    split; [assumption|].
    rewrite postToFacebook_past_gate by assumption. simpl.
    destruct (deliver_runs item2 config2 a2 w1) as (e & evs & Hr & _).
    destruct (deliver dirname item2 config2 a2 w1) as [[res tmp] w2];
      simpl in *.
    destruct tmp as [p|].
    + destruct (runs_cleanupTempFile p w2) as (evs2 & Hr2 & _ & _).
      destruct (runs_trans Hr Hr2) as (_ & Ht & _).
      exists e, (evs ++ evs2). rewrite Ht. reflexivity.
    + destruct Hr as (_ & Ht & _). exists e, evs. assumption.
  - intros item config a w0.
    destruct (postToFacebook_runs item config a w0) as (evs & _ & H).
    destruct (fst (postToFacebook dirname item config a w0)) as [r|msg];
      [|assumption].
    intros Hdry. rewrite Hdry in H. now rewrite H.
Qed.

(** An object that is not due stays in pending as it is, through the loop. *)
Lemma processLoop_keeps (config : Config.t) (now : Z) (oracle : nat -> Attempt)
    (due : list (nat * Item.t)) :
  forall (k : nat) (m : Mem) (w : World) (r : nat) (x : Item.t),
    coherent due m ->
    In (r, x) (m_pending m) ->
    ~ In r (map fst due) ->
    In (r, x)
       (m_pending (snd (fst (processLoop dirname config now oracle k due m w)))).
Proof.
  induction due as [|[r0 item0] rest IH]; intros k m w r x Hc Hin Hr; simpl.
  - assumption.
  - destruct (postToFacebook dirname item0 config (oracle k) w) as [res w1].
    assert (Hr0 : r <> r0) by (intro; apply Hr; now left).
    assert (Hrest : ~ In r (map fst rest)) by (intro; apply Hr; now right).
    pose proof Hc as (Hrefs & Hids & Hincl & Hdue).
    assert (Hh : In (r0, item0) (m_pending m)) by (apply Hincl; now left).
    destruct res as [result|msg].
    + specialize (IH (S k) (onPosted now result item0 m) w1 r x
                     (coherent_posted now result Hc)).
      destruct (processLoop _ _ _ _ _ _ _ _) as [[log m2] w2]. simpl in *.
      apply IH; [|assumption].
      apply filter_In. split; [assumption|].
      apply negb_true_iff, String.eqb_neq. intro Heq. apply Hr0.
      rewrite ids_deref in Hids.
      exact (f_equal fst (NoDup_map_inj (fun q => Item.id (snd q)) _
                            (r, x) (r0, item0) Hids Hin Hh Heq)).
    + specialize (IH (S k) (onFailed msg r0 m) w1 r x (coherent_failed msg Hc)).
      destruct (processLoop _ _ _ _ _ _ _ _) as [[log m2] w2]. simpl in *.
      apply IH; [|assumption].
      now apply updateRef_other.
Qed.

(** A due item whose delivery throws is in pending after the loop, marked
    failed with the message. *)
Lemma processLoop_failed (config : Config.t) (now : Z) (oracle : nat -> Attempt)
    (due : list (nat * Item.t)) :
  forall (k : nat) (m : Mem) (w : World) (item : Item.t) (msg : string),
    coherent due m ->
    In (item, Throws msg)
       (fst (fst (processLoop dirname config now oracle k due m w))) ->
    In (Item.markFailed msg item)
       (deref (m_pending
                 (snd (fst (processLoop dirname config now oracle k due m w))))).
Proof.
  induction due as [|[r0 item0] rest IH]; intros k m w item msg Hc Hlog;
    simpl in *.
  - contradiction.
  - pose proof Hc as (Hrefs & Hids & Hincl & Hdue).
    assert (Hh : In (r0, item0) (m_pending m)) by (apply Hincl; now left).
    assert (Hfresh : ~ In r0 (map fst rest)).
    { intro Hin. apply in_map_iff in Hin as [p [Hp Hin]].
      destruct (coherent_distinct p Hc Hin) as [Hne _]. contradiction. }
    destruct (postToFacebook dirname item0 config (oracle k) w) as [res w1].
    destruct res as [result|msg0].
    + specialize (IH (S k) (onPosted now result item0 m) w1 item msg
                     (coherent_posted now result Hc)).
      destruct (processLoop _ _ _ _ _ _ _ _) as [[log m2] w2]. simpl in *.
      destruct Hlog as [Hlog|Hlog]; [discriminate | auto].
    + pose proof (@processLoop_keeps config now oracle rest (S k)
                    (onFailed msg0 r0 m) w1 r0 (Item.markFailed msg0 item0)
                    (coherent_failed msg0 Hc)) as Hkeep.
      specialize (IH (S k) (onFailed msg0 r0 m) w1 item msg
                     (coherent_failed msg0 Hc)).
      destruct (processLoop _ _ _ _ _ _ _ _) as [[log m2] w2]. simpl in *.
      destruct Hlog as [Hlog|Hlog]; [|auto].
      inversion Hlog; subst item msg.
      unfold deref. apply in_map_iff.
      exists (r0, Item.markFailed msg0 item0). split; [reflexivity|].
      apply Hkeep; [|assumption].
      now apply updateRef_self.
Qed.

(** The log has one line per due item, in order, and each line holds what
    [postToFacebook] answered for that item. *)
Lemma processLoop_log (config : Config.t) (now : Z) (oracle : nat -> Attempt)
    (due : list (nat * Item.t)) :
  forall (k : nat) (m : Mem) (w : World),
    map fst (fst (fst (processLoop dirname config now oracle k due m w)))
    = deref due /\
    forall item res,
      In (item, res) (fst (fst (processLoop dirname config now oracle k due m w))) ->
      exists j w0, fst (postToFacebook dirname item config (oracle j) w0) = res.
Proof.
  induction due as [|[r0 item0] rest IH]; intros k m w; simpl.
  - split; [reflexivity | contradiction].
  - destruct (postToFacebook dirname item0 config (oracle k) w)
      as [res w1] eqn:E.
    specialize (IH (S k)
                  match res with
                  | Returns result => onPosted now result item0 m
                  | Throws msg => onFailed msg r0 m
                  end w1).
    destruct (processLoop _ _ _ _ _ _ _ _) as [[log m2] w2]. simpl in *.
    destruct IH as [IH1 IH2]. split.
    + now rewrite IH1.
    + intros item res' [Hin|Hin]; [|eauto].
      inversion Hin; subst. exists k, w. now rewrite E.
Qed.

(** The loop makes no write of [queue.json]. *)
Lemma processLoop_runs (config : Config.t) (now : Z) (oracle : nat -> Attempt)
    (due : list (nat * Item.t)) :
  forall (k : nat) (m : Mem) (w : World),
    exists evs,
      runs w (snd (processLoop dirname config now oracle k due m w)) evs.
Proof.
  induction due as [|[r0 item0] rest IH]; intros k m w; simpl.
  - exists []. apply runs_refl.
  - destruct (postToFacebook_runs item0 config (oracle k) w) as (evs1 & Hr1 & _).
    destruct (postToFacebook dirname item0 config (oracle k) w) as [res w1].
    specialize (IH (S k)
                  match res with
                  | Returns result => onPosted now result item0 m
                  | Throws msg => onFailed msg r0 m
                  end w1).
    destruct (processLoop _ _ _ _ _ _ _ _) as [[log m2] w2]. simpl in *.
    destruct IH as [evs2 Hr2]. eexists. apply (runs_trans Hr1 Hr2).
Qed.

Lemma processScheduledPosts_loop (config : Config.t) (now : Z)
    (oracle : nat -> Attempt) (w : World) :
  let m := fromQueue (loadQueue w) in
  let L := processLoop dirname config now oracle 0 (duePosts now m) m w in
  processScheduledPosts dirname config now oracle w
  = (fst (fst L), saveQueue (toQueue (snd (fst L))) (snd L)).
Proof.
  intros m L. unfold processScheduledPosts. fold m. fold L.
  now destruct L as [[log m'] w1].
Qed.

(** C6. A pass always runs to its end and writes [queue.json] exactly
    once, as its last act; a delivery that throws never stops it.  The log
    has one line per due item, holding what [postToFacebook] answered.  When
    the pending ids are distinct, every due item whose delivery threw is
    still in the pending list that was written, now with status 'failed'
    and the message of the error, and it is due again at any later pass. *)
Theorem failed_delivery_stays_pending (config : Config.t) (now : Z)
    (oracle : nat -> Attempt) (w : World) :
  let log := fst (processScheduledPosts dirname config now oracle w) in
  let w' := snd (processScheduledPosts dirname config now oracle w) in
  exists q' evs,
    store w' = Some q' /\
    trace w' = trace w ++ evs ++ [EvSaveQueue q'] /\
    forallb (fun e => negb (isEvSaveQueue e)) evs = true /\
    map fst log = filter (isDue now) (Queue.pending (loadQueue w)) /\
    (forall item res,
       In (item, res) log ->
       exists k w0,
         fst (postToFacebook dirname item config (oracle k) w0) = res) /\
    (NoDup (map Item.id (Queue.pending (loadQueue w))) ->
     forall item msg,
       In (item, Throws msg) log ->
       In (Item.markFailed msg item) (Queue.pending q') /\
       Item.status (Item.markFailed msg item) = failed_st /\
       Item.error (Item.markFailed msg item) = Some msg /\
       forall later, now <= later ->
                     isDue later (Item.markFailed msg item) = true).
Proof.
  intros log w'. subst log w'.
  rewrite processScheduledPosts_loop. cbv zeta.
  set (m := fromQueue (loadQueue w)).
  destruct (processLoop_runs config now oracle (duePosts now m) 0 m w)
    as (evs & Hst & Htr & Hno).
  destruct (processLoop_log config now oracle (duePosts now m) 0 m w)
    as (Hlog1 & Hlog2).
  pose proof (processLoop_failed config now oracle 0 w (due := duePosts now m)
                (m := m)) as Hfail.
  destruct (processLoop dirname config now oracle 0 (duePosts now m) m w)
    as [[log m'] w1]. simpl in *.
  exists (toQueue m'), evs.
  split; [reflexivity|]. split; [rewrite Htr; now rewrite app_assoc|].
  split; [assumption|]. split; [rewrite Hlog1; apply deref_duePosts|].
  split; [assumption|].
  intros Hids item msg Hin.
  pose proof (coherent_start now (loadQueue w) Hids) as Hc. fold m in Hc.
  split; [now apply Hfail|]. split; [reflexivity|]. split; [reflexivity|].
  intros later Hle. apply isDue_later with (now := now); [|assumption].
  assert (Hdue : In item (map fst log)).
  { apply in_map_iff. exists (item, Throws msg). split; auto. }
  rewrite Hlog1 in Hdue. unfold m in Hdue. rewrite deref_duePosts in Hdue.
  now apply filter_In in Hdue.
Qed.

Lemma processLoop_partitioned (config : Config.t) (now : Z)
    (oracle : nat -> Attempt) (due : list (nat * Item.t)) :
  forall (k : nat) (m : Mem) (w : World),
    coherent due m ->
    partitioned (toQueue m) ->
    partitioned
      (toQueue (snd (fst (processLoop dirname config now oracle k due m w)))).
Proof.
  induction due as [|[r0 item0] rest IH]; intros k m w Hc Hp; simpl.
  - assumption.
  - destruct (postToFacebook dirname item0 config (oracle k) w) as [res w1].
    pose proof Hc as (_ & _ & Hincl & _).
    assert (Hh : In (r0, item0) (m_pending m)) by (apply Hincl; now left).
    destruct res as [result|msg].
    + specialize (IH (S k) (onPosted now result item0 m) w1
                     (coherent_posted now result Hc)
                     (@partitioned_posted now result r0 item0 m Hh Hp)).
      now destruct (processLoop _ _ _ _ _ _ _ _) as [[log m2] w2].
    + specialize (IH (S k) (onFailed msg r0 m) w1 (coherent_failed msg Hc)
                     (partitioned_failed msg r0 Hp)).
      now destruct (processLoop _ _ _ _ _ _ _ _) as [[log m2] w2].
Qed.

Lemma processScheduledPosts_partitioned (config : Config.t) (now : Z)
    (oracle : nat -> Attempt) (w : World) :
  partitioned (loadQueue w) ->
  partitioned
    (loadQueue (snd (processScheduledPosts dirname config now oracle w))).
Proof.
  intros Hp. rewrite processScheduledPosts_loop. cbv zeta. simpl.
  apply processLoop_partitioned.
  - apply coherent_start. destruct Hp as [Hids _].
    unfold queueIds in Hids. now apply NoDup_app_remove_r in Hids.
  - now rewrite toQueue_fromQueue.
Qed.

Lemma processLoop_hashes (config : Config.t) (now : Z) (oracle : nat -> Attempt)
    (due : list (nat * Item.t)) :
  forall (k : nat) (m : Mem) (w : World),
    m_postedHashes (snd (fst (processLoop dirname config now oracle k due m w)))
    = hashesAfter (fst (fst (processLoop dirname config now oracle k due m w)))
                  (m_postedHashes m).
Proof.
  induction due as [|[r0 item0] rest IH]; intros k m w; simpl.
  - reflexivity.
  - destruct (postToFacebook dirname item0 config (oracle k) w) as [res w1].
    specialize (IH (S k)
                  match res with
                  | Returns result => onPosted now result item0 m
                  | Throws msg => onFailed msg r0 m
                  end w1).
    destruct (processLoop _ _ _ _ _ _ _ _) as [[log m2] w2]. simpl in *.
    rewrite IH. unfold hashesAfter. simpl. now destruct res.
Qed.

Lemma storedHashes_after (config : Config.t) (now : Z)
    (oracle : nat -> Attempt) (w : World) :
  storedHashes (snd (processScheduledPosts dirname config now oracle w))
  = hashesOf (hashesAfter (fst (processScheduledPosts dirname config now oracle w))
                          (Some (storedHashes w))).
Proof.
  rewrite processScheduledPosts_loop. cbv zeta. unfold storedHashes at 1.
  simpl. rewrite processLoop_hashes. simpl.
  unfold storedHashes.
  destruct (Queue.postedHashes (loadQueue w)) as [hs|]; [reflexivity|].
  apply hashesAfter_missing.
Qed.

(** C5. A pass never lets a history of at most 1000 hashes grow beyond
    1000.  When every due item of the pass is delivered and the hashes
    involved are non-empty and pairwise distinct, the history afterwards is
    the last 1000 of the old history followed by the new hashes in posting
    order: the oldest are dropped first.  Starting from an empty history,
    1001 deliveries leave exactly the 1000 most recent hashes. *)
Theorem posted_hashes_bounded (config : Config.t) (now : Z)
    (oracle : nat -> Attempt) (w : World) :
  (List.length (storedHashes w) <= 1000)%nat ->
  let log := fst (processScheduledPosts dirname config now oracle w) in
  let w' := snd (processScheduledPosts dirname config now oracle w) in
  let new := map (fun e => Item.contentHash (fst e)) log in
  (List.length (storedHashes w') <= 1000)%nat /\
  (forallb (fun e => isReturns (snd e)) log = true ->
   forallb (fun h => negb (String.eqb h "")) new = true ->
   nodupb (storedHashes w ++ new) = true ->
   storedHashes w' = lastN 1000 (storedHashes w ++ new) /\
   (storedHashes w = [] -> List.length new = 1001%nat ->
    List.length (storedHashes w') = 1000%nat /\ storedHashes w' = tl new)).
Proof.
  intros Hlen log w' new. subst w'.
  rewrite storedHashes_after. fold log. split.
  - now apply hashesAfter_bound.
  - intros Hret Hne Hnd. apply nodupb_NoDup in Hnd.
    assert (E : hashesOf (hashesAfter log (Some (storedHashes w)))
                = lastN 1000 (storedHashes w ++ new)).
    { rewrite <- (@lastN_short _ 1000%nat (storedHashes w)) at 1 by assumption.
      now rewrite hashesAfter_all_posted by assumption. }
    split; [assumption|].
    intros Hempty Hnew. rewrite E, Hempty.
    change ([] ++ new) with new. unfold lastN. rewrite Hnew.
    change (1001 - 1000)%nat with 1%nat. split.
    + rewrite length_skipn, Hnew. reflexivity.
    + destruct new; reflexivity.
Qed.

Lemma processLoop_posted_mono (config : Config.t) (now : Z)
    (oracle : nat -> Attempt) (due : list (nat * Item.t)) :
  forall (k : nat) (m : Mem) (w : World) (x : Item.t),
    In x (m_posted m) ->
    In x (m_posted (snd (fst (processLoop dirname config now oracle k due m w)))).
Proof.
  induction due as [|[r0 item0] rest IH]; intros k m w x Hin; simpl.
  - assumption.
  - destruct (postToFacebook dirname item0 config (oracle k) w) as [res w1].
    specialize (IH (S k)
                  match res with
                  | Returns result => onPosted now result item0 m
                  | Throws msg => onFailed msg r0 m
                  end w1 x).
    destruct (processLoop _ _ _ _ _ _ _ _) as [[log m2] w2]. simpl in *.
    apply IH. destruct res; simpl; [|assumption].
    apply in_or_app. now left.
Qed.

Lemma processLoop_ids_shrink (config : Config.t) (now : Z)
    (oracle : nat -> Attempt) (due : list (nat * Item.t)) :
  forall (k : nat) (m : Mem) (w : World) (i : string),
    In i (map Item.id
            (deref (m_pending
                      (snd (fst (processLoop dirname config now oracle k due m w)))))) ->
    In i (map Item.id (deref (m_pending m))).
Proof.
  induction due as [|[r0 item0] rest IH]; intros k m w i; simpl.
  - auto.
  - destruct (postToFacebook dirname item0 config (oracle k) w) as [res w1].
    specialize (IH (S k)
                  match res with
                  | Returns result => onPosted now result item0 m
                  | Throws msg => onFailed msg r0 m
                  end w1 i).
    destruct (processLoop _ _ _ _ _ _ _ _) as [[log m2] w2]. simpl in *.
    intros Hin. apply IH in Hin. destruct res; simpl in Hin.
    + rewrite deref_filter_ids in Hin. now apply filter_In in Hin.
    + now rewrite (updateRef_proj Item.id) in Hin by reflexivity.
Qed.

(** A due item whose delivery returned is in posted, marked posted with the
    id that came back, and no pending item has its id any more. *)
Lemma processLoop_posted (config : Config.t) (now : Z)
    (oracle : nat -> Attempt) (due : list (nat * Item.t)) :
  forall (k : nat) (m : Mem) (w : World) (item : Item.t) (result : PostResult),
    In (item, Returns result)
       (fst (fst (processLoop dirname config now oracle k due m w))) ->
    In (Item.markPosted now (r_id result) item)
       (m_posted (snd (fst (processLoop dirname config now oracle k due m w)))) /\
    ~ In (Item.id item)
         (map Item.id
            (deref (m_pending
                      (snd (fst (processLoop dirname config now oracle k due m w)))))).
Proof.
  induction due as [|[r0 item0] rest IH]; intros k m w item result; simpl.
  - contradiction.
  - destruct (postToFacebook dirname item0 config (oracle k) w) as [res w1].
    set (m1 := match res with
               | Returns result => onPosted now result item0 m
               | Throws msg => onFailed msg r0 m
               end).
    specialize (IH (S k) m1 w1 item result).
    pose proof (processLoop_posted_mono config now oracle rest (S k) m1 w1) as Hmono.
    pose proof (processLoop_ids_shrink config now oracle rest (S k) m1 w1) as Hshrink.
    destruct (processLoop _ _ _ _ _ _ _ _) as [[log m2] w2]. simpl in *.
    intros [Hhead|Htail]; [|auto].
    inversion Hhead; subst item0 res. subst m1. split.
    + apply Hmono. simpl. apply in_or_app. right. now left.
    + intro Hin. apply Hshrink in Hin. simpl in Hin.
      rewrite deref_filter_ids in Hin. apply filter_In in Hin as [_ Hne].
      simpl in Hne. now rewrite String.eqb_refl in Hne.
Qed.

Lemma processLoop_dry_run (config : Config.t) (now : Z)
    (oracle : nat -> Attempt) (due : list (nat * Item.t)) :
  Config.dry_run config = true ->
  forall (k : nat) (m : Mem) (w : World),
    snd (processLoop dirname config now oracle k due m w) = w /\
    forall j r item,
      nth_error due j = Some (r, item) ->
      nth_error (fst (fst (processLoop dirname config now oracle k due m w))) j
      = Some (item,
              Returns (mkPostResult (Some (dryRunId (oracle (k + j)%nat))) true)).
Proof.
  intros Hdry.
  induction due as [|[r0 item0] rest IH]; intros k m w; simpl.
  - split; [reflexivity|]. intros [|j]; discriminate.
  - rewrite postToFacebook_dry_run by assumption.
    specialize (IH (S k)
                  (onPosted now
                     (mkPostResult
                        (Some ("dry-run-" ++ JS.toString (clock_dry (oracle k)))%string)
                        true) item0 m) w).
    destruct (processLoop _ _ _ _ _ _ _ _) as [[log m2] w2]. simpl in *.
    destruct IH as [IHw IHlog]. split; [assumption|].
    intros [|j] r item H; simpl in *.
    + inversion H; subst. now rewrite Nat.add_0_r.
    + rewrite (IHlog j r item H). now rewrite Nat.add_succ_r.
Qed.

(** C7. With dry-run enabled, [postToFacebook] makes no request and
    touches nothing: it returns at once the id "dry-run-" followed by the
    reading of the clock, flagged as a dry run.  A pass then does one thing
    to the world, the final write of [queue.json]: no request, no file
    written or deleted, rate limiter unmoved.  Every due item is in the
    posted list that was written, under its own id and text, with status
    'posted', the time of the pass as [postedAt] and that made-up id as
    [facebookPostId]; no pending item has its id. *)
Theorem dry_run_isolated (config : Config.t) :
  Config.dry_run config = true ->
  (forall item a w,
     postToFacebook dirname item config a w
     = (Returns (mkPostResult (Some (dryRunId a)) true), w) /\
     dryRunId a = ("dry-run-" ++ JS.toString (clock_dry a))%string /\
     String.prefix "dry-run-" (dryRunId a) = true) /\
  (forall now oracle w,
     let w' := snd (processScheduledPosts dirname config now oracle w) in
     exists q',
       w' = saveQueue q' w /\
       added w w' = [EvSaveQueue q'] /\
       filter isEvNet (added w w') = [] /\
       forall j item,
         nth_error (filter (isDue now) (Queue.pending (loadQueue w))) j
         = Some item ->
         exists x,
           x = Item.markPosted now (Some (dryRunId (oracle j))) item /\
           In x (Queue.posted q') /\
           Item.status x = posted_st /\
           Item.facebookPostId x = Some (dryRunId (oracle j)) /\
           Item.postedAt x = Some now /\
           Item.id x = Item.id item /\
           Item.text x = Item.text item /\
           Item.contentHash x = Item.contentHash item /\
           String.prefix "dry-run-" (dryRunId (oracle j)) = true /\
           ~ In (Item.id item) (map Item.id (Queue.pending q'))).
Proof.
  intros Hdry. split.
  - intros item a w. split; [|split].
    + now apply postToFacebook_dry_run.
    + reflexivity.
    + apply prefix_dryRunId.
  - intros now oracle w w'. subst w'.
    rewrite processScheduledPosts_loop. cbv zeta.
    set (m := fromQueue (loadQueue w)).
    destruct (processLoop_dry_run config now oracle (duePosts now m) Hdry 0 m w)
      as [Hw Hlog].
    pose proof (processLoop_posted config now oracle (duePosts now m) 0 m w)
      as Hposted.
    destruct (processLoop dirname config now oracle 0 (duePosts now m) m w)
      as [[log m'] w1]. simpl in *. subst w1.
    exists (toQueue m'). split; [reflexivity|].
    rewrite added_saveQueue. split; [reflexivity|]. split; [reflexivity|].
    intros j item Hj.
    unfold m in Hlog. rewrite <- deref_duePosts in Hj.
    unfold deref in Hj. rewrite nth_error_map in Hj.
    destruct (nth_error (duePosts now (fromQueue (loadQueue w))) j)
      as [[r it]|] eqn:Hd; [|discriminate].
    simpl in Hj. inversion Hj; subst it.
    specialize (Hlog j r item Hd). apply nth_error_In in Hlog.
    destruct (Hposted _ _ Hlog) as [Hin Hgone].
    eexists. split; [reflexivity|]. split; [exact Hin|].
    repeat (split; [reflexivity|]).
    split; [apply prefix_dryRunId | exact Hgone].
Qed.

(** What the guard of [cleanupTempFile] checks: a file is deleted only when
    its path contains the path of the temp directory somewhere. *)
Lemma cleanupTempFile_guard (p : string) (w : World) :
  cleanupTempFile dirname p w <> w ->
  JS.includes p (TEMP_DIR dirname) = true /\
  cleanupTempFile dirname p w = unlinkSync p w.
Proof.
  unfold cleanupTempFile.
  destruct (negb (String.eqb p "") && existsSync p w) eqn:E1; simpl;
    [|congruence].
  destruct (JS.includes p (TEMP_DIR dirname)); [auto | congruence].
Qed.

Lemma cleanupTempFile_download (name : string) (w : World) :
  let p := (TEMP_DIR dirname ++ "/" ++ name)%string in
  existsSync p w = true ->
  existsSync p (cleanupTempFile dirname p w) = false.
Proof.
  intros p Hex. unfold cleanupTempFile. rewrite Hex.
  replace (JS.includes p (TEMP_DIR dirname)) with true
    by (symmetry; apply includes_prefix).
  replace (String.eqb p "") with false.
  - simpl. apply existsSync_unlinkSync.
  - symmetry. apply String.eqb_neq. unfold p, TEMP_DIR.
    destruct dirname; discriminate.
Qed.

(** A delivery that has downloaded a Telegram file leaves no such file
    behind, however publishing went. *)
Lemma downloaded_file_removed (item : Item.t) (config : Config.t)
    (a : Attempt) (w : World) (filePath : string) :
  Config.dry_run config = false ->
  valid (validateConfig config) = true ->
  checkRateLimit (clock_gate a) w = Allowed ->
  JS.truthy (Item.telegramFileId item) = true ->
  JS.truthy (Config.bot_token config) = true ->
  tg_info a = InfoOk filePath ->
  tg_file a = FileOk ->
  let localPath :=
    (TEMP_DIR dirname ++ "/" ++ JS.toString (clock_download a) ++ "_"
     ++ JS.basename filePath)%string in
  In (EvWriteFile localPath)
     (added w (snd (postToFacebook dirname item config a w))) /\
  existsSync localPath (snd (postToFacebook dirname item config a w)) = false.
Proof.
  intros Hd Hv Hr Hid Hbot Hinfo Hfile localPath.
  rewrite postToFacebook_past_gate by assumption.
  unfold deliver. rewrite Hid, Hbot. cbn [andb].
  unfold downloadTelegramFile. rewrite Hinfo, Hfile. fold localPath.
  set (w1 := writeFileSync localPath _).
  destruct (publish_runs item (Some localPath) a w1)
    as (e & evs & Hruns & Hfiles & _).
  destruct (publish item (Some localPath) a w1) as [res w2].
  cbn [fst snd] in *.
  assert (Hex : existsSync localPath w2 = true).
  { unfold existsSync. rewrite Hfiles. apply existsSync_writeFileSync. }
  split.
  - destruct (runs_cleanupTempFile localPath w2) as (evs2 & Hr2 & _ & _).
    destruct (runs_trans Hruns Hr2) as (_ & Ht & _).
    erewrite added_app.
    2:{ rewrite Ht. unfold w1, writeFileSync, emit. cbn [trace].
        rewrite <- !app_assoc. reflexivity. }
    cbn [app]. right. right. now left.
  - now apply (cleanupTempFile_download
                 (JS.toString (clock_download a) ++ "_" ++ JS.basename filePath)).
Qed.

End Delivery.

(** ** Ingestion *)

Section Ingestion.

Variable sha256hex : string -> string.
Variable localOffset : Z -> bool -> Z.
Variable zoneOffset : string -> Z -> option Z.

(** The outcome of [addToQueue], laid out branch by branch. *)
Lemma addToQueue_invalid (content : Content.t) (config : Config.t)
    (env : AddEnv) (w : World) :
  valid (validateInput content) = false ->
  addToQueue sha256hex localOffset zoneOffset content config env w
  = (AddInvalid (errors (validateInput content)), w).
Proof. intros H. unfold addToQueue. now rewrite H. Qed.

Lemma addToQueue_duplicate (content : Content.t) (config : Config.t)
    (env : AddEnv) (w : World) :
  valid (validateInput content) = true ->
  In (generateContentHash sha256hex (contentText content)
        (Content.mediaType content)) (storedHashes w) ->
  addToQueue sha256hex localOffset zoneOffset content config env w
  = (AddDuplicate, w).
Proof.
  intros Hv Hin. unfold addToQueue. rewrite Hv. simpl.
  apply arrayIncludes_In in Hin. unfold storedHashes, contentText in Hin.
  now rewrite Hin.
Qed.

Lemma addToQueue_admitted (content : Content.t) (config : Config.t)
    (env : AddEnv) (w : World) :
  valid (validateInput content) = true ->
  ~ In (generateContentHash sha256hex (contentText content)
          (Content.mediaType content)) (storedHashes w) ->
  exists item q1,
    Item.id item = JS.toString (now_id env) /\
    Item.contentHash item
      = generateContentHash sha256hex (contentText content)
          (Content.mediaType content) /\
    Item.text item = contentText content /\
    Item.status item = pending_st /\
    Item.scheduledFor item = None /\
    q1 = Queue.mk (Queue.pending (loadQueue w) ++ [item])
                  (Queue.posted (loadQueue w))
                  (Queue.lastPostTime (loadQueue w))
                  (Some (storedHashes w)) /\
    addToQueue sha256hex localOffset zoneOffset content config env w
    = (match fst (schedulePosts localOffset zoneOffset config (sched_clock env)
                    (saveQueue q1 w)) with
       | Returns _ => AddSuccess item
       | Throws msg => AddThrows msg
       end,
       snd (schedulePosts localOffset zoneOffset config (sched_clock env)
              (saveQueue q1 w))).
Proof.
  intros Hv Hnin. unfold addToQueue. rewrite Hv. simpl.
  apply arrayIncludes_not_In in Hnin. unfold storedHashes, contentText in Hnin.
  rewrite Hnin.
  match goal with
  | |- context [saveQueue (Queue.mk (_ ++ [?it]) _ _ _) w] => exists it
  end.
  eexists. repeat (split; [reflexivity|]).
  destruct (schedulePosts _ _ _ _ _) as [[u|msg] w2]; reflexivity.
Qed.

(** What the store holds after an admitted ingestion. *)
Lemma admitted_store (config : Config.t) (clock : nat -> Z) (q1 : Queue.t)
    (w : World) :
  exists q',
    store (snd (schedulePosts localOffset zoneOffset config clock
                  (saveQueue q1 w))) = Some q' /\
    map clearSchedule (Queue.pending q') = map clearSchedule (Queue.pending q1) /\
    Queue.posted q' = Queue.posted q1 /\
    Queue.postedHashes q' = Queue.postedHashes q1 /\
    forall q, In (EvSaveQueue q)
                (added w (snd (schedulePosts localOffset zoneOffset config clock
                                 (saveQueue q1 w)))) ->
              q = q1 \/ q = q'.
Proof.
  destruct (schedulePosts_cases localOffset zoneOffset config clock (saveQueue q1 w))
    as [H | [pending' [H Hp]]]; rewrite H; simpl.
  - exists q1. repeat split; try reflexivity.
    intros q Hq. rewrite added_saveQueue in Hq.
    destruct Hq as [Hq|[]]. left. congruence.
  - eexists. split; [reflexivity|]. simpl. repeat split; try assumption.
    intros q Hq.
    erewrite added_app in Hq by (simpl; rewrite <- app_assoc; reflexivity).
    destruct Hq as [Hq|[Hq|[]]]; [left | right]; congruence.
Qed.

(** C1. For an input that passes validation, [addToQueue] answers
    'duplicate' exactly when the hash of (text, mediaType) is in the stored
    [postedHashes], and then it leaves the world as it was.  Otherwise,
    whatever pending holds (an identical item included), the new item is
    appended to pending and persisted. *)
Theorem addToQueue_duplicate_iff_posted_hash (content : Content.t)
    (config : Config.t) (env : AddEnv) (w : World) :
  valid (validateInput content) = true ->
  let hash := generateContentHash sha256hex (contentText content)
                (Content.mediaType content) in
  let r := fst (addToQueue sha256hex localOffset zoneOffset content config env w) in
  let w' := snd (addToQueue sha256hex localOffset zoneOffset content config env w) in
  (r = AddDuplicate <-> In hash (storedHashes w)) /\
  (In hash (storedHashes w) -> w' = w) /\
  (~ In hash (storedHashes w) ->
   exists item q',
     Item.contentHash item = hash /\
     Item.text item = contentText content /\
     Item.status item = pending_st /\
     (r = AddSuccess item \/ exists msg, r = AddThrows msg) /\
     store w' = Some q' /\
     map clearSchedule (Queue.pending q')
     = map clearSchedule (Queue.pending (loadQueue w) ++ [item]) /\
     Queue.posted q' = Queue.posted (loadQueue w) /\
     Queue.postedHashes q' = Some (storedHashes w)).
Proof.
  intros Hv hash r w'.
  assert (Hdec : In hash (storedHashes w) \/ ~ In hash (storedHashes w)).
  { destruct (in_dec string_dec hash (storedHashes w)); auto. }
  split; [|split].
  - subst r. destruct Hdec as [Hin|Hnin].
    + rewrite (addToQueue_duplicate content config env w Hv Hin). tauto.
    + destruct (addToQueue_admitted content config env w Hv Hnin)
        as (item & q1 & _ & _ & _ & _ & _ & _ & E).
      rewrite E. simpl. split; [|tauto].
      destruct (fst _); discriminate.
  - intros Hin. subst w'.
    now rewrite (addToQueue_duplicate content config env w Hv Hin).
  - intros Hnin.
    destruct (addToQueue_admitted content config env w Hv Hnin)
      as (item & q1 & _ & Hh & Ht & Hs & _ & Hq1 & E).
    destruct (admitted_store config (sched_clock env) q1 w)
      as (q' & Hst & Hp & Hpo & Hph & _).
    exists item, q'. subst r w'. rewrite E. simpl.
    repeat split; try assumption.
    + destruct (fst _); [left | right; eexists]; reflexivity.
    + rewrite Hp, Hq1. reflexivity.
    + rewrite Hpo, Hq1. reflexivity.
    + rewrite Hph, Hq1. reflexivity.
Qed.

(** C10. When [addToQueue] answers with a failure (validation errors or
    'duplicate') the world is the one it started from: [queue.json] is not
    written.  Every queue it does write already has the new item at the end
    of pending. *)
Theorem addToQueue_rejection_writes_nothing (content : Content.t)
    (config : Config.t) (env : AddEnv) (w : World) (r : AddResult)
    (w' : World) :
  addToQueue sha256hex localOffset zoneOffset content config env w = (r, w') ->
  ((r = AddDuplicate \/ exists errs, r = AddInvalid errs) ->
   w' = w /\ store w' = store w /\ added w w' = []) /\
  (forall q, In (EvSaveQueue q) (added w w') ->
     exists item,
       Item.id item = JS.toString (now_id env) /\
       map clearSchedule (Queue.pending q)
       = map clearSchedule (Queue.pending (loadQueue w) ++ [item]) /\
       Queue.posted q = Queue.posted (loadQueue w)).
Proof.
  intros E.
  assert (Hempty : added w w = []).
  { apply added_app. now rewrite app_nil_r. }
  destruct (valid (validateInput content)) eqn:Hv.
  2:{ rewrite (addToQueue_invalid content config env w Hv) in E.
      inversion E; subst. split.
      - intros _. now repeat split.
      - intros q Hq. rewrite Hempty in Hq. contradiction. }
  destruct (in_dec string_dec
              (generateContentHash sha256hex (contentText content)
                 (Content.mediaType content)) (storedHashes w)) as [Hin|Hnin].
  - rewrite (addToQueue_duplicate content config env w Hv Hin) in E.
    inversion E; subst. split.
    + intros _. now repeat split.
    + intros q Hq. rewrite Hempty in Hq. contradiction.
  - destruct (addToQueue_admitted content config env w Hv Hnin)
      as (item & q1 & Hid & _ & _ & _ & _ & Hq1 & E').
    rewrite E' in E. inversion E as [[Hr Hw]]. clear E E'. split.
    + intros [Hd | [errs Hd]]; rewrite Hd in Hr;
        destruct (fst _); discriminate.
    + intros q Hq.
      destruct (admitted_store config (sched_clock env) q1 w)
        as (q' & _ & Hp & Hpo & _ & Hsaves).
      exists item. split; [assumption|].
      destruct (Hsaves q Hq) as [-> | ->].
      * rewrite Hq1. simpl. split; reflexivity.
      * rewrite Hp, Hpo, Hq1. simpl. split; reflexivity.
Qed.

Lemma addToQueue_partitioned (content : Content.t) (config : Config.t)
    (env : AddEnv) (w : World) :
  ~ In (JS.toString (now_id env)) (queueIds (loadQueue w)) ->
  partitioned (loadQueue w) ->
  partitioned
    (loadQueue
       (snd (addToQueue sha256hex localOffset zoneOffset content config env w))).
Proof.
  intros Hfresh [Hids Hst].
  destruct (valid (validateInput content)) eqn:Hv.
  2:{ rewrite addToQueue_invalid by assumption. now split. }
  destruct (in_dec string_dec
              (generateContentHash sha256hex (contentText content)
                 (Content.mediaType content)) (storedHashes w)) as [Hin|Hnin].
  { rewrite addToQueue_duplicate by assumption. now split. }
  destruct (addToQueue_admitted content config env w Hv Hnin)
    as (item & q1 & Hid & _ & _ & Hstatus & _ & Hq1 & E).
  destruct (admitted_store config (sched_clock env) q1 w)
    as (q' & Hstore & Hp & Hpo & _ & _).
  rewrite E. simpl. unfold loadQueue. rewrite Hstore.
  rewrite Hq1 in Hp, Hpo. simpl in Hp, Hpo.
  unfold partitioned, queueIds in *. split.
  - rewrite (@clearSchedule_ids _ _ Hp), Hpo, map_app. simpl.
    rewrite <- app_assoc. simpl.
    destruct (NoDup_app_inv _ _ Hids) as (HP & HQ & Hdis).
    apply NoDup_app; [assumption | |].
    + constructor; [|assumption].
      intro Hin. apply Hfresh. rewrite <- Hid. apply in_or_app. now right.
    + intros a Ha [<-|Hin]; [|now apply (Hdis a)].
      apply Hfresh. rewrite <- Hid. apply in_or_app. now left.
  - apply (@clearSchedule_status _ _ Hp). apply Forall_app. split; [assumption|].
    constructor; [|constructor]. rewrite Hstatus. discriminate.
Qed.

End Ingestion.

(** ** Reachable worlds *)

Section Reachability.

Variable sha256hex : string -> string.
Variable dirname : string.
Variable localOffset : Z -> bool -> Z.
Variable zoneOffset : string -> Z -> option Z.

(** C2, as the code has it.  Ids are [Date.now()] strings, so they are
    distinct only as far as the clock readings of the ingestions are.  Every
    world reached from a missing [queue.json] by ingestions that read a
    clock value not yet used as an id, by scheduling runs and by passes is
    partitioned: no id occurs twice in pending and posted together, and no
    pending item has the status 'posted'.  Each of the three operations
    keeps a partitioned queue partitioned. *)
Theorem reachable_queue_partitioned (w : World) :
  Reachable sha256hex dirname localOffset zoneOffset w ->
  partitioned (loadQueue w) /\
  (forall content config env,
     ~ In (JS.toString (now_id env)) (queueIds (loadQueue w)) ->
     partitioned
       (loadQueue
          (snd (addToQueue sha256hex localOffset zoneOffset content config
                  env w)))) /\
  (forall config clock,
     partitioned
       (loadQueue (snd (schedulePosts localOffset zoneOffset config clock w)))) /\
  (forall config now oracle,
     partitioned
       (loadQueue (snd (processScheduledPosts dirname config now oracle w)))).
Proof.
  intros H.
  assert (Hp : partitioned (loadQueue w)).
  { induction H as [w Hnone | w content config env _ IH Hfresh
                    | w config clock _ IH | w config now oracle _ IH].
    - unfold loadQueue. rewrite Hnone. split; constructor.
    - now apply addToQueue_partitioned.
    - now apply schedulePosts_partitioned.
    - now apply processScheduledPosts_partitioned. }
  split; [assumption|]. split; [|split].
  - intros. now apply addToQueue_partitioned.
  - intros. now apply schedulePosts_partitioned.
  - intros. now apply processScheduledPosts_partitioned.
Qed.

End Reachability.

(** * Further properties of the program *)

(** ** The rate limiter *)

(** X3. When the gate turns an attempt away, the number of seconds it names
    is at least 1, is enough (an attempt that many seconds later passes)
    and is not too many (one second earlier would still be turned away);
    it is at most 60 unless the clock reads earlier than the last post. *)
Theorem checkRateLimit_wait_is_exact (now waitTime : Z) (message : string)
    (w : World) :
  checkRateLimit now w = Denied waitTime message ->
  1 <= waitTime /\
  checkRateLimit (now + waitTime * 1000) w = Allowed /\
  (exists t m, checkRateLimit (now + (waitTime - 1) * 1000) w = Denied t m) /\
  (rl_lastPostTime w <= now -> waitTime <= 60).
Proof.
  unfold checkRateLimit, minInterval, ceilSeconds.
  destruct (Z.ltb_spec (now - rl_lastPostTime w) 60000) as [Hlt|Hge];
    [|discriminate].
  intros H.
  pose proof (f_equal (fun r => match r with
                                | Denied t _ => t
                                | Allowed => 0
                                end) H) as Hw.
  cbv beta iota in Hw. clear H.
  set (x := 60000 - (now - rl_lastPostTime w)) in *.
  pose proof (Z.mul_div_le (x + 999) 1000 ltac:(lia)) as Hlo.
  pose proof (Z.mul_succ_div_gt (x + 999) 1000 ltac:(lia)) as Hhi.
  set (q := (x + 999) / 1000) in *.
  assert (Hx : 0 < x) by (unfold x; lia).
  rewrite <- Hw. clear Hw waitTime.
  split; [lia|]. split; [|split].
  - destruct (Z.ltb_spec (now + q * 1000 - rl_lastPostTime w) 60000);
      [unfold x in *; lia | reflexivity].
  - destruct (Z.ltb_spec (now + (q - 1) * 1000 - rl_lastPostTime w) 60000);
      [do 2 eexists; reflexivity | unfold x in *; lia].
  - intros Hclock. unfold x in *. lia.
Qed.

(** ** Publishing *)

(** X4. The requests of a video upload are the first one, two or three of
    start, transfer, finish, in that order; finish is sent only after start
    and transfer were answered without error; and the upload returns
    exactly when all three were, with the id of the finish reply. *)
Theorem postVideoToFacebook_phases (a : Attempt) (w : World) :
  (exists n, (1 <= n <= 3)%nat /\
             added w (snd (postVideoToFacebook a w)) = firstn n videoPhases) /\
  (In (EvNet FbVideoFinish) (added w (snd (postVideoToFacebook a w))) ->
   exists s t, fb_video_start a = ReplyOk s /\ fb_video_transfer a = ReplyOk t) /\
  (forall id,
     fst (postVideoToFacebook a w) = Returns id <->
     (exists s t, fb_video_start a = ReplyOk s /\
                  fb_video_transfer a = ReplyOk t) /\
     fb_video_finish a = ReplyOk id).
Proof.
  unfold postVideoToFacebook, videoPhases.
  assert (H1 : forall w1, trace w1 = trace w ++ [EvNet FbVideoStart] ->
                          added w w1 = [EvNet FbVideoStart])
    by (intros; now apply added_app).
  assert (H2 : forall w1,
             trace w1 = (trace w ++ [EvNet FbVideoStart]) ++ [EvNet FbVideoTransfer] ->
             added w w1 = [EvNet FbVideoStart; EvNet FbVideoTransfer]).
  { intros w1 E. apply added_app. rewrite E. now rewrite <- app_assoc. }
  assert (H3 : forall w1,
             trace w1 = ((trace w ++ [EvNet FbVideoStart])
                         ++ [EvNet FbVideoTransfer]) ++ [EvNet FbVideoFinish] ->
             added w w1 = [EvNet FbVideoStart; EvNet FbVideoTransfer;
                           EvNet FbVideoFinish]).
  { intros w1 E. apply added_app. rewrite E. now rewrite <- !app_assoc. }
  destruct (fb_video_start a) as [m1|s|m1];
    [| destruct (fb_video_transfer a) as [m2|t|m2];
       [| destruct (fb_video_finish a) as [m3|i|m3] |] |];
    cbn [fst snd];
    (split; [|split]);
    try (exists 1%nat; split; [lia | now apply H1]);
    try (exists 2%nat; split; [lia | now apply H2]);
    try (exists 3%nat; split; [lia | now apply H3]);
    try (rewrite H1 by reflexivity);
    try (rewrite H2 by reflexivity);
    try (rewrite H3 by reflexivity);
    try (intros [Hin|[Hin|[Hin|[]]]]; try discriminate; eauto; fail);
    try (intros [Hin|[Hin|[]]]; discriminate);
    try (intros [Hin|[]]; discriminate);
    try (intros id; split;
         [ intros E; try discriminate; inversion E; subst; eauto
         | intros [(s' & t' & Hs & Ht) Hf]; congruence ]).
Qed.

(** ** Lists of references, once more *)

Lemma fold_updateRef_head (f : Item.t -> Item.t) (upds : list (nat * Item.t))
    (r : nat) (x : Item.t) (l : list (nat * Item.t)) :
  ~ In r (map fst upds) ->
  fold_left (fun acc p => updateRef (fst p) f acc) upds ((r, x) :: l)
  = (r, x) :: fold_left (fun acc p => updateRef (fst p) f acc) upds l.
Proof.
  revert l. induction upds as [|[r' y] upds IH]; intros l Hr; simpl.
  - reflexivity.
  - destruct (Nat.eqb_spec r r') as [->|Hne].
    + exfalso. apply Hr. now left.
    + apply IH. intro Hin. apply Hr. now right.
Qed.

Lemma filtered_refs_above (g : Item.t -> bool) (s : nat) (l : list Item.t)
    (r : nat) :
  In r (map fst (filter (fun p => g (snd p)) (allocFrom (S s) l))) ->
  (s < r)%nat.
Proof.
  intros H. apply in_map_iff in H as [p [<- Hp]].
  apply filter_In in Hp as [Hp _].
  apply (in_map fst) in Hp. rewrite refs_allocFrom in Hp.
  apply in_seq in Hp. lia.
Qed.

(** Writing [f] to every selected object is a map over the array. *)
Lemma fold_updateRef_filter (f : Item.t -> Item.t) (g : Item.t -> bool)
    (l : list Item.t) (s : nat) :
  deref (fold_left (fun acc p => updateRef (fst p) f acc)
           (filter (fun p => g (snd p)) (allocFrom s l)) (allocFrom s l))
  = map (fun x => if g x then f x else x) l.
Proof.
  revert s. induction l as [|it l IH]; intros s; [reflexivity|].
  rewrite allocFrom_cons. cbn [filter snd map].
  destruct (g it).
  - cbn [fold_left fst]. unfold updateRef at 2. cbn [map fst snd].
    rewrite Nat.eqb_refl.
    change (map (fun p : nat * Item.t =>
                   if (fst p =? s)%nat then (fst p, f (snd p)) else p)
                (allocFrom (S s) l))
      with (updateRef s f (allocFrom (S s) l)).
    rewrite updateRef_absent.
    2:{ rewrite refs_allocFrom. intro Hin. apply in_seq in Hin. lia. }
    rewrite fold_updateRef_head.
    + unfold deref in *. cbn [map snd]. now rewrite IH.
    + intro Hin. apply filtered_refs_above in Hin. lia.
  - rewrite fold_updateRef_head.
    + unfold deref in *. cbn [map snd]. now rewrite IH.
    + intro Hin. apply filtered_refs_above in Hin. lia.
Qed.

Lemma flat_map_ext_in {A B} (f g : A -> list B) (l : list A) :
  (forall a, In a l -> f a = g a) -> flat_map f l = flat_map g l.
Proof.
  induction l as [|x l IH]; intros H; simpl; [reflexivity|].
  rewrite (H x) by now left. rewrite IH; [reflexivity|].
  intros a Ha. apply H. now right.
Qed.

Lemma length_filter_drop_one {A} (f : A -> string) (l : list A) (x : A) :
  NoDup (map f l) -> In x l ->
  S (List.length (filter (fun p => negb (String.eqb (f p) (f x))) l))
  = List.length l.
Proof.
  induction l as [|y l IH]; simpl; intros Hnd Hin; [contradiction|].
  inversion Hnd as [|? ? Hy Hl]; subst.
  destruct Hin as [->|Hin].
  - rewrite String.eqb_refl. simpl. f_equal.
    assert (E : filter (fun p => negb (String.eqb (f p) (f x))) l = l).
    { apply forallb_filter_id. apply forallb_forall. intros p Hp.
      apply negb_true_iff, String.eqb_neq. intro Heq. apply Hy.
      rewrite <- Heq. now apply in_map. }
    now rewrite E.
  - destruct (String.eqb_spec (f y) (f x)) as [Heq|Hne]; simpl.
    + exfalso. apply Hy. rewrite Heq. now apply in_map.
    + f_equal. now apply IH.
Qed.

(** ** What a pass makes of one item *)

Lemma settle_other (e : Item.t * Completion PostResult) (log : PassLog)
    (x : Item.t) :
  Item.id (fst e) <> Item.id x -> settle (e :: log) x = settle log x.
Proof.
  intros H. unfold settle. simpl.
  apply String.eqb_neq in H. now rewrite H.
Qed.

Lemma settle_absent (log : PassLog) (x : Item.t) :
  (forall e, In e log -> Item.id (fst e) <> Item.id x) -> settle log x = [x].
Proof.
  induction log as [|e log IH]; intros H; [reflexivity|].
  rewrite settle_other by (apply H; now left).
  apply IH. intros e' He'. apply H. now right.
Qed.

Lemma settle_returned (item x : Item.t) (result : PostResult) (log : PassLog) :
  Item.id item = Item.id x -> settle ((item, Returns result) :: log) x = [].
Proof.
  intros H. unfold settle. simpl. rewrite H. now rewrite String.eqb_refl.
Qed.

Lemma settle_threw (item x : Item.t) (msg : string) (log : PassLog) :
  Item.id item = Item.id x ->
  settle ((item, Throws msg) :: log) x = [Item.markFailed msg x].
Proof.
  intros H. unfold settle. simpl. rewrite H. now rewrite String.eqb_refl.
Qed.

Lemma existsSync_files (p : string) (w w' : World) :
  files w' = files w -> existsSync p w' = existsSync p w.
Proof. unfold existsSync. now intros ->. Qed.

Lemma publishOnce_files (e : Endpoint) (a : Attempt) (w : World) :
  files (snd (publishOnce e a w)) = files w.
Proof. unfold publishOnce. now destruct (fb_publish a). Qed.

Lemma delivered_files (a : Attempt) (res : Completion (option string) * World) :
  files (snd (delivered a res)) = files (snd res).
Proof. now destruct res as [[id|msg] w1]. Qed.

Lemma publish_files (item : Item.t) (mediaPath : option string) (a : Attempt)
    (w : World) :
  files (snd (publish item mediaPath a w)) = files w.
Proof.
  unfold publish. rewrite delivered_files.
  repeat match goal with |- context [if ?c then _ else _] => destruct c end;
    try apply publishOnce_files.
  destruct (postVideoToFacebook_runs a w) as [evs [_ [_ H]]]. exact H.
Qed.

Lemma filter_out_appended (p : string) (l : list string) :
  filter (fun q => negb (String.eqb p q)) (l ++ [p])
  = filter (fun q => negb (String.eqb p q)) l.
Proof.
  rewrite filter_app. simpl. rewrite String.eqb_refl. simpl.
  apply app_nil_r.
Qed.

Lemma existsb_filter_out (p lp : string) (l : list string) :
  existsb (String.eqb p) (filter (fun q => negb (String.eqb lp q)) l)
  = existsb (String.eqb p) l && negb (String.eqb p lp).
Proof.
  induction l as [|x l IH]; simpl; [reflexivity|].
  destruct (String.eqb_spec lp x) as [->|Hne]; simpl.
  - rewrite IH. destruct (String.eqb_spec p x) as [->|Hpx]; simpl.
    + now rewrite andb_false_r.
    + reflexivity.
  - rewrite IH. destruct (String.eqb_spec p x) as [->|Hpx]; simpl.
    + destruct (String.eqb_spec x lp) as [->|_]; [congruence|reflexivity].
    + reflexivity.
Qed.

Section MoreDelivery.

Variable dirname : string.

Lemma downloadPath_under_temp (a : Attempt) (filePath : string) :
  JS.includes (downloadPath dirname a filePath) (TEMP_DIR dirname) = true /\
  downloadPath dirname a filePath <> "".
Proof.
  split.
  - unfold downloadPath. apply includes_prefix.
  - unfold downloadPath, TEMP_DIR.
    destruct dirname; discriminate.
Qed.

(** The files one attempt leaves: those it found, or those it found less
    the path of its own download. *)
Lemma postToFacebook_files (item : Item.t) (config : Config.t) (a : Attempt)
    (w : World) :
  files (snd (postToFacebook dirname item config a w)) = files w \/
  exists filePath,
    tg_info a = InfoOk filePath /\
    files (snd (postToFacebook dirname item config a w))
    = filter (fun q => negb (String.eqb (downloadPath dirname a filePath) q))
             (files w).
Proof.
  unfold postToFacebook.
  destruct (Config.dry_run config); [now left|].
  destruct (negb (valid (validateConfig config))); [now left|].
  destruct (checkRateLimit (clock_gate a) w); [|now left].
  unfold deliver.
  destruct (JS.truthy (Item.telegramFileId item)
            && JS.truthy (Config.bot_token config)).
  - unfold downloadTelegramFile.
    destruct (tg_info a) as [filePath| |msg]; try (now left).
    destruct (tg_file a) as [|code|msg]; try (now left).
    fold (downloadPath dirname a filePath).
    set (lp := downloadPath dirname a filePath).
    set (w1 := writeFileSync lp (emit (EvNet TgDownload) (emit (EvNet TgGetFile) w))).
    destruct (publish item (Some lp) a w1) as [res w2] eqn:E.
    assert (Hf : files w2 = files w1)
      by (change w2 with (snd (res, w2)); rewrite <- E; apply publish_files).
    right. exists filePath. split; [reflexivity|]. cbn [snd].
    assert (Hex : existsSync lp w2 = true).
    { rewrite (@existsSync_files lp w1 w2 Hf). apply existsSync_writeFileSync. }
    unfold cleanupTempFile. rewrite Hex.
    destruct (downloadPath_under_temp a filePath) as [Hin Hne].
    fold lp in Hin, Hne. rewrite Hin.
    apply String.eqb_neq in Hne. rewrite Hne. cbn [negb andb].
    unfold unlinkSync. cbn [files]. rewrite Hf.
    unfold w1, writeFileSync, emit, existsSync. cbn [files].
    destruct (existsb (String.eqb lp) (files w)); [reflexivity|].
    apply filter_out_appended.
  - destruct (publish item (Item.mediaUrl item) a w) as [res w1] eqn:E.
    left. cbn [snd].
    change w1 with (snd (res, w1)). rewrite <- E. apply publish_files.
Qed.

(** X5. An attempt never leaves a file behind that was not there, and the
    only file it can take away is the one at the path of its own Telegram
    download. *)
Theorem attempt_file_frame (item : Item.t) (config : Config.t) (a : Attempt)
    (w : World) (p : string) :
  let w' := snd (postToFacebook dirname item config a w) in
  (existsSync p w' = true -> existsSync p w = true) /\
  ((forall filePath, tg_info a = InfoOk filePath ->
                     p <> downloadPath dirname a filePath) ->
   existsSync p w' = existsSync p w).
Proof.
  intros w'. subst w'.
  destruct (postToFacebook_files item config a w) as [H|[filePath [Hi H]]].
  - rewrite (@existsSync_files p w _ H). tauto.
  - unfold existsSync. rewrite H, existsb_filter_out. split.
    + intros Hx. now apply andb_prop in Hx.
    + intros Hp. specialize (Hp filePath Hi).
      apply String.eqb_neq in Hp. rewrite Hp. apply andb_true_r.
Qed.

(** X6. With nothing to fetch from Telegram, a media URL that is absent, a
    video whose file is not on disk, or a media type that is neither image
    nor video turns the delivery into one plain request to the feed. *)
Theorem media_missing_posts_to_feed (item : Item.t) (config : Config.t)
    (a : Attempt) (w : World) :
  Config.dry_run config = false ->
  valid (validateConfig config) = true ->
  checkRateLimit (clock_gate a) w = Allowed ->
  JS.truthy (Item.telegramFileId item) && JS.truthy (Config.bot_token config)
  = false ->
  (JS.truthy (Item.mediaUrl item) = false \/
   (Item.mediaType item = "video" /\
    forall p, Item.mediaUrl item = Some p -> existsSync p w = false) \/
   (Item.mediaType item <> "video" /\ Item.mediaType item <> "image")) ->
  added w (snd (postToFacebook dirname item config a w)) = [EvNet FbFeed] /\
  fst (postToFacebook dirname item config a w)
  = match fb_publish a with
    | ReplyOk id => Returns (mkPostResult id false)
    | ReplyError msg | NoReply msg => Throws msg
    end.
Proof.
  intros Hdry Hval Hgate Htg Hmedia.
  rewrite (postToFacebook_past_gate dirname item config a w Hdry Hval Hgate).
  unfold deliver. rewrite Htg.
  assert (E : publish item (Item.mediaUrl item) a w
              = delivered a (publishOnce FbFeed a w)).
  { unfold publish.
    destruct Hmedia as [Hno|[[Hv Hdisk]|[Hv Hi]]].
    - rewrite Hno, !andb_false_r. reflexivity.
    - rewrite Hv. cbn [String.eqb Ascii.eqb Bool.eqb andb].
      destruct (Item.mediaUrl item) as [p|] eqn:Em.
      + rewrite (Hdisk p eq_refl), andb_false_r. reflexivity.
      + rewrite andb_false_r. reflexivity.
    - apply String.eqb_neq in Hv, Hi. rewrite Hv, Hi. reflexivity. }
  rewrite E. unfold publishOnce, delivered.
  destruct (fb_publish a) as [id|msg|msg]; cbn [fst snd]; split;
    try reflexivity; apply added_app; reflexivity.
Qed.

(** X7. When the download from Telegram fails the attempt throws
    "Telegram download failed: ...", asks nothing of Facebook, and leaves the
    files and the limiter as they were. *)
Theorem failed_download_stops_attempt (item : Item.t) (config : Config.t)
    (a : Attempt) (w : World) :
  Config.dry_run config = false ->
  valid (validateConfig config) = true ->
  checkRateLimit (clock_gate a) w = Allowed ->
  JS.truthy (Item.telegramFileId item) = true ->
  JS.truthy (Config.bot_token config) = true ->
  downloadFails a = true ->
  let w' := snd (postToFacebook dirname item config a w) in
  (exists msg, fst (postToFacebook dirname item config a w)
               = Throws ("Telegram download failed: " ++ msg)%string) /\
  forallb isTelegramRequest (added w w') = true /\
  added w w' <> [] /\
  files w' = files w /\
  rl_lastPostTime w' = rl_lastPostTime w /\
  store w' = store w.
Proof.
  intros Hdry Hval Hgate Hid Hbot Hfail w'. subst w'.
  rewrite (postToFacebook_past_gate dirname item config a w Hdry Hval Hgate).
  unfold deliver. rewrite Hid, Hbot. cbn [andb].
  unfold downloadFails in Hfail. unfold downloadTelegramFile.
  destruct (tg_info a) as [filePath| |msg]; cbn [fst snd].
  - destruct (tg_file a) as [|code|msg]; [discriminate| |]; cbn [fst snd];
      (split; [eexists; reflexivity|]);
      (rewrite (@added_app w _ [EvNet TgGetFile; EvNet TgDownload])
        by (unfold emit; cbn [trace]; now rewrite <- app_assoc));
      repeat split; discriminate.
  - split; [eexists; reflexivity|].
    rewrite (@added_app w _ [EvNet TgGetFile]) by reflexivity.
    repeat split; discriminate.
  - split; [eexists; reflexivity|].
    rewrite (@added_app w _ [EvNet TgGetFile]) by reflexivity.
    repeat split; discriminate.
Qed.

End MoreDelivery.

(** ** The effect of a pass on the queue *)

Lemma flat_map_of_map {A B C} (f : B -> list C) (g : A -> B) (l : list A) :
  flat_map f (map g l) = flat_map (fun a => f (g a)) l.
Proof. induction l as [|x l IH]; simpl; [reflexivity|]. now rewrite IH. Qed.

Lemma settle_after_removal (item0 : Item.t) (result : PostResult)
    (log : PassLog) (l : list (nat * Item.t)) :
  flat_map (settle log)
    (deref (filter (fun p => negb (String.eqb (Item.id (snd p)) (Item.id item0))) l))
  = flat_map (settle ((item0, Returns result) :: log)) (deref l).
Proof.
  induction l as [|p l IH]; [reflexivity|].
  cbn [filter]. destruct (String.eqb_spec (Item.id (snd p)) (Item.id item0))
    as [Heq|Hne]; cbn [negb deref map flat_map].
  - rewrite settle_returned by (symmetry; exact Heq). exact IH.
  - rewrite settle_other by (cbn [fst]; congruence).
    unfold deref in IH. now rewrite IH.
Qed.

Lemma settle_after_failure (r0 : nat) (item0 : Item.t) (msg : string)
    (log : PassLog) (l : list (nat * Item.t)) :
  NoDup (map fst l) ->
  NoDup (map Item.id (deref l)) ->
  In (r0, item0) l ->
  (forall e, In e log -> Item.id (fst e) <> Item.id item0) ->
  flat_map (settle log) (deref (updateRef r0 (Item.markFailed msg) l))
  = flat_map (settle ((item0, Throws msg) :: log)) (deref l).
Proof.
  intros Hrefs Hids Hin Hlog.
  unfold deref, updateRef. rewrite map_map, !flat_map_of_map.
  apply flat_map_ext_in. intros p Hp.
  destruct (Nat.eqb_spec (fst p) r0) as [Heq|Hne]; cbn [snd].
  - assert (p = (r0, item0))
      by (apply (NoDup_map_inj fst l p (r0, item0) Hrefs Hp Hin); exact Heq).
    subst p. cbn [snd].
    rewrite settle_threw by reflexivity.
    apply settle_absent. exact Hlog.
  - rewrite settle_other; [reflexivity|]. cbn [fst]. intro Hid.
    apply Hne. rewrite ids_deref in Hids.
    assert (E : (r0, item0) = p)
      by (apply (NoDup_map_inj (fun q : nat * Item.t => Item.id (snd q)) l
                   (r0, item0) p Hids Hin Hp); exact Hid).
    now subst p.
Qed.

Section MorePasses.

Variable dirname : string.

Lemma postToFacebook_real (item : Item.t) (config : Config.t) (a : Attempt)
    (w : World) (r : PostResult) :
  Config.dry_run config = false ->
  fst (postToFacebook dirname item config a w) = Returns r ->
  valid (validateConfig config) = true /\
  checkRateLimit (clock_gate a) w = Allowed /\
  r_dryRun r = false /\
  rl_lastPostTime (snd (postToFacebook dirname item config a w)) = clock_done a.
Proof.
  intros Hdry Hr.
  destruct (valid (validateConfig config)) eqn:Hval.
  2:{ rewrite (postToFacebook_config_error dirname item config a w Hdry Hval)
        in Hr. discriminate. }
  destruct (checkRateLimit (clock_gate a) w) as [|wt m] eqn:Hgate.
  2:{ rewrite (postToFacebook_rate_limited dirname item config a w Hdry Hval Hgate)
        in Hr. discriminate. }
  split; [reflexivity|]. split; [reflexivity|].
  rewrite (postToFacebook_past_gate dirname item config a w Hdry Hval Hgate)
    in Hr |- *.
  cbn [fst snd] in *.
  destruct (deliver_runs dirname item config a w) as (e & evs & _ & H).
  rewrite Hr in H. destruct H as [Hd Hrl]. split; [exact Hd|].
  destruct (snd (fst (deliver dirname item config a w))) as [p|]; [|exact Hrl].
  destruct (runs_cleanupTempFile dirname p (snd (deliver dirname item config a w)))
    as (evs' & _ & Hrl' & _).
  now rewrite Hrl'.
Qed.

Lemma processLoop_bookkeeping (config : Config.t) (now : Z)
    (oracle : nat -> Attempt) (due : list (nat * Item.t)) :
  forall (k : nat) (m : Mem) (w : World),
    m_posted (snd (fst (processLoop dirname config now oracle k due m w)))
    = m_posted m
      ++ deliveredOf now (fst (fst (processLoop dirname config now oracle k due m w)))
    /\ m_lastPostTime (snd (fst (processLoop dirname config now oracle k due m w)))
       = m_lastPostTime m.
Proof.
  induction due as [|[r0 item0] rest IH]; intros k m w; simpl.
  - split; [now rewrite app_nil_r | reflexivity].
  - destruct (postToFacebook dirname item0 config (oracle k) w) as [res w1].
    specialize (IH (S k)
                  match res with
                  | Returns result => onPosted now result item0 m
                  | Throws msg => onFailed msg r0 m
                  end w1).
    destruct (processLoop _ _ _ _ _ _ _ _) as [[log m2] w2]. simpl in *.
    destruct IH as [IH1 IH2]. rewrite IH1, IH2.
    destruct res; simpl; [|tauto].
    rewrite <- app_assoc. tauto.
Qed.

Lemma processLoop_pending (config : Config.t) (now : Z)
    (oracle : nat -> Attempt) (due : list (nat * Item.t)) :
  forall (k : nat) (m : Mem) (w : World),
    coherent due m ->
    deref (m_pending (snd (fst (processLoop dirname config now oracle k due m w))))
    = flat_map (settle (fst (fst (processLoop dirname config now oracle k due m w))))
               (deref (m_pending m)).
Proof.
  induction due as [|[r0 item0] rest IH]; intros k m w Hc.
  - simpl. unfold deref. induction (m_pending m) as [|p l IHl];
      [reflexivity|]. simpl. now rewrite <- IHl.
  - pose proof Hc as (Hrefs & Hids & Hincl & Hdue).
    assert (Hh : In (r0, item0) (m_pending m)) by (apply Hincl; now left).
    simpl.
    destruct (postToFacebook dirname item0 config (oracle k) w) as [res w1].
    destruct res as [result|msg0].
    + specialize (IH (S k) (onPosted now result item0 m) w1
                     (coherent_posted now result Hc)).
      destruct (processLoop _ _ _ _ _ _ _ _) as [[log m2] w2]. simpl in *.
      rewrite IH. apply settle_after_removal.
    + specialize (IH (S k) (onFailed msg0 r0 m) w1 (coherent_failed msg0 Hc)).
      destruct (processLoop_log dirname config now oracle rest (S k)
                  (onFailed msg0 r0 m) w1) as [Hlog _].
      destruct (processLoop _ _ _ _ _ _ _ _) as [[log m2] w2]. simpl in *.
      rewrite IH. apply settle_after_failure; try assumption.
      intros e He. apply (in_map fst) in He. rewrite Hlog in He.
      apply in_map_iff in He as [p [Hp Hin]].
      destruct (coherent_distinct p Hc Hin) as [_ Hne]. now rewrite <- Hp.
Qed.

Lemma processLoop_count (config : Config.t) (now : Z)
    (oracle : nat -> Attempt) (due : list (nat * Item.t)) :
  forall (k : nat) (m : Mem) (w : World),
    coherent due m ->
    (List.length (m_pending (snd (fst (processLoop dirname config now oracle k due m w))))
     + List.length (m_posted (snd (fst (processLoop dirname config now oracle k due m w))))
     = List.length (m_pending m) + List.length (m_posted m))%nat.
Proof.
  induction due as [|[r0 item0] rest IH]; intros k m w Hc.
  - reflexivity.
  - pose proof Hc as (Hrefs & Hids & Hincl & Hdue).
    assert (Hh : In (r0, item0) (m_pending m)) by (apply Hincl; now left).
    simpl.
    destruct (postToFacebook dirname item0 config (oracle k) w) as [res w1].
    destruct res as [result|msg0].
    + specialize (IH (S k) (onPosted now result item0 m) w1
                     (coherent_posted now result Hc)).
      destruct (processLoop _ _ _ _ _ _ _ _) as [[log m2] w2]. simpl in *.
      rewrite IH. rewrite length_app. simpl.
      rewrite ids_deref in Hids.
      pose proof (length_filter_drop_one
                    (fun p : nat * Item.t => Item.id (snd p))
                    (m_pending m) (r0, item0) Hids Hh) as Hlen.
      simpl in Hlen. lia.
    + specialize (IH (S k) (onFailed msg0 r0 m) w1 (coherent_failed msg0 Hc)).
      destruct (processLoop _ _ _ _ _ _ _ _) as [[log m2] w2]. simpl in *.
      rewrite IH. unfold updateRef. now rewrite length_map.
Qed.

(** X8. A pass only ever appends to [posted]: the items it delivered, in
    the order of delivery, each stamped with the time of the pass and the id
    Facebook gave; [lastPostTime] of the queue is never written. *)
Theorem pass_appends_to_posted (config : Config.t) (now : Z)
    (oracle : nat -> Attempt) (w : World) :
  let log := fst (processScheduledPosts dirname config now oracle w) in
  let w' := snd (processScheduledPosts dirname config now oracle w) in
  Queue.posted (loadQueue w')
  = Queue.posted (loadQueue w) ++ deliveredOf now log /\
  Queue.lastPostTime (loadQueue w') = Queue.lastPostTime (loadQueue w) /\
  (forall x, In x (deliveredOf now log) ->
             Item.status x = posted_st /\ Item.postedAt x = Some now /\
             isDue now x = true).
Proof.
  intros log w'. subst log w'.
  rewrite processScheduledPosts_loop. cbv zeta.
  set (m := fromQueue (loadQueue w)).
  destruct (processLoop_bookkeeping config now oracle (duePosts now m) 0 m w)
    as [H1 H2].
  destruct (processLoop_log dirname config now oracle (duePosts now m) 0 m w)
    as [Hlog _].
  destruct (processLoop dirname config now oracle 0 (duePosts now m) m w)
    as [[log m'] w1]. simpl in *.
  split; [exact H1|]. split; [exact H2|].
  intros x Hx. unfold deliveredOf in Hx. apply in_flat_map in Hx as [e [He Hx]].
  destruct e as [item [result|msg]]; simpl in Hx; [|contradiction].
  destruct Hx as [<-|[]].
  split; [reflexivity|]. split; [reflexivity|].
  apply (in_map fst) in He. rewrite Hlog in He. unfold m in He.
  rewrite deref_duePosts in He. apply filter_In in He as [_ He].
  exact He.
Qed.

(** X9. When the ids of the pending items are distinct, the pending array
    a pass writes is the old one, in its order, with every delivered item
    gone, every item whose delivery threw marked failed with the message, and
    every item that was not due exactly as it was. *)
Theorem pass_settles_pending (config : Config.t) (now : Z)
    (oracle : nat -> Attempt) (w : World) :
  NoDup (map Item.id (Queue.pending (loadQueue w))) ->
  let log := fst (processScheduledPosts dirname config now oracle w) in
  let w' := snd (processScheduledPosts dirname config now oracle w) in
  Queue.pending (loadQueue w')
  = flat_map (settle log) (Queue.pending (loadQueue w)) /\
  (forall item, In item (Queue.pending (loadQueue w)) ->
                isDue now item = false -> settle log item = [item]) /\
  (forall item, In item (Queue.pending (loadQueue w)) ->
                isDue now item = true ->
                exists res, In (item, res) log /\
                  settle log item
                  = match res with
                    | Returns _ => []
                    | Throws msg => [Item.markFailed msg item]
                    end).
Proof.
  intros Hids log w'. subst log w'.
  rewrite processScheduledPosts_loop. cbv zeta.
  set (m := fromQueue (loadQueue w)).
  pose proof (coherent_start now (loadQueue w) Hids) as Hc. fold m in Hc.
  pose proof (processLoop_pending config now oracle 0 w Hc) as Hp.
  destruct (processLoop_log dirname config now oracle (duePosts now m) 0 m w)
    as [Hlog _].
  destruct (processLoop dirname config now oracle 0 (duePosts now m) m w)
    as [[log m'] w1]. simpl in *.
  unfold m in Hlog. rewrite deref_duePosts in Hlog.
  assert (Hd : deref (alloc (Queue.pending (loadQueue w)))
               = Queue.pending (loadQueue w)).
  { unfold alloc. apply deref_allocFrom. }
  rewrite Hd in Hp.
  split; [exact Hp|]. split.
  - intros item Hin Hnd. apply settle_absent. intros e He Hid.
    apply (in_map fst) in He. rewrite Hlog in He.
    apply filter_In in He as [He Hdue].
    assert (fst e = item)
      by (apply (NoDup_map_inj Item.id _ (fst e) item Hids He Hin Hid)).
    subst item. congruence.
  - intros item Hin Hdue.
    assert (Hl : In item (map fst log))
      by (rewrite Hlog; apply filter_In; now split).
    assert (Hfind : forall l : PassLog,
               incl (map fst l) (Queue.pending (loadQueue w)) ->
               In item (map fst l) ->
               exists res, In (item, res) l /\
                 find (fun e => String.eqb (Item.id (fst e)) (Item.id item)) l
                 = Some (item, res)).
    { induction l as [|[x res] l IHl]; intros Hincl Hx; [contradiction|].
      simpl. destruct (String.eqb_spec (Item.id x) (Item.id item)) as [Heq|Hne].
      - assert (x = item).
        { apply (NoDup_map_inj Item.id _ x item Hids); auto.
          apply Hincl. now left. }
        subst x. exists res. split; [now left | reflexivity].
      - destruct Hx as [Hx|Hx]; [simpl in Hx; congruence|].
        destruct IHl as [res' [H1 H2]]; auto.
        + intros y Hy. apply Hincl. now right.
        + exists res'. split; [now right | exact H2]. }
    destruct (Hfind log) as [res [Hres Hf]]; auto.
    { rewrite Hlog. intros y Hy. now apply filter_In in Hy. }
    exists res. split; [exact Hres|]. unfold settle. rewrite Hf.
    destruct res; reflexivity.
Qed.

(** X10. When the ids of the pending items are distinct a pass neither
    loses nor duplicates an item: pending and posted together keep their
    number. *)
Theorem pass_conserves_items (config : Config.t) (now : Z)
    (oracle : nat -> Attempt) (w : World) :
  NoDup (map Item.id (Queue.pending (loadQueue w))) ->
  let w' := snd (processScheduledPosts dirname config now oracle w) in
  (List.length (Queue.pending (loadQueue w'))
   + List.length (Queue.posted (loadQueue w'))
   = List.length (Queue.pending (loadQueue w))
     + List.length (Queue.posted (loadQueue w)))%nat.
Proof.
  intros Hids w'. subst w'.
  rewrite processScheduledPosts_loop. cbv zeta.
  set (m := fromQueue (loadQueue w)).
  pose proof (coherent_start now (loadQueue w) Hids) as Hc. fold m in Hc.
  pose proof (processLoop_count config now oracle 0 w Hc) as Hn.
  destruct (processLoop dirname config now oracle 0 (duePosts now m) m w)
    as [[log m'] w1]. simpl in *.
  unfold deref. rewrite length_map, Hn.
  unfold alloc. f_equal.
  rewrite <- (length_map fst), refs_allocFrom. apply length_seq.
Qed.

Lemma processLoop_hot (config : Config.t) (now : Z) (oracle : nat -> Attempt)
    (due : list (nat * Item.t)) :
  Config.dry_run config = false ->
  valid (validateConfig config) = true ->
  forall (k : nat) (m : Mem) (w : World),
    (forall i, (k <= i)%nat ->
               clock_gate (oracle i) - rl_lastPostTime w < 60000) ->
    Forall (fun e => exists waitTime,
              snd e = Throws ("Rate limit exceeded. Please wait "
                              ++ JS.toString waitTime
                              ++ " seconds before next post.")%string)
           (fst (fst (processLoop dirname config now oracle k due m w))).
Proof.
  intros Hdry Hval.
  induction due as [|[r0 item0] rest IH]; intros k m w Hhot; simpl.
  - constructor.
  - assert (E : postToFacebook dirname item0 config (oracle k) w
                = (Throws ("Rate limit exceeded. Please wait "
                           ++ JS.toString
                                (ceilSeconds
                                   (minInterval
                                    - (clock_gate (oracle k) - rl_lastPostTime w)))
                           ++ " seconds before next post.")%string, w)).
    { apply postToFacebook_rate_limited
        with (waitTime := ceilSeconds
                            (minInterval
                             - (clock_gate (oracle k) - rl_lastPostTime w)));
        try assumption.
      unfold checkRateLimit.
      destruct (Z.ltb_spec (clock_gate (oracle k) - rl_lastPostTime w) minInterval)
        as [_|Hge]; [reflexivity|].
      specialize (Hhot k (le_n k)). unfold minInterval in Hge. lia. }
    rewrite E.
    specialize (IH (S k) (onFailed
                 ("Rate limit exceeded. Please wait "
                  ++ JS.toString
                       (ceilSeconds
                          (minInterval
                           - (clock_gate (oracle k) - rl_lastPostTime w)))
                  ++ " seconds before next post.")%string r0 m) w).
    destruct (processLoop _ _ _ _ _ _ _ _) as [[log m2] w2]. simpl in *.
    constructor.
    + eexists. reflexivity.
    + apply IH. intros i Hi. apply Hhot. lia.
Qed.

Lemma throws_deliver_nothing (now : Z) (log : PassLog) :
  Forall (fun e => exists waitTime,
            snd e = Throws ("Rate limit exceeded. Please wait "
                            ++ JS.toString waitTime
                            ++ " seconds before next post.")%string) log ->
  deliveredOf now log = [].
Proof.
  induction 1 as [|e l [wt He] _ IH]; [reflexivity|].
  unfold deliveredOf in *. simpl. rewrite He. exact IH.
Qed.

Lemma processLoop_cold (config : Config.t) (now : Z) (oracle : nat -> Attempt)
    (due : list (nat * Item.t)) :
  Config.dry_run config = false ->
  (forall j i, (j < i)%nat ->
               clock_gate (oracle i) - clock_done (oracle j) < 60000) ->
  forall (k : nat) (m : Mem) (w : World),
    (List.length
       (deliveredOf now (fst (fst (processLoop dirname config now oracle k due m w))))
     <= 1)%nat /\
    forall l1 item r l2,
      fst (fst (processLoop dirname config now oracle k due m w))
      = l1 ++ (item, Returns r) :: l2 ->
      Forall (fun e => exists waitTime,
                snd e = Throws ("Rate limit exceeded. Please wait "
                                ++ JS.toString waitTime
                                ++ " seconds before next post.")%string) l2.
Proof.
  intros Hdry Hclk.
  induction due as [|[r0 item0] rest IH]; intros k m w; simpl.
  - split; [simpl; lia|]. intros [|e l1] item r l2 H; discriminate.
  - pose proof (@postToFacebook_real item0 config (oracle k) w) as Hreal.
    destruct (postToFacebook dirname item0 config (oracle k) w) as [res w1].
    destruct res as [result|msg0].
    + destruct (Hreal result Hdry eq_refl) as (Hval & _ & _ & Hrl).
      cbn [snd] in Hrl.
      pose proof (@processLoop_hot config now oracle rest Hdry Hval (S k)
                    (onPosted now result item0 m) w1) as Hhot.
      destruct (processLoop _ _ _ _ _ _ _ _) as [[log m2] w2]. simpl in *.
      assert (Hall : Forall (fun e => exists waitTime,
                snd e = Throws ("Rate limit exceeded. Please wait "
                                ++ JS.toString waitTime
                                ++ " seconds before next post.")%string) log).
      { apply Hhot. intros i Hi. rewrite Hrl. apply Hclk. lia. }
      split.
      * unfold deliveredOf. simpl. fold (deliveredOf now log).
        rewrite (throws_deliver_nothing now Hall). simpl. lia.
      * intros [|e l1] item r l2 H; simpl in H.
        -- inversion H; subst. exact Hall.
        -- inversion H; subst. apply Forall_app in Hall as [_ Hall].
           now inversion Hall.
    + specialize (IH (S k) (onFailed msg0 r0 m) w1).
      destruct (processLoop _ _ _ _ _ _ _ _) as [[log m2] w2]. simpl in *.
      destruct IH as [IH1 IH2]. split.
      * exact IH1.
      * intros [|e l1] item r l2 H; simpl in H; [discriminate|].
        inversion H; subst. eapply IH2. reflexivity.
Qed.

(** X11. In a pass that is not a dry run and whose deliveries all start
    within a minute of the end of every earlier one, at most one item is
    delivered: every due item after the first delivered one throws the rate
    limit error (and is marked failed). *)
Theorem pass_delivers_once_per_minute (config : Config.t) (now : Z)
    (oracle : nat -> Attempt) (w : World) :
  Config.dry_run config = false ->
  (forall j i, (j < i)%nat ->
               clock_gate (oracle i) - clock_done (oracle j) < 60000) ->
  let log := fst (processScheduledPosts dirname config now oracle w) in
  (List.length (deliveredOf now log) <= 1)%nat /\
  forall l1 item r l2,
    log = l1 ++ (item, Returns r) :: l2 ->
    Forall (fun e => exists waitTime,
              snd e = Throws ("Rate limit exceeded. Please wait "
                              ++ JS.toString waitTime
                              ++ " seconds before next post.")%string) l2.
Proof.
  intros Hdry Hclk log. subst log.
  rewrite processScheduledPosts_loop. cbv zeta. cbn [fst].
  apply processLoop_cold; assumption.
Qed.

Lemma processLoop_config_error (config : Config.t) (now : Z)
    (oracle : nat -> Attempt) (due : list (nat * Item.t)) :
  Config.dry_run config = false ->
  valid (validateConfig config) = false ->
  let msg := ("Config error: "
              ++ JS.join ", " (errors (validateConfig config)))%string in
  forall (k : nat) (m : Mem) (w : World),
    processLoop dirname config now oracle k due m w
    = (map (fun p => (snd p, Throws msg)) due,
       mkMem (fold_left (fun acc p => updateRef (fst p) (Item.markFailed msg) acc)
                        due (m_pending m))
             (m_posted m) (m_lastPostTime m) (m_postedHashes m),
       w).
Proof.
  intros Hdry Hval msg.
  induction due as [|[r0 item0] rest IH]; intros k m w; simpl.
  - now destruct m.
  - rewrite (postToFacebook_config_error dirname item0 config (oracle k) w Hdry Hval).
    fold msg. rewrite IH. reflexivity.
Qed.

(** X12. With a configuration that [validateConfig] rejects (and no dry
    run), a pass sends nothing: every due item is marked failed with the
    configuration error, in place, and everything else in the queue is
    written back as it was read. *)
Theorem pass_with_invalid_config (config : Config.t) (now : Z)
    (oracle : nat -> Attempt) (w : World) :
  Config.dry_run config = false ->
  valid (validateConfig config) = false ->
  let msg := ("Config error: "
              ++ JS.join ", " (errors (validateConfig config)))%string in
  let q := loadQueue w in
  processScheduledPosts dirname config now oracle w
  = (map (fun item => (item, Throws msg)) (filter (isDue now) (Queue.pending q)),
     saveQueue
       (Queue.mk
          (map (fun item => if isDue now item then Item.markFailed msg item
                            else item)
               (Queue.pending q))
          (Queue.posted q) (Queue.lastPostTime q) (Queue.postedHashes q))
       w).
Proof.
  intros Hdry Hval msg q.
  unfold processScheduledPosts.
  rewrite (processLoop_config_error config now oracle _ Hdry Hval). fold msg.
  fold q. unfold toQueue, fromQueue, duePosts, alloc. cbn [m_pending m_posted
    m_lastPostTime m_postedHashes].
  rewrite (fold_updateRef_filter (Item.markFailed msg) (isDue now)).
  f_equal.
  rewrite <- (@deref_allocFrom _ (Queue.pending q) 0%nat) at 2.
  unfold deref.
  induction (allocFrom 0 (Queue.pending q)) as [|p l IH]; [reflexivity|].
  simpl. destruct (isDue now (snd p)); simpl; now rewrite IH.
Qed.

End MorePasses.

(** ** The scheduler, once more *)

Lemma wall_split (wall : Z) :
  dayOf wall * msPerDay + minuteOfDay wall * msPerMinute <= wall
  < dayOf wall * msPerDay + (minuteOfDay wall + 1) * msPerMinute /\
  0 <= minuteOfDay wall < 1440.
Proof.
  unfold dayOf, minuteOfDay, msPerDay, msPerMinute.
  Z.to_euclidean_division_equations. lia.
Qed.

Lemma validSlot_bounds (s : string) (hour minute : Z) :
  validSlot s = true -> slotOf s = (Some hour, Some minute) ->
  0 <= hour < 24 /\ 0 <= minute < 60.
Proof.
  unfold validSlot. intros H E. rewrite E in H.
  apply andb_prop in H as [H H4]. apply andb_prop in H as [H H3].
  apply andb_prop in H as [H1 H2]. lia.
Qed.

Lemma loadQueue_saved (q : Queue.t) (w : World) :
  loadQueue (saveQueue q w) = q.
Proof. reflexivity. Qed.

Lemma Forall2_slotGiven_refl (l : list Item.t) : Forall2 slotGiven l l.
Proof. induction l; constructor; auto. now left. Qed.

Section MoreScheduler.

Variable localOffset : Z -> bool -> Z.
Variable zoneOffset : string -> Z -> option Z.

(** X13. In a process whose zone never changes its offset, and with a
    non-empty list of well-formed slots: when the configured name is not a
    time zone the scheduler throws; otherwise it finds a slot, which read in
    the zone of the process lies on a whole minute, strictly after the wall
    clock of the configured zone and at most a day after it.  As an instant
    the slot is therefore displaced from [now] by the difference of the two
    offsets, and lies in the next 24 hours when they agree. *)
Theorem next_slot_within_a_day (config : Config.t) (now offset : Z) :
  (forall t isUTC, localOffset t isUTC = offset) ->
  Config.post_times config <> [] ->
  forallb validSlot (Config.post_times config) = true ->
  match zoneOffset (zoneName config) now with
  | None =>
      exists msg,
        getNextScheduleTime localOffset zoneOffset config now = Throws msg
  | Some zone =>
      exists r,
        getNextScheduleTime localOffset zoneOffset config now = Returns r /\
        now + (zone - offset) < r <= now + (zone - offset) + msPerDay /\
        localTime localOffset r mod msPerMinute = 0 /\
        (zone = offset -> now < r <= now + msPerDay)
  end.
Proof.
  intros Hfixed Hne Hv.
  destruct (zoneOffset (zoneName config) now) as [zone|] eqn:Hz.
  2:{ unfold getNextScheduleTime, tzDate. fold (zoneName config).
      rewrite Hz. eexists. reflexivity. }
  pose proof (@getNextScheduleTime_wall localOffset zoneOffset offset Hfixed
                config now zone Hz) as E.
  cbv zeta in E.
  pose proof (wall_split (now + zone)) as [Hw Hmd].
  set (wall := now + zone) in *.
  assert (Hmin : forall d h m,
             localTime localOffset (atDay d h m - offset) mod msPerMinute = 0).
  { intros d h m. unfold localTime. rewrite Hfixed.
    unfold atDay, msPerDay, msPerHour, msPerMinute.
    replace (d * 86400000 + h * 3600000 + m * 60000 - offset + offset)
      with ((d * 1440 + h * 60 + m) * 60000) by ring.
    apply Z.mod_mul. lia. }
  destruct (firstLater (minuteOfDay wall) (Config.post_times config))
    as [[hour minute]|] eqn:Hf.
  - destruct (firstLater_found _ _ Hv Hf)
      as (before & slot & after & Ht & _ & Hs & Hlt).
    assert (Hvs : validSlot slot = true).
    { rewrite forallb_forall in Hv. apply Hv. rewrite Ht.
      apply in_or_app. right. now left. }
    destruct (validSlot_bounds slot Hvs Hs) as [Hh Hm].
    unfold slotMinutes in Hlt. rewrite Hs in Hlt.
    exists (atDay (dayOf wall) hour minute - offset).
    split; [exact E|].
    assert (B : now + (zone - offset) < atDay (dayOf wall) hour minute - offset
                <= now + (zone - offset) + msPerDay).
    { unfold atDay, wall in *. unfold msPerDay, msPerHour, msPerMinute in *.
      lia. }
    split; [exact B|]. split; [apply Hmin|].
    intros Hzo. rewrite Hzo in B. lia.
  - destruct (Config.post_times config) as [|first rest] eqn:Ht;
      [contradiction|].
    pose proof (firstLater_none _ _ Hv Hf) as Hall.
    inversion Hall as [|? ? Hfirst _]; subst.
    pose proof Hv as Hv'. simpl in Hv'. apply andb_prop in Hv' as [Hvs _].
    pose proof Hvs as Hvs'. unfold validSlot in Hvs'.
    destruct (slotOf first) as [[h|] [m|]] eqn:Hs; try discriminate.
    destruct (validSlot_bounds first Hvs Hs) as [Hh Hm].
    unfold slotMinutes in Hfirst. rewrite Hs in Hfirst.
    exists (atDay (dayOf wall + 1) h m - offset).
    split; [exact E|].
    assert (B : now + (zone - offset) < atDay (dayOf wall + 1) h m - offset
                <= now + (zone - offset) + msPerDay).
    { unfold atDay, wall in *. unfold msPerDay, msPerHour, msPerMinute in *.
      lia. }
    split; [exact B|]. split; [apply Hmin|].
    intros Hzo. rewrite Hzo in B. lia.
Qed.

Lemma scheduleLoop_slotGiven (config : Config.t) (clock : nat -> Z)
    (original : list (nat * Item.t)) (toSchedule : list (nat * Item.t)) :
  forall (k : nat) (pending pending' : list (nat * Item.t)),
    Forall (fun p0 => In (fst p0) (map fst toSchedule) ->
                      Item.scheduledFor (snd p0) = None) original ->
    Forall2 (fun p0 p => fst p0 = fst p /\ slotGiven (snd p0) (snd p))
            original pending ->
    scheduleLoop localOffset zoneOffset config clock k toSchedule pending
    = Returns pending' ->
    Forall2 (fun p0 p => fst p0 = fst p /\ slotGiven (snd p0) (snd p))
            original pending'.
Proof.
  induction toSchedule as [|[r it] rest IH]; intros k pending pending' Hun H2 E;
    simpl in E.
  - now inversion E; subst.
  - destruct (getNextScheduleTime localOffset zoneOffset config (clock k))
      as [s|msg]; [|discriminate].
    apply IH in E; [exact E | |].
    + eapply Forall_impl; [|exact Hun]. intros p0 Hp0 Hin.
      apply Hp0. simpl. now right.
    + clear E IH. unfold updateRef.
      induction H2 as [|p0 p l0 l [Hfst Hg] _ IHl]; simpl; [constructor|].
      inversion Hun as [|? ? Hp0 Hrest]; subst.
      constructor; [|now apply IHl].
      destruct (Nat.eqb_spec (fst p) r) as [Heq|Hne]; [|now split].
      split; [exact Hfst|]. cbn [snd].
      assert (Hnone : Item.scheduledFor (snd p0) = None).
      { apply Hp0. simpl. left. congruence. }
      right. split; [exact Hnone|]. exists s.
      destruct Hg as [->|[_ [s' ->]]]; reflexivity.
Qed.

(** X14. The scheduler never moves a slot: what it writes back differs
    from what it read only in items that had no slot and now have one; posted
    items, the last post time and the hash history are written back as read,
    and when it throws nothing is written at all. *)
Theorem schedulePosts_only_fills_empty_slots (config : Config.t)
    (clock : nat -> Z) (w : World) :
  let q := loadQueue w in
  let w' := snd (schedulePosts localOffset zoneOffset config clock w) in
  let q' := loadQueue w' in
  Forall2 slotGiven (Queue.pending q) (Queue.pending q') /\
  Queue.posted q' = Queue.posted q /\
  Queue.lastPostTime q' = Queue.lastPostTime q /\
  Queue.postedHashes q' = Queue.postedHashes q /\
  (w' = w \/ added w w' = [EvSaveQueue q']) /\
  (forall msg,
     fst (schedulePosts localOffset zoneOffset config clock w) = Throws msg ->
     w' = w).
Proof.
  intros q w' q'. subst w' q'. unfold schedulePosts. fold q.
  destruct (Nat.eqb _ 0).
  { cbn [fst snd]. fold q.
    repeat split; auto using Forall2_slotGiven_refl. }
  destruct (scheduleLoop _ _ _ _ _ _ _) as [pending'|msg] eqn:E.
  2:{ cbn [fst snd]. fold q.
      repeat split; auto using Forall2_slotGiven_refl. }
  cbn [fst snd]. rewrite !loadQueue_saved.
  unfold toQueue. cbn [Queue.pending Queue.posted Queue.lastPostTime
    Queue.postedHashes m_pending m_posted m_lastPostTime m_postedHashes fromQueue].
  split; [|repeat split; auto; try discriminate].
  2:{ right. apply added_app. reflexivity. }
  apply scheduleLoop_slotGiven with (original := alloc (Queue.pending q)) in E.
  - rewrite <- (@deref_allocFrom _ (Queue.pending q) 0%nat) at 1.
    fold (alloc (Queue.pending q)).
    unfold deref. clear -E.
    induction E as [|p0 p l0 l [_ Hg] _ IH]; simpl; constructor; auto.
  - apply Forall_forall. intros p0 Hp0 Hin.
    apply in_map_iff in Hin as [p [Hfst Hp]].
    assert (Hp' : In p (filter (fun p => unscheduled (snd p))
                          (alloc (Queue.pending q)))).
    { unfold JS.slice0 in Hp. cbn [m_pending fromQueue] in Hp.
      destruct (postsPerDay config <? 0); eapply In_firstn; exact Hp. }
    apply filter_In in Hp' as [Hp' Hu].
    assert (p = p0).
    { apply (NoDup_map_inj fst (alloc (Queue.pending q)) p p0); auto.
      apply refs_alloc_NoDup. }
    subst p0. unfold unscheduled in Hu.
    now destruct (Item.scheduledFor (snd p)).
  - cbn [m_pending fromQueue].
    induction (alloc (Queue.pending q)) as [|p l IH]; constructor; auto.
    split; [reflexivity | now left].
Qed.

Lemma schedulePosts_no_slots (config : Config.t) (clock : nat -> Z) (w : World)
    (x : Item.t) :
  Config.post_times config = [] ->
  0 < postsPerDay config ->
  In x (Queue.pending (loadQueue w)) ->
  Item.scheduledFor x = None ->
  exists msg,
    schedulePosts localOffset zoneOffset config clock w = (Throws msg, w).
Proof.
  intros Ht Hn Hin Hx. unfold schedulePosts.
  set (unsched := filter (fun p => unscheduled (snd p))
                    (m_pending (fromQueue (loadQueue w)))).
  assert (Hne : unsched <> []).
  { cbn [m_pending fromQueue] in unsched.
    assert (Hd : In x (deref (alloc (Queue.pending (loadQueue w)))))
      by (unfold alloc; now rewrite deref_allocFrom).
    apply in_map_iff in Hd as [p [Hp Hd]].
    assert (In p unsched).
    { apply filter_In. split; [exact Hd|]. rewrite Hp. unfold unscheduled.
      now rewrite Hx. }
    intro E. rewrite E in H. contradiction. }
  destruct unsched as [|[r it] rest] eqn:Eu; [contradiction|].
  cbn [List.length Nat.eqb].
  unfold JS.slice0. destruct (Z.ltb_spec (postsPerDay config) 0); [lia|].
  destruct (Z.to_nat (postsPerDay config)) as [|n] eqn:En; [lia|].
  cbn [firstn scheduleLoop].
  unfold getNextScheduleTime. rewrite Ht.
  destruct (tzDate _ _ _ _) as [tzNow|msg]; cbn [firstLater];
    eexists; reflexivity.
Qed.

End MoreScheduler.

(** ** The history of hashes, once more *)

Lemma recordHash_grows (h x : string) (hs : option (list string)) :
  (List.length (hashesOf hs) < 1000)%nat ->
  (List.length (hashesOf (recordHash h hs)) <= S (List.length (hashesOf hs)))%nat /\
  (In x (hashesOf hs) -> In x (hashesOf (recordHash h hs))) /\
  (h <> "" -> In h (hashesOf (recordHash h hs))).
Proof.
  intros Hlen. unfold recordHash.
  destruct (String.eqb_spec h "") as [He|Hne]; cbn [negb andb].
  - cbn [hashesOf]. repeat split; auto. congruence.
  - destruct (JS.arrayIncludes (hashesOf hs) h) eqn:Hi; cbn [negb].
    + cbn [hashesOf]. repeat split; auto.
      intros _. now apply arrayIncludes_In.
    + assert (Hl : (1000 <? List.length (hashesOf hs ++ [h]))%nat = false).
      { apply Nat.ltb_ge. rewrite length_app. simpl. lia. }
      rewrite Hl. cbn [hashesOf]. rewrite length_app. simpl.
      repeat split.
      * lia.
      * intros Hx. apply in_or_app. now left.
      * intros _. apply in_or_app. right. now left.
Qed.

Lemma hashesAfter_records (x : string) (log : PassLog) :
  forall hs : option (list string),
    (List.length (hashesOf hs) + List.length log <= 1000)%nat ->
    (In x (hashesOf hs) \/
     exists item result, In (item, Returns result) log /\
                         Item.contentHash item = x /\ x <> "") ->
    In x (hashesOf (hashesAfter log hs)).
Proof.
  unfold hashesAfter.
  induction log as [|[item0 res] log IH]; intros hs Hlen H; simpl.
  - destruct H as [H|(item & r & [] & _)]. exact H.
  - simpl in Hlen.
    assert (Hlt : (List.length (hashesOf hs) < 1000)%nat) by lia.
    destruct res as [result|msg].
    + destruct (recordHash_grows (Item.contentHash item0) x hs Hlt)
        as (Hg & Hk & Ha).
      apply IH; [lia|].
      destruct H as [H|(item & r & [Hin|Hin] & Hh & Hne)].
      * left. now apply Hk.
      * inversion Hin; subst. left. now apply Ha.
      * right. now exists item, r.
    + apply IH; [lia|].
      destruct H as [H|(item & r & [Hin|Hin] & Hh & Hne)].
      * now left.
      * discriminate.
      * right. now exists item, r.
Qed.

(** ** Invariants of the queue *)

Lemma Forall_clearSchedule (P : Item.t -> Prop) (a b : list Item.t) :
  (forall i j, clearSchedule i = clearSchedule j -> P i -> P j) ->
  map clearSchedule a = map clearSchedule b ->
  Forall P a -> Forall P b.
Proof.
  intros HP. revert b.
  induction a as [|x a IH]; intros [|y b] E H; try discriminate; constructor.
  - cbn [map] in E. injection E as E1 E2. inversion H; subst.
    apply (HP x y); [unfold clearSchedule; congruence | assumption].
  - cbn [map] in E. injection E as E1 E2. inversion H; subst. now apply IH.
Qed.

Lemma admissible_clearSchedule (i j : Item.t) :
  clearSchedule i = clearSchedule j -> admissible i -> admissible j.
Proof.
  unfold clearSchedule, admissible. intros E. inversion E.
  destruct i, j; simpl in *; subst. tauto.
Qed.

Lemma waiting_clearSchedule (i j : Item.t) :
  clearSchedule i = clearSchedule j -> waiting i -> waiting j.
Proof.
  unfold clearSchedule, waiting. intros E. inversion E.
  destruct i, j; simpl in *; subst. tauto.
Qed.

Lemma validateInput_admits (content : Content.t) :
  valid (validateInput content) = true ->
  contentText content <> "" /\
  (String.length (contentText content) <= 2200)%nat /\
  In (if JS.truthy (Content.mediaType content)
      then match Content.mediaType content with
           | Some m => m | None => "text" end
      else "text") validMediaTypes.
Proof.
  unfold validateInput, contentText. cbn [valid].
  destruct (Content.text content) as [t|]; [|discriminate].
  destruct (String.eqb_spec t "") as [|Hne]; [discriminate|].
  destruct (Z.gtb_spec (Z.of_nat (String.length t)) 2200) as [|Hle];
    [discriminate|].
  cbn [app].
  destruct (Content.mediaType content) as [m|]; cbn [JS.truthy].
  - destruct (String.eqb_spec m "") as [->|Hm]; cbn [negb andb].
    + intros _. repeat split; auto; try lia. simpl. auto.
    + destruct (JS.arrayIncludes validMediaTypes m) eqn:Hi; cbn [negb];
        [|discriminate].
      intros _. repeat split; auto; try lia.
      apply arrayIncludes_In in Hi.
      exact Hi.
  - intros _. repeat split; auto; try lia. simpl. auto.
Qed.

Lemma Forall_deref_updateRef (P : Item.t -> Prop) (f : Item.t -> Item.t)
    (r : nat) (l : list (nat * Item.t)) :
  (forall x, P x -> P (f x)) ->
  Forall P (deref l) -> Forall P (deref (updateRef r f l)).
Proof.
  intros Hf. unfold deref, updateRef.
  induction l as [|p l IH]; simpl; intros H; [constructor|].
  inversion H; subst. constructor; [|now apply IH].
  destruct (fst p =? r)%nat; simpl; auto.
Qed.

Lemma Forall_deref_filter (P : Item.t -> Prop) (g : nat * Item.t -> bool)
    (l : list (nat * Item.t)) :
  Forall P (deref l) -> Forall P (deref (filter g l)).
Proof.
  unfold deref. induction l as [|p l IH]; simpl; intros H; [constructor|].
  inversion H; subst. destruct (g p); simpl; [constructor|]; auto.
Qed.

Lemma waiting_markFailed (msg : string) (x : Item.t) :
  waiting x -> waiting (Item.markFailed msg x).
Proof.
  unfold waiting. simpl. intros (_ & _ & Hp & Hf).
  repeat split; auto; try discriminate.
Qed.

Section SoundPass.

Variable dirname : string.

Lemma processLoop_sound (config : Config.t) (now : Z) (oracle : nat -> Attempt)
    (due : list (nat * Item.t)) :
  forall (k : nat) (m : Mem) (w : World),
    Forall (fun p => admissible (snd p)) due ->
    sound (toQueue m) ->
    sound (toQueue (snd (fst (processLoop dirname config now oracle k due m w)))).
Proof.
  induction due as [|[r0 item0] rest IH]; intros k m w Hdue Hs; simpl.
  - exact Hs.
  - inversion Hdue as [|? ? Hitem Hrest]; subst. cbn [snd] in Hitem.
    destruct (postToFacebook dirname item0 config (oracle k) w) as [res w1].
    specialize (IH (S k)
                  match res with
                  | Returns result => onPosted now result item0 m
                  | Throws msg => onFailed msg r0 m
                  end w1 Hrest).
    destruct (processLoop _ _ _ _ _ _ _ _) as [[log m2] w2]. simpl in *.
    apply IH. clear IH.
    destruct Hs as (Hw & Ha & Hd & Hpa). unfold sound, toQueue in *.
    simpl in *.
    destruct res as [result|msg]; simpl.
    + repeat split.
      * now apply Forall_deref_filter.
      * now apply Forall_deref_filter.
      * apply Forall_app. split; [exact Hd|]. constructor; [|constructor].
        split; [reflexivity | discriminate].
      * apply Forall_app. split; [exact Hpa|]. constructor; [|constructor].
        exact Hitem.
    + repeat split; auto.
      * apply Forall_deref_updateRef; [|exact Hw].
        intros x. apply waiting_markFailed.
      * apply Forall_deref_updateRef; [|exact Ha]. intros x Hx. exact Hx.
Qed.

Lemma processScheduledPosts_sound (config : Config.t) (now : Z)
    (oracle : nat -> Attempt) (w : World) :
  sound (loadQueue w) ->
  sound (loadQueue (snd (processScheduledPosts dirname config now oracle w))).
Proof.
  intros Hs. rewrite processScheduledPosts_loop. cbv zeta.
  set (m := fromQueue (loadQueue w)).
  assert (Hm : sound (toQueue m)) by (unfold m; now rewrite toQueue_fromQueue).
  assert (Hdue : Forall (fun p => admissible (snd p)) (duePosts now m)).
  { apply Forall_forall. intros p Hp. unfold duePosts in Hp.
    apply filter_In in Hp as [Hp _]. unfold m in Hp. cbn [m_pending fromQueue] in Hp.
    destruct Hs as (_ & Ha & _). rewrite Forall_forall in Ha. apply Ha.
    rewrite <- (@deref_allocFrom _ (Queue.pending (loadQueue w)) 0%nat).
    unfold deref. now apply in_map. }
  pose proof (@processLoop_sound config now oracle (duePosts now m) 0%nat m w
                Hdue Hm) as H.
  destruct (processLoop dirname config now oracle 0 (duePosts now m) m w)
    as [[log m'] w1]. exact H.
Qed.

End SoundPass.

Section SoundScheduler.

Variable localOffset : Z -> bool -> Z.
Variable zoneOffset : string -> Z -> option Z.

Lemma schedulePosts_sound (config : Config.t) (clock : nat -> Z) (w : World) :
  sound (loadQueue w) ->
  sound (loadQueue (snd (schedulePosts localOffset zoneOffset config clock w))).
Proof.
  intros (Hw & Ha & Hd & Hpa).
  destruct (schedulePosts_cases localOffset zoneOffset config clock w)
    as [E|(pending' & E & Hp)]; rewrite E.
  - now repeat split.
  - rewrite loadQueue_saved. unfold sound. cbn [Queue.pending Queue.posted].
    symmetry in Hp.
    repeat split; auto.
    + apply (@Forall_clearSchedule waiting _ _ waiting_clearSchedule Hp Hw).
    + apply (@Forall_clearSchedule admissible _ _ admissible_clearSchedule Hp Ha).
Qed.

End SoundScheduler.

Section MoreIngestion.

Variable sha256hex : string -> string.
Variable localOffset : Z -> bool -> Z.
Variable zoneOffset : string -> Z -> option Z.

Lemma addToQueue_sound (content : Content.t) (config : Config.t) (env : AddEnv)
    (w : World) :
  sound (loadQueue w) ->
  sound (loadQueue
           (snd (addToQueue sha256hex localOffset zoneOffset content config env w))).
Proof.
  intros Hs. unfold addToQueue.
  destruct (valid (validateInput content)) eqn:Hv; cbn [negb]; [|exact Hs].
  unfold isDuplicateContent. cbn [Queue.postedHashes Queue.pending Queue.posted
    Queue.lastPostTime].
  destruct (JS.arrayIncludes _ _); [exact Hs|].
  match goal with
  | |- context [schedulePosts _ _ _ _ (saveQueue ?q1 w)] =>
      pose proof (schedulePosts_sound localOffset zoneOffset config
                    (sched_clock env) (saveQueue q1 w)) as H
  end.
  assert (Hq : sound (loadQueue (saveQueue
             (Queue.mk
                (Queue.pending (loadQueue w)
                 ++ [Item.mk (JS.toString (now_id env)) (Content.source content)
                       (contentText content)
                       (JS.orNull (Content.mediaUrl content))
                       (if JS.truthy (Content.mediaType content)
                        then match Content.mediaType content with
                             | Some m => m | None => "text" end
                        else "text")
                       (JS.orNull (Content.telegramFileId content))
                       (generateContentHash sha256hex (contentText content)
                          (Content.mediaType content))
                       (now_added env) None pending_st None None None])
                (Queue.posted (loadQueue w))
                (Queue.lastPostTime (loadQueue w))
                (Some (hashesOf (Queue.postedHashes (loadQueue w))))) w))).
  { rewrite loadQueue_saved.
    destruct Hs as (Hw & Ha & Hd & Hpa).
    destruct (validateInput_admits content Hv) as (Ht & Hl & Hm).
    unfold sound. cbn [Queue.pending Queue.posted].
    split; [|split; [|split]]; try assumption.
    - apply Forall_app. split; [exact Hw|]. constructor; [|constructor].
      unfold waiting. cbn. repeat split; auto; try discriminate.
      intros H0. congruence.
    - apply Forall_app. split; [exact Ha|]. constructor; [|constructor].
      unfold admissible. cbn. repeat split; assumption. }
  apply H in Hq. clear H. unfold contentText in Hq.
  destruct (schedulePosts _ _ _ _ _) as [[u|msg] w2]; exact Hq.
Qed.

(** X15. With no slot configured ([post_times] empty) an ingestion that
    passes validation and the duplicate guard throws, but only after the new
    item was written to the queue, without a slot; the history of hashes is
    as before, so the same content offered again is stored a second time. *)
Theorem addToQueue_without_slots_keeps_item (content : Content.t)
    (config : Config.t) (env env2 : AddEnv) (w : World) :
  valid (validateInput content) = true ->
  ~ In (generateContentHash sha256hex (contentText content)
          (Content.mediaType content)) (storedHashes w) ->
  Config.post_times config = [] ->
  0 < postsPerDay config ->
  let q := loadQueue w in
  exists item msg,
    Item.text item = contentText content /\
    Item.scheduledFor item = None /\
    Item.id item = JS.toString (now_id env) /\
    addToQueue sha256hex localOffset zoneOffset content config env w
    = (AddThrows msg,
       saveQueue (Queue.mk (Queue.pending q ++ [item]) (Queue.posted q)
                           (Queue.lastPostTime q) (Some (storedHashes w))) w) /\
    exists item2 msg2 w2,
      addToQueue sha256hex localOffset zoneOffset content config env2
        (snd (addToQueue sha256hex localOffset zoneOffset content config env w))
      = (AddThrows msg2, w2) /\
      Item.text item2 = contentText content /\
      Queue.pending (loadQueue w2) = Queue.pending q ++ [item; item2].
Proof.
  intros Hv Hnin Ht Hn q.
  assert (Hstep : forall e w0,
             ~ In (generateContentHash sha256hex (contentText content)
                     (Content.mediaType content)) (storedHashes w0) ->
             exists item msg,
               Item.text item = contentText content /\
               Item.scheduledFor item = None /\
               Item.id item = JS.toString (now_id e) /\
               addToQueue sha256hex localOffset zoneOffset content config e w0
               = (AddThrows msg,
                  saveQueue (Queue.mk (Queue.pending (loadQueue w0) ++ [item])
                                      (Queue.posted (loadQueue w0))
                                      (Queue.lastPostTime (loadQueue w0))
                                      (Some (storedHashes w0))) w0)).
  { intros e w0 H0.
    destruct (@addToQueue_admitted sha256hex localOffset zoneOffset content
                config e w0 Hv H0)
      as (item & q1 & Hid & _ & Htx & _ & Hsch & Hq1 & E).
    assert (Hin : In item (Queue.pending (loadQueue (saveQueue q1 w0)))).
    { rewrite loadQueue_saved, Hq1. cbn [Queue.pending].
      apply in_or_app. right. now left. }
    destruct (@schedulePosts_no_slots localOffset zoneOffset config
                (sched_clock e) (saveQueue q1 w0) item Ht Hn Hin Hsch)
      as [msg Es].
    rewrite Es in E. cbn [fst snd] in E.
    exists item, msg. rewrite E, Hq1. now repeat split. }
  destruct (Hstep env w Hnin) as (item & msg & Htx & Hsch & Hid & E).
  exists item, msg. repeat split; try assumption.
  rewrite E. cbn [snd].
  set (w1 := saveQueue _ w).
  assert (Hnin1 : ~ In (generateContentHash sha256hex (contentText content)
                          (Content.mediaType content)) (storedHashes w1)).
  { unfold storedHashes, w1. rewrite loadQueue_saved. exact Hnin. }
  destruct (Hstep env2 w1 Hnin1) as (item2 & msg2 & Htx2 & _ & _ & E2).
  exists item2, msg2. eexists. split; [exact E2|]. split; [exact Htx2|].
  rewrite loadQueue_saved. cbn [Queue.pending]. unfold w1.
  rewrite loadQueue_saved. cbn [Queue.pending]. now rewrite <- app_assoc.
Qed.

End MoreIngestion.

Section MoreQueue.

Variable sha256hex : string -> string.
Variable dirname : string.
Variable localOffset : Z -> bool -> Z.
Variable zoneOffset : string -> Z -> option Z.

Lemma produced_sound (w : World) :
  Produced sha256hex dirname localOffset zoneOffset w -> sound (loadQueue w).
Proof.
  induction 1 as [w Hw| | |].
  - unfold loadQueue. rewrite Hw. repeat split; constructor.
  - now apply addToQueue_sound.
  - now apply schedulePosts_sound.
  - now apply processScheduledPosts_sound.
Qed.

(** X1. Whatever sequence of ingestions, scheduler runs and passes produced
    the queue, every item in it, pending or posted, is within the limits of
    validation: a non-empty text of at most 2200 characters and a media type
    among text, image and video. *)
Theorem queued_items_pass_validation (w : World) (i : Item.t) :
  Produced sha256hex dirname localOffset zoneOffset w ->
  In i (Queue.pending (loadQueue w) ++ Queue.posted (loadQueue w)) ->
  Item.text i <> "" /\
  (String.length (Item.text i) <= 2200)%nat /\
  (Item.mediaType i = "text" \/ Item.mediaType i = "image"
   \/ Item.mediaType i = "video").
Proof.
  intros Hp Hin. destruct (produced_sound Hp) as (_ & Ha & _ & Hpa).
  rewrite Forall_forall in Ha, Hpa.
  assert (H : admissible i).
  { apply in_app_or in Hin as [Hin|Hin]; auto. }
  destruct H as (H1 & H2 & H3). split; [exact H1|]. split; [exact H2|].
  simpl in H3. intuition congruence.
Qed.

(** X2. In a queue the program produced, a pending item has status pending
    or failed, carries an error message exactly when it is failed, and was
    never stamped as posted; a posted item has status posted and its time of
    posting. *)
Theorem queue_bookkeeping (w : World) :
  Produced sha256hex dirname localOffset zoneOffset w ->
  (forall i, In i (Queue.pending (loadQueue w)) ->
     (Item.status i = pending_st \/ Item.status i = failed_st) /\
     (Item.status i = failed_st <-> Item.error i <> None) /\
     Item.postedAt i = None /\ Item.facebookPostId i = None) /\
  (forall i, In i (Queue.posted (loadQueue w)) ->
     Item.status i = posted_st /\ Item.postedAt i <> None).
Proof.
  intros Hp. destruct (produced_sound Hp) as (Hw & _ & Hd & _).
  rewrite Forall_forall in Hw, Hd. split; intros i Hi.
  - apply (Hw i Hi).
  - apply (Hd i Hi).
Qed.

(** X16. Content that a pass delivered, for real or in a dry run, is
    refused as a duplicate by every later ingestion, as long as its hash is
    not empty and the history has room for the hashes of the pass. *)
Theorem delivered_content_is_refused_later (content : Content.t)
    (config passConfig : Config.t) (env : AddEnv) (now : Z)
    (oracle : nat -> Attempt) (w : World) (item : Item.t)
    (result : PostResult) :
  let pass := processScheduledPosts dirname passConfig now oracle w in
  In (item, Returns result) (fst pass) ->
  Item.contentHash item
  = generateContentHash sha256hex (contentText content)
      (Content.mediaType content) ->
  Item.contentHash item <> "" ->
  (List.length (storedHashes w) + List.length (fst pass) <= 1000)%nat ->
  valid (validateInput content) = true ->
  addToQueue sha256hex localOffset zoneOffset content config env (snd pass)
  = (AddDuplicate, snd pass).
Proof.
  intros pass Hin Hh Hne Hlen Hv.
  apply addToQueue_duplicate; [exact Hv|].
  unfold pass. rewrite storedHashes_after. fold pass. rewrite <- Hh.
  apply hashesAfter_records.
  - cbn [hashesOf]. exact Hlen.
  - right. now exists item, result.
Qed.

End MoreQueue.

(** ** Loading the configuration *)

Lemma found_falsy_resolve (env : string -> option string) (s : string) :
  found env s = Falsy -> resolveValue env s = JStr s /\ resolve env s = s.
Proof.
  unfold resolveValue, resolve, found, lookup, envValue.
  destruct (isPlaceholder s); [|now split].
  destruct (env (placeholderName s)) as [v|].
  - destruct (String.eqb v ""); [now split | discriminate].
  - destruct (JS.arrayIncludes objectPrototype (placeholderName s));
      [discriminate | now split].
Qed.

Lemma found_string_resolve (env : string -> option string) (s : string) :
  found env s <> Member -> resolveValue env s = JStr (resolve env s).
Proof.
  unfold resolveValue, resolve, found, lookup, envValue.
  destruct (isPlaceholder s); [|reflexivity].
  destruct (env (placeholderName s)) as [v|].
  - destruct (String.eqb v ""); reflexivity.
  - destruct (JS.arrayIncludes objectPrototype (placeholderName s));
      [congruence | reflexivity].
Qed.

Lemma replaceValue_untouched (env : string -> option string) :
  forall j,
    Forall (fun s => found env s = Falsy) (stringsOf j) ->
    replaceValue env j = j.
Proof.
  fix IH 1. intros [| b | n | s | items | members |]; simpl; intros H;
    try reflexivity.
  - inversion H; subst. now apply found_falsy_resolve.
  - f_equal. induction items as [|x items IHl]; simpl in *; [reflexivity|].
    apply Forall_app in H as [Hx Hl]. now rewrite IH, IHl.
  - f_equal. induction members as [|[k v] members IHl]; simpl in *;
      [reflexivity|].
    apply Forall_app in H as [Hx Hl]. now rewrite IH, IHl.
Qed.

Lemma strings_of_strings (l : list string) :
  flat_map stringsOf (map JStr l) = l.
Proof. induction l as [|x l IH]; cbn; [reflexivity|]. now rewrite IH. Qed.

Lemma resolve_strings (env : string -> option string) (l : list string) :
  (forall s, In s l -> found env s <> Member) ->
  map (replaceValue env) (map JStr l) = map JStr (map (resolve env) l).
Proof.
  intros H. rewrite !map_map. apply map_ext_in. intros s Hs. cbn.
  apply found_string_resolve. now apply H.
Qed.

Lemma placeholder_not_empty (s : string) : isPlaceholder s = true -> s <> "".
Proof. intros H ->. discriminate. Qed.

(** X17. [replaceEnvVars] looks at every string of the document, at
    whatever depth it sits, and at nothing else.  A document none of whose
    placeholders names a set variable or a member of [Object.prototype]
    comes back as it is.  A placeholder that names such a member, with no
    variable of that name set, is replaced by the member, which is not a
    string.  On the members of [config.json] that the program reads, when
    no placeholder does that, every string is resolved to the value of its
    variable and the numbers, the booleans and the names of the keys are
    left alone. *)
Theorem replaceEnvVars_resolves_every_string (env : string -> option string) :
  (forall j, Forall (fun s => found env s = Falsy) (stringsOf j) ->
             replaceEnvVars env j = j) /\
  (forall key s, found env s = Member ->
                 replaceEnvVars env (JObj [(key, JStr s)])
                 = JObj [(key, JForeign)]) /\
  (forall c, Forall (fun s => found env s <> Member) (stringsOf (toJson c)) ->
             replaceEnvVars env (toJson c) = toJson (resolveConfig env c)).
Proof.
  split; [|split].
  - intros j H. unfold replaceEnvVars.
    destruct j; try reflexivity; now apply replaceValue_untouched.
  - intros key s H. cbn. unfold resolveValue. now rewrite H.
  - intros c H. destruct c as [fb bot dr pt tz ppd].
    unfold replaceEnvVars, toJson, resolveConfig in *.
    cbn [Raw.fb Raw.bot_token Raw.dry_run Raw.post_times Raw.timezone
         Raw.posts_per_day] in *.
    rewrite Forall_forall in H.
    destruct fb as [[[p|] [a|] [v|]]|]; destruct bot as [[b|]|];
      destruct dr as [|fl|s]; destruct tz as [z|]; destruct ppd as [n|];
      cbn in H |- *; rewrite ?app_nil_r, ?strings_of_strings in H;
      rewrite (@resolve_strings env pt)
        by (intros x Hx; apply H; rewrite ?in_app_iff; cbn; tauto);
      repeat match goal with
             | |- context [resolveValue env ?x] =>
                 rewrite (@found_string_resolve env x)
                   by (apply H; rewrite ?in_app_iff; cbn; tauto)
             end;
      reflexivity.
Qed.

(** X18. [loadConfig] ends the process exactly when [config.json] cannot
    be read or parsed, or when a variable of the environment has to be
    written where the file has no place for it: any of the four variables
    when the file has no [settings], [FACEBOOK_PAGE_ID] or
    [FACEBOOK_ACCESS_TOKEN] when it has no [settings.facebook], and
    [TELEGRAM_BOT_TOKEN] when it has no [settings.telegram]. *)
Theorem loadConfig_exits_exactly_when (env : string -> option string)
    (file : option Raw.document) :
  loadConfig env file = None <->
  file = None \/
  (file = Some None /\
   (envValue env "FACEBOOK_PAGE_ID" <> None \/
    envValue env "FACEBOOK_ACCESS_TOKEN" <> None \/
    envValue env "TELEGRAM_BOT_TOKEN" <> None \/
    envValue env "DRY_RUN" <> None)) \/
  exists c, file = Some (Some c) /\
    ((Raw.fb c = None /\
      (envValue env "FACEBOOK_PAGE_ID" <> None \/
       envValue env "FACEBOOK_ACCESS_TOKEN" <> None)) \/
     (Raw.bot_token c = None /\ envValue env "TELEGRAM_BOT_TOKEN" <> None)).
Proof.
  destruct file as [[c|]|]; [| |split; auto].
  - unfold loadConfig, resolveConfig.
    destruct c as [fb bot dr pt tz ppd].
    cbn [Raw.fb Raw.bot_token Raw.dry_run Raw.post_times Raw.timezone
         Raw.posts_per_day].
    destruct (envValue env "FACEBOOK_PAGE_ID") as [v1|];
      destruct (envValue env "FACEBOOK_ACCESS_TOKEN") as [v2|];
      destruct (envValue env "TELEGRAM_BOT_TOKEN") as [v3|];
      destruct fb as [f|]; destruct bot as [b|]; cbn; split;
      try discriminate; try reflexivity.
    all: try (intros _; right; right; eexists; split; [reflexivity|]; cbn;
              first [ left; split; [reflexivity|]; first [left; discriminate
                                                         | right; discriminate]
                    | right; split; [reflexivity | discriminate] ]).
    all: intros [H|[[H _]|(c & Hc & [[Hfb Hv]|[Hb Hv]])]]; try discriminate;
      injection Hc as <-; cbn in *; try discriminate;
      try (destruct Hv as [Hv|Hv]; congruence); congruence.
  - unfold loadConfig, overrides.
    destruct (envValue env "FACEBOOK_PAGE_ID") as [v1|];
      destruct (envValue env "FACEBOOK_ACCESS_TOKEN") as [v2|];
      destruct (envValue env "TELEGRAM_BOT_TOKEN") as [v3|];
      destruct (envValue env "DRY_RUN") as [v4|]; split;
      try discriminate; try reflexivity.
    all: try (intros _; right; left; split; [reflexivity|];
              first [ left; discriminate
                    | right; left; discriminate
                    | right; right; left; discriminate
                    | right; right; right; discriminate ]).
    intros [H|[[_ H]|(c & Hc & _)]]; try discriminate.
    destruct H as [H|[H|[H|H]]]; congruence.
Qed.

(** X19. A variable of the environment wins over the file and over a
    placeholder in it: the page id, the access token and the bot token are
    the values of [FACEBOOK_PAGE_ID], [FACEBOOK_ACCESS_TOKEN] and
    [TELEGRAM_BOT_TOKEN] when these are set and not empty, and any non-empty
    [DRY_RUN] decides the dry run by itself: it is on for the value "true"
    and off for every other value, whatever the file says. *)
Theorem environment_overrides_file (env : string -> option string)
    (c loaded : Raw.t) :
  loadConfig env (Some (Some c)) = Some (Some loaded) ->
  (forall v, envValue env "FACEBOOK_PAGE_ID" = Some v ->
             Config.page_id (settingsOf loaded) = Some v) /\
  (forall v, envValue env "FACEBOOK_ACCESS_TOKEN" = Some v ->
             Config.access_token (settingsOf loaded) = Some v) /\
  (forall v, envValue env "TELEGRAM_BOT_TOKEN" = Some v ->
             Config.bot_token (settingsOf loaded) = Some v) /\
  (forall v, envValue env "DRY_RUN" = Some v ->
             Config.dry_run (settingsOf loaded) = String.eqb v "true") /\
  (envValue env "DRY_RUN" = None ->
   (Config.dry_run (settingsOf loaded) = true <->
    Raw.dry_run c = FlagBool true)).
Proof.
  unfold loadConfig, resolveConfig.
  destruct c as [fb bot dr pt tz ppd].
  cbn [Raw.fb Raw.bot_token Raw.dry_run Raw.post_times Raw.timezone
       Raw.posts_per_day].
  destruct (envValue env "FACEBOOK_PAGE_ID") as [v1|];
    destruct (envValue env "FACEBOOK_ACCESS_TOKEN") as [v2|];
    destruct (envValue env "TELEGRAM_BOT_TOKEN") as [v3|];
    destruct (envValue env "DRY_RUN") as [v4|];
    destruct fb as [f|]; destruct bot as [b|]; cbn; intros H;
    try discriminate; injection H as <-; cbn;
    (repeat split; try discriminate; try (intros v Hv; congruence);
     try (intros v Hv; injection Hv as <-; now destruct (String.eqb v4 "true"))).
  all: destruct dr as [|[|]|s]; cbn; congruence.
Qed.

(** X20. A placeholder that nothing resolves is taken for a real
    credential: when the page id and the access token of the file are
    placeholders whose variables are not set (and whose names are not
    members of [Object.prototype]), and [FACEBOOK_PAGE_ID] and
    [FACEBOOK_ACCESS_TOKEN] are not set either, the loaded configuration
    carries the two placeholders as written and [validateConfig] accepts it
    with no error, unless they contain "YOUR_". *)
Theorem unresolved_placeholder_passes_validateConfig
    (env : string -> option string) (c loaded : Raw.t) (p a : string)
    (v : option string) :
  loadConfig env (Some (Some c)) = Some (Some loaded) ->
  Raw.fb c = Some (Raw.mkFacebook (Some p) (Some a) v) ->
  isPlaceholder p = true ->
  isPlaceholder a = true ->
  found env p = Falsy ->
  found env a = Falsy ->
  envValue env "FACEBOOK_PAGE_ID" = None ->
  envValue env "FACEBOOK_ACCESS_TOKEN" = None ->
  JS.includes p "YOUR_" = false ->
  JS.includes a "YOUR_" = false ->
  Config.page_id (settingsOf loaded) = Some p /\
  Config.access_token (settingsOf loaded) = Some a /\
  validateConfig (settingsOf loaded) = mkValidation true [].
Proof.
  intros E Hfb Hp Ha Hfp Hfa Hid Htok Hpy Hay.
  destruct (found_falsy_resolve env p Hfp) as [_ Hrp].
  destruct (found_falsy_resolve env a Hfa) as [_ Hra].
  unfold loadConfig, resolveConfig in E. rewrite Hid, Htok, Hfb in E.
  cbn [Raw.fb Raw.bot_token option_map Raw.page_id Raw.access_token
       Raw.api_version] in E.
  rewrite Hrp, Hra in E.
  destruct (envValue env "TELEGRAM_BOT_TOKEN");
    destruct (Raw.bot_token c); cbn in E; try discriminate;
    injection E as <-;
    unfold settingsOf, validateConfig;
    cbn [Raw.fb Config.page_id Config.access_token Raw.page_id
         Raw.access_token missingOrPlaceholder];
    apply placeholder_not_empty, String.eqb_neq in Hp, Ha;
    rewrite Hp, Ha, Hpy, Hay; now repeat split.
Qed.

(** ** The Telegram webhook *)

Lemma processTelegramWebhook_cases (toLowerCase : string -> string) (sources : list string)
    (add : Content.t -> World -> World) (update : option Telegram.message)
    (w : World) :
  let r := processTelegramWebhook toLowerCase sources add update w in
  ((forall c, fst r <> Handed c) -> snd r = w) /\
  (forall c, fst r = Handed c ->
     snd r = add c w /\
     exists message source text,
       update = Some message /\
       In source sources /\
       (source = JS.toString (Telegram.chat_id (Telegram.from message)) \/
        Some source = Content.source c \/
        Some source = Telegram.username (Telegram.from message)) /\
       Content.text c = Some text /\
       text = match orElse (Telegram.text message)
                           (orElse (Telegram.caption message) (Some "")) with
              | Some t => t
              | None => ""
              end /\
       Forall (fun pattern => JS.includes (toLowerCase text) pattern = false)
              skipPatterns /\
       Content.mediaUrl c = Content.telegramFileId c /\
       match Telegram.photo message with
       | Some (first :: rest) =>
           Content.mediaType c = Some "image" /\
           Content.telegramFileId c = Some (last rest first)
       | _ =>
           Content.mediaType c = Some "text" /\
           Content.telegramFileId c = None
       end).
Proof.
  intros r. subst r. unfold processTelegramWebhook.
  destruct update as [message|]; cbn [fst snd].
  2:{ split; [reflexivity|]. intros c H. discriminate. }
  destruct (existsb _ sources) eqn:Hallowed; cbn [negb fst snd].
  2:{ split; [reflexivity|]. intros c H. discriminate. }
  destruct (existsb _ skipPatterns) eqn:Hskip; cbn [fst snd].
  { split; [reflexivity|]. intros c H. discriminate. }
  split.
  { intros H. exfalso. eapply H. reflexivity. }
  intros c H. injection H as <-. split; [reflexivity|].
  apply existsb_exists in Hallowed as [source [Hin Hsrc]].
  exists message, source. eexists. split; [reflexivity|].
  split; [exact Hin|]. split.
  { cbn [Content.source].
    apply orb_prop in Hsrc as [Hsrc|Hsrc];
      [apply orb_prop in Hsrc as [Hsrc|Hsrc]|].
    - left. symmetry. now apply String.eqb_eq.
    - right. left. f_equal. symmetry. now apply String.eqb_eq.
    - right. right. destruct (Telegram.username (Telegram.from message));
        [|discriminate]. f_equal. symmetry. now apply String.eqb_eq. }
  split; [reflexivity|]. split; [reflexivity|]. split.
  { apply Forall_forall. intros pattern Hp.
    destruct (JS.includes _ pattern) eqn:E; [|reflexivity].
    assert (Hex : existsb
              (fun pattern0 =>
                 JS.includes
                   (toLowerCase
                      match orElse (Telegram.text message)
                              (orElse (Telegram.caption message) (Some "")) with
                      | Some t => t
                      | None => ""
                      end) pattern0) skipPatterns = true).
    { apply existsb_exists. exists pattern. now split. }
    congruence. }
  split; [reflexivity|].
  destruct (Telegram.photo message) as [[|first rest]|]; now split.
Qed.

(** X21. The webhook hands a message to [addToQueue] only when the update
    has a message, its chat is one of the allowed sources (by id, by title
    or by user name) and the lower-cased text has none of the skip patterns;
    in every other case it leaves the world as it is.  What it hands over
    carries the text or else the caption, the media type text or image, and
    the file id of the last photo both as media URL and as Telegram file
    id. *)
Theorem webhook_gate (toLowerCase : string -> string) (sources : list string)
    (add : Content.t -> World -> World) (update : option Telegram.message)
    (w : World) :
  let r := processTelegramWebhook toLowerCase sources add update w in
  ((forall c, fst r <> Handed c) -> snd r = w) /\
  (forall c, fst r = Handed c ->
     snd r = add c w /\
     exists message source text,
       update = Some message /\
       In source sources /\
       (source = JS.toString (Telegram.chat_id (Telegram.from message)) \/
        Some source = Content.source c \/
        Some source = Telegram.username (Telegram.from message)) /\
       Content.text c = Some text /\
       text = match orElse (Telegram.text message)
                           (orElse (Telegram.caption message) (Some "")) with
              | Some t => t
              | None => ""
              end /\
       Forall (fun pattern => JS.includes (toLowerCase text) pattern = false)
              skipPatterns /\
       Content.mediaUrl c = Content.telegramFileId c /\
       match Telegram.photo message with
       | Some (first :: rest) =>
           Content.mediaType c = Some "image" /\
           Content.telegramFileId c = Some (last rest first)
       | _ =>
           Content.mediaType c = Some "text" /\
           Content.telegramFileId c = None
       end).
Proof.
  apply processTelegramWebhook_cases.
Qed.


(** ** The quota of the scheduler *)

Lemma filter_all {A} (l : list A) : filter (fun _ => true) l = l.
Proof. induction l as [|x l IH]; simpl; [reflexivity|]. now rewrite IH. Qed.

Lemma filter_conj {A} (g h : A -> bool) (l : list A) :
  filter (fun p => g p && h p) l = filter h (filter g l).
Proof.
  induction l as [|x l IH]; simpl; [reflexivity|].
  destruct (g x); simpl; [destruct (h x)|]; now rewrite IH.
Qed.

(** The objects of a list that are not among its first [k]. *)
Lemma filter_out_firstn (k : nat) (l : list (nat * Item.t)) :
  NoDup (map fst l) ->
  filter (fun p => negb (existsb (Nat.eqb (fst p)) (map fst (firstn k l)))) l
  = skipn k l.
Proof.
  revert k. induction l as [|x l IH]; intros k Hnd.
  - now destruct k.
  - destruct k as [|k].
    + cbn [firstn map existsb negb skipn]. apply filter_all.
    + cbn [firstn map skipn filter existsb].
      rewrite Nat.eqb_refl. cbn [orb negb].
      inversion Hnd as [|? ? Hx Hl]; subst.
      rewrite <- (IH k Hl). apply filter_ext_in. intros p Hp.
      destruct (Nat.eqb_spec (fst p) (fst x)) as [Heq|Hne]; [|reflexivity].
      exfalso. apply Hx. rewrite <- Heq. now apply in_map.
Qed.

Lemma Forall2_map_left {A B} (R : A -> B -> Prop) (g : A -> A) (l : list A)
    (l' : list B) :
  Forall2 R (map g l) l' -> Forall2 (fun p p' => R (g p) p') l l'.
Proof.
  revert l'. induction l as [|x l IH]; intros l' H; inversion H; subst;
    constructor; auto.
Qed.

Lemma unscheduled_count (ts pending pending' : list (nat * Item.t)) :
  Forall2 (fun p p' =>
             fst p' = fst p /\
             if existsb (Nat.eqb (fst p)) (map fst ts)
             then unscheduled (snd p') = false
             else snd p' = snd p)
          pending pending' ->
  List.length (filter unscheduled (deref pending'))
  = List.length
      (filter (fun p => unscheduled (snd p)
                        && negb (existsb (Nat.eqb (fst p)) (map fst ts)))
              pending).
Proof.
  induction 1 as [|p p' l l' [_ Hp] _ IH]; [reflexivity|].
  unfold deref in *. cbn [map filter].
  destruct (existsb (Nat.eqb (fst p)) (map fst ts)).
  - rewrite Hp, andb_false_r. exact IH.
  - rewrite Hp, andb_true_r. destruct (unscheduled (snd p)); simpl;
      now rewrite IH.
Qed.

Section Quota.

Variable localOffset : Z -> bool -> Z.
Variable zoneOffset : string -> Z -> option Z.

Lemma scheduleLoop_marks (config : Config.t) (clock : nat -> Z)
    (ts : list (nat * Item.t)) :
  forall (k : nat) (pending pending' : list (nat * Item.t)),
    scheduleLoop localOffset zoneOffset config clock k ts pending
    = Returns pending' ->
    Forall2 (fun p p' =>
               fst p' = fst p /\
               if existsb (Nat.eqb (fst p)) (map fst ts)
               then unscheduled (snd p') = false
               else snd p' = snd p)
            pending pending'.
Proof.
  induction ts as [|[r it] rest IH]; intros k pending pending' E; simpl in E.
  - injection E as <-. clear.
    induction pending as [|p l IHl]; constructor;
      [split; reflexivity | exact IHl].
  - destruct (getNextScheduleTime localOffset zoneOffset config (clock k))
      as [s|msg]; [|discriminate].
    apply IH in E. unfold updateRef in E. apply Forall2_map_left in E.
    eapply Forall2_impl; [|exact E]. clear E.
    intros p p' [Hfst Hrest]. cbn [map fst existsb].
    destruct (Nat.eqb_spec (fst p) r) as [Heq|Hne]; cbn [fst snd orb] in *.
    + split; [exact Hfst|].
      destruct (existsb (Nat.eqb (fst p)) (map fst rest)); [exact Hrest|].
      rewrite Hrest. reflexivity.
    + split; [exact Hfst|]. exact Hrest.
Qed.

(** X23. A run of the scheduler that returns gives a slot to as many
    waiting items as [posts_per_day] says and no more: with [n] items
    without a slot, [min(posts_per_day, n)] of them get one; a missing or
    zero [posts_per_day] counts as 2, and a negative one, [-k], leaves the
    last [k] of them without a slot, so that nothing is scheduled while at
    most [k] are waiting. *)
Theorem schedulePosts_quota (config : Config.t) (clock : nat -> Z) (w : World) :
  fst (schedulePosts localOffset zoneOffset config clock w) = Returns tt ->
  let w' := snd (schedulePosts localOffset zoneOffset config clock w) in
  let n := List.length (filter unscheduled (Queue.pending (loadQueue w))) in
  let taken :=
    match Config.posts_per_day config with
    | None => Nat.min 2 n
    | Some limit =>
        if limit =? 0 then Nat.min 2 n
        else if limit <? 0 then (n - Z.to_nat (- limit))%nat
        else Nat.min (Z.to_nat limit) n
    end in
  List.length (filter unscheduled (Queue.pending (loadQueue w')))
  = (n - taken)%nat.
Proof.
  intros Hret w' n taken. subst w'. revert Hret. unfold schedulePosts.
  set (F := filter (fun p => unscheduled (snd p))
              (m_pending (fromQueue (loadQueue w)))).
  assert (HF : List.length F = n).
  { unfold F, n. cbn [m_pending fromQueue]. unfold alloc.
    rewrite <- (filter_deref_alloc unscheduled (Queue.pending (loadQueue w)) 0).
    unfold deref. now rewrite length_map. }
  destruct (Nat.eqb_spec (List.length F) 0) as [H0|Hpos]; cbn [fst snd].
  { intros _. fold n. lia. }
  destruct (scheduleLoop _ _ _ _ _ _ _) as [pending'|msg] eqn:E;
    [|discriminate].
  intros _. cbn [snd]. rewrite loadQueue_saved. unfold toQueue.
  cbn [Queue.pending m_pending].
  apply scheduleLoop_marks in E.
  rewrite (@unscheduled_count _ _ _ E).
  rewrite (filter_conj (fun p : nat * Item.t => unscheduled (snd p))
             (fun p => negb (existsb (Nat.eqb (fst p))
                               (map fst (JS.slice0 (postsPerDay config) F))))).
  fold F.
  assert (Hnd : NoDup (map fst F)).
  { unfold F. apply NoDup_map_filter. cbn [m_pending fromQueue].
    apply refs_alloc_NoDup. }
  unfold JS.slice0.
  destruct (postsPerDay config <? 0) eqn:Hneg;
    rewrite (@filter_out_firstn _ _ Hnd), length_skipn, HF;
    subst taken; unfold postsPerDay in *;
    destruct (Config.posts_per_day config) as [limit|];
    try destruct (Z.eqb_spec limit 0);
    try destruct (Z.ltb_spec limit 0); try discriminate; try lia.
Qed.

End Quota.

(** ** The life of a downloaded file *)

Lemma postVideoToFacebook_requests (a : Attempt) (w : World) :
  exists evs,
    trace (snd (postVideoToFacebook a w)) = trace w ++ evs /\
    evs <> [] /\ forallb isEvNet evs = true.
Proof.
  unfold postVideoToFacebook, emit.
  destruct (fb_video_start a); destruct (fb_video_transfer a);
    destruct (fb_video_finish a); cbn [snd trace];
    rewrite <- ?app_assoc; eexists; (split; [reflexivity|]);
    split; (discriminate || reflexivity).
Qed.

Lemma publish_requests (item : Item.t) (mediaPath : option string)
    (a : Attempt) (w : World) :
  exists evs,
    trace (snd (publish item mediaPath a w)) = trace w ++ evs /\
    evs <> [] /\ forallb isEvNet evs = true /\
    (Item.mediaType item = "image" ->
     (exists p, mediaPath = Some p /\ p <> "" /\ existsSync p w = true) ->
     evs = [EvNet FbPhotoUpload]).
Proof.
  unfold publish.
  assert (Hd : forall res : Completion (option string) * World,
             trace (snd (delivered a res)) = trace (snd res)).
  { intros [[id|msg] w1]; reflexivity. }
  rewrite Hd.
  assert (Honce : forall e, trace (snd (publishOnce e a w)) = trace w ++ [EvNet e]).
  { intros e. unfold publishOnce. destruct (fb_publish a); reflexivity. }
  destruct (String.eqb_spec (Item.mediaType item) "video") as [Hv|Hv];
    cbn [andb].
  - destruct (JS.truthy mediaPath && _) eqn:Hc.
    + destruct (postVideoToFacebook_requests a w) as (evs & Ht & Hne & Hall).
      exists evs. repeat split; try assumption.
      intros Hi. rewrite Hv in Hi. discriminate.
    + rewrite Hv. cbn [String.eqb Ascii.eqb Bool.eqb andb].
      exists [EvNet FbFeed]. rewrite Honce. repeat split; discriminate.
  - destruct (String.eqb_spec (Item.mediaType item) "image") as [Hi|Hi];
      cbn [andb].
    + destruct (JS.truthy mediaPath) eqn:Htr; cbn [andb].
      * destruct (match mediaPath with Some p => existsSync p w | None => false end)
          eqn:Hon.
        -- exists [EvNet FbPhotoUpload]. rewrite Honce.
           repeat split; discriminate.
        -- exists [EvNet FbPhotoUrl]. rewrite Honce.
           repeat split; try discriminate.
           all: try (intros _ (p & -> & _ & Hex); congruence).
      * exists [EvNet FbFeed]. rewrite Honce. repeat split; try discriminate.
        all: try (intros _ (p & -> & Hp & _); cbn in Htr;
                  apply String.eqb_neq in Hp; rewrite Hp in Htr; discriminate).
    + exists [EvNet FbFeed]. rewrite Honce. repeat split; try discriminate.
      all: try (intros H; contradiction).
Qed.

Section MoreDownload.

Variable dirname : string.

(** X24. A file fetched from Telegram lives only for the attempt: it is
    written under the scratch directory, then come the requests to Facebook
    (the upload of the file itself when the item is an image), and the file
    is unlinked as the last step, whether the delivery returned or threw. *)
Theorem download_always_cleaned_up (item : Item.t) (config : Config.t)
    (a : Attempt) (w : World) (filePath : string) :
  Config.dry_run config = false ->
  valid (validateConfig config) = true ->
  checkRateLimit (clock_gate a) w = Allowed ->
  JS.truthy (Item.telegramFileId item) = true ->
  JS.truthy (Config.bot_token config) = true ->
  tg_info a = InfoOk filePath ->
  tg_file a = FileOk ->
  let localPath := downloadPath dirname a filePath in
  let w' := snd (postToFacebook dirname item config a w) in
  underTempDir dirname localPath = true /\
  existsSync localPath w' = false /\
  exists requests,
    added w w'
    = [EvNet TgGetFile; EvNet TgDownload; EvWriteFile localPath]
      ++ requests ++ [EvUnlink localPath] /\
    requests <> [] /\
    forallb isEvNet requests = true /\
    (Item.mediaType item = "image" -> requests = [EvNet FbPhotoUpload]).
Proof.
  intros Hd Hv Hr Hid Hbot Hinfo Hfile localPath w'. subst w'.
  destruct (downloadPath_under_temp dirname a filePath) as [Hinc Hne].
  fold localPath in Hinc, Hne.
  split.
  { unfold underTempDir, localPath, downloadPath.
    generalize (TEMP_DIR dirname). intros t.
    induction t as [|c t IH]; [apply (prefix_app "/")|].
    cbn. destruct (Ascii.ascii_dec c c); [exact IH | congruence]. }
  rewrite (postToFacebook_past_gate dirname item config a w Hd Hv Hr).
  unfold deliver. rewrite Hid, Hbot. cbn [andb].
  unfold downloadTelegramFile. rewrite Hinfo, Hfile.
  fold (downloadPath dirname a filePath). fold localPath.
  set (w1 := writeFileSync localPath _).
  assert (Hex1 : existsSync localPath w1 = true)
    by apply existsSync_writeFileSync.
  destruct (publish_requests item (Some localPath) a w1)
    as (requests & Ht & Hreq & Hall & Himg).
  pose proof (publish_files item (Some localPath) a w1) as Hfiles.
  destruct (publish item (Some localPath) a w1) as [res w2].
  cbn [fst snd] in *.
  assert (Hex : existsSync localPath w2 = true)
    by (rewrite (@existsSync_files localPath w1 w2 Hfiles); exact Hex1).
  assert (Hclean : cleanupTempFile dirname localPath w2 = unlinkSync localPath w2).
  { unfold cleanupTempFile. rewrite Hex, Hinc.
    apply String.eqb_neq in Hne. now rewrite Hne. }
  rewrite Hclean. split.
  { apply existsSync_unlinkSync. }
  exists requests. split.
  { apply added_app. unfold unlinkSync. cbn [trace]. rewrite Ht.
    unfold w1, writeFileSync, emit. cbn [trace].
    rewrite <- !app_assoc. reflexivity. }
  split; [exact Hreq|]. split; [exact Hall|].
  intros Hi. apply Himg; [exact Hi|].
  exists localPath. now repeat split.
Qed.

End MoreDownload.

(** ** What an attempt writes and deletes *)

Section Scratch.

Variable dirname : string.

Lemma downloadPath_scratch (a : Attempt) (filePath : string) :
  underTempDir dirname (downloadPath dirname a filePath) = true.
Proof.
  unfold underTempDir, downloadPath.
  generalize (TEMP_DIR dirname). intros t.
  induction t as [|c t IH]; [apply (prefix_app "/")|].
  cbn. destruct (Ascii.ascii_dec c c); [exact IH | congruence].
Qed.

(** The events of one attempt: requests only, or a download that went
    well, the requests to Facebook, and the removal of the file. *)
Lemma postToFacebook_events (item : Item.t) (config : Config.t) (a : Attempt)
    (w : World) :
  (exists requests,
     added w (snd (postToFacebook dirname item config a w)) = requests /\
     forallb isEvNet requests = true) \/
  (exists filePath requests,
     tg_info a = InfoOk filePath /\
     tg_file a = FileOk /\
     added w (snd (postToFacebook dirname item config a w))
     = [EvNet TgGetFile; EvNet TgDownload;
        EvWriteFile (downloadPath dirname a filePath)]
       ++ requests ++ [EvUnlink (downloadPath dirname a filePath)] /\
     forallb isEvNet requests = true /\
     existsSync (downloadPath dirname a filePath)
                (snd (postToFacebook dirname item config a w)) = false).
Proof.
  assert (Hnone : added w w = []) by (apply added_app; now rewrite app_nil_r).
  unfold postToFacebook.
  destruct (Config.dry_run config); [left; now exists []|].
  destruct (negb (valid (validateConfig config))); [left; now exists []|].
  destruct (checkRateLimit (clock_gate a) w); [|left; now exists []].
  unfold deliver.
  destruct (JS.truthy (Item.telegramFileId item)
            && JS.truthy (Config.bot_token config)).
  - unfold downloadTelegramFile.
    destruct (tg_info a) as [filePath| |msg].
    + destruct (tg_file a) as [|code|msg].
      * right. exists filePath.
        fold (downloadPath dirname a filePath).
        set (lp := downloadPath dirname a filePath).
        set (w1 := writeFileSync lp _).
        destruct (publish_requests item (Some lp) a w1)
          as (requests & Ht & _ & Hall & _).
        pose proof (publish_files item (Some lp) a w1) as Hfiles.
        destruct (publish item (Some lp) a w1) as [res w2].
        cbn [fst snd] in *.
        assert (Hex : existsSync lp w2 = true).
        { rewrite (@existsSync_files lp w1 w2 Hfiles).
          apply existsSync_writeFileSync. }
        destruct (downloadPath_under_temp dirname a filePath) as [Hinc Hne].
        fold lp in Hinc, Hne.
        assert (Hclean : cleanupTempFile dirname lp w2 = unlinkSync lp w2).
        { unfold cleanupTempFile. rewrite Hex, Hinc.
          apply String.eqb_neq in Hne. now rewrite Hne. }
        rewrite Hclean. exists requests.
        split; [reflexivity|]. split; [reflexivity|]. split.
        { apply added_app. unfold unlinkSync. cbn [trace]. rewrite Ht.
          unfold w1, writeFileSync, emit. cbn [trace].
          rewrite <- !app_assoc. reflexivity. }
        split; [exact Hall | apply existsSync_unlinkSync].
      * left. exists [EvNet TgGetFile; EvNet TgDownload].
        split; [|reflexivity]. apply added_app. unfold emit. cbn [snd trace].
        now rewrite <- app_assoc.
      * left. exists [EvNet TgGetFile; EvNet TgDownload].
        split; [|reflexivity]. apply added_app. unfold emit. cbn [snd trace].
        now rewrite <- app_assoc.
    + left. exists [EvNet TgGetFile]. split; [|reflexivity].
      apply added_app. reflexivity.
    + left. exists [EvNet TgGetFile]. split; [|reflexivity].
      apply added_app. reflexivity.
  - destruct (publish_requests item (Item.mediaUrl item) a w)
      as (requests & Ht & _ & Hall & _).
    destruct (publish item (Item.mediaUrl item) a w) as [res w1].
    cbn [fst snd] in *. left. exists requests.
    split; [now apply added_app | exact Hall].
Qed.

Lemma request_is_no_file_event (evs : list Event) (e : Event) :
  forallb isEvNet evs = true -> In e evs -> isEvNet e = true.
Proof. intros H Hin. rewrite forallb_forall in H. now apply H. Qed.

(** C8. Whatever the item, the configuration, the answers from outside
    and the state before, one delivery attempt treats files as follows.  A
    file it writes is the download from Telegram, lies under the scratch
    directory, is unlinked before the attempt ends and does not exist
    afterwards, whether the delivery returned or threw; an attempt that
    passes the checks and whose download succeeds does write that file.
    Every path the attempt unlinks lies under the scratch directory, and a
    path that does not lie under it exists afterwards exactly if it existed
    before.  The cleanup itself leaves the world as it is for a path that
    does not contain the scratch directory, and otherwise does nothing but
    unlink the path it was given. *)
Theorem scratch_file_removed_nothing_else_deleted (item : Item.t)
    (config : Config.t) (a : Attempt) (w : World) :
  let w' := snd (postToFacebook dirname item config a w) in
  (forall localPath,
     In (EvWriteFile localPath) (added w w') ->
     underTempDir dirname localPath = true /\
     In (EvUnlink localPath) (added w w') /\
     existsSync localPath w' = false) /\
  (Config.dry_run config = false ->
   valid (validateConfig config) = true ->
   checkRateLimit (clock_gate a) w = Allowed ->
   JS.truthy (Item.telegramFileId item) = true ->
   JS.truthy (Config.bot_token config) = true ->
   forall filePath,
     tg_info a = InfoOk filePath ->
     tg_file a = FileOk ->
     In (EvWriteFile (downloadPath dirname a filePath)) (added w w')) /\
  (forall p, In (EvUnlink p) (added w w') -> underTempDir dirname p = true) /\
  (forall p, underTempDir dirname p = false ->
             existsSync p w' = existsSync p w) /\
  (forall p w0,
     (JS.includes p (TEMP_DIR dirname) = false ->
      cleanupTempFile dirname p w0 = w0) /\
     (cleanupTempFile dirname p w0 = w0 \/
      cleanupTempFile dirname p w0 = unlinkSync p w0)).
Proof.
  intros w'. subst w'.
  split; [|split; [|split; [|split]]].
  - intros localPath Hin.
    destruct (postToFacebook_events item config a w)
      as [(requests & E & Hall)|(filePath & requests & _ & _ & E & Hall & Hgone)];
      rewrite E in Hin |- *.
    + apply (request_is_no_file_event _ _ Hall) in Hin. discriminate.
    + cbn [app] in Hin.
      destruct Hin as [Hin|[Hin|[Hin|Hin]]]; try discriminate.
      * injection Hin as <-.
        split; [apply downloadPath_scratch|]. split; [|exact Hgone].
        cbn [app]. do 3 right. apply in_or_app. right. now left.
      * apply in_app_or in Hin as [Hin|[Hin|[]]]; [|discriminate].
        apply (request_is_no_file_event _ _ Hall) in Hin. discriminate.
  - intros Hd Hv Hr Hid Hbot filePath Hinfo Hfile.
    destruct (@downloaded_file_removed dirname item config a w filePath
                Hd Hv Hr Hid Hbot Hinfo Hfile) as [Hin _].
    exact Hin.
  - intros p Hin.
    destruct (postToFacebook_events item config a w)
      as [(requests & E & Hall)|(filePath & requests & _ & _ & E & Hall & _)];
      rewrite E in Hin.
    + apply (request_is_no_file_event _ _ Hall) in Hin. discriminate.
    + cbn [app] in Hin.
      destruct Hin as [Hin|[Hin|[Hin|Hin]]]; try discriminate.
      apply in_app_or in Hin as [Hin|[Hin|[]]].
      * apply (request_is_no_file_event _ _ Hall) in Hin. discriminate.
      * injection Hin as <-. apply downloadPath_scratch.
  - intros p Hp.
    destruct (postToFacebook_files dirname item config a w)
      as [H|[filePath [_ H]]].
    + now apply existsSync_files.
    + unfold existsSync. rewrite H, existsb_filter_out.
      destruct (String.eqb_spec p (downloadPath dirname a filePath))
        as [->|_]; [|apply andb_true_r].
      rewrite downloadPath_scratch in Hp. discriminate.
  - intros p w0. unfold cleanupTempFile. split.
    + intros H. rewrite H. now rewrite andb_false_r.
    + destruct (negb (String.eqb p "") && existsSync p w0
                && JS.includes p (TEMP_DIR dirname)); [now right | now left].
Qed.

End Scratch.

(** * The properties at concrete inputs *)

(** C1 at work: "hello #now" is pending in [Demo.queued] and its hash is not
    among the posted hashes, so a second, identical ingestion is admitted. *)
Lemma addToQueue_duplicate_iff_posted_hash_witness :
  valid (validateInput Demo.hello) = true /\
  ~ In (generateContentHash Demo.digest (contentText Demo.hello)
          (Content.mediaType Demo.hello)) (storedHashes Demo.queued) /\
  exists item q',
    Item.contentHash item
    = generateContentHash Demo.digest (contentText Demo.hello)
        (Content.mediaType Demo.hello) /\
    store (snd (addToQueue Demo.digest Demo.offset Demo.zones Demo.hello
                  Demo.config (Demo.at10 6) Demo.queued)) = Some q' /\
    map clearSchedule (Queue.pending q')
    = map clearSchedule (Queue.pending (loadQueue Demo.queued) ++ [item]).
Proof.
  assert (Hv : valid (validateInput Demo.hello) = true) by reflexivity.
  assert (Hn : ~ In (generateContentHash Demo.digest (contentText Demo.hello)
                       (Content.mediaType Demo.hello))
                    (storedHashes Demo.queued)) by (vm_compute; tauto).
  split; [exact Hv|]. split; [exact Hn|].
  destruct (addToQueue_duplicate_iff_posted_hash Demo.digest Demo.offset
              Demo.zones Demo.hello Demo.config (Demo.at10 6) Demo.queued Hv)
    as (_ & _ & Hadmit).
  destruct (Hadmit Hn) as (item & q' & Hh & _ & _ & _ & Hs & Hp & _).
  exists item, q'. repeat split; assumption.
Defined.

(** The two sides of the boundary, evaluated: the same content is admitted
    while its twin is pending and turned away once the twin is posted. *)
Example twin_of_pending_item_is_admitted :
  exists item,
    fst (addToQueue Demo.digest Demo.offset Demo.zones Demo.hello Demo.config
           (Demo.at10 6) Demo.queued) = AddSuccess item /\
    map Item.text
        (Queue.pending
           (loadQueue
              (snd (addToQueue Demo.digest Demo.offset Demo.zones Demo.hello
                      Demo.config (Demo.at10 6) Demo.queued))))
    = ["hello #now"; "hello #now"].
Proof. eexists. split; reflexivity. Qed.

Example twin_of_posted_item_is_duplicate :
  addToQueue Demo.digest Demo.offset Demo.zones Demo.hello Demo.config
    (Demo.at10 7) Demo.afterPass
  = (AddDuplicate, Demo.afterPass).
Proof. reflexivity. Qed.

(** C2 as stated fails: "bye" ingested into [Demo.queued] in the same
    millisecond as "hello #now" gives the two pending items the same id. *)
Lemma same_millisecond_repeats_id :
  Reachable Demo.digest Demo.dir Demo.offset Demo.zones Demo.queued /\
  partitioned (loadQueue Demo.queued) /\
  (exists item,
     fst (addToQueue Demo.digest Demo.offset Demo.zones Demo.bye Demo.config
            (Demo.at10 5) Demo.queued) = AddSuccess item) /\
  map Item.id (Queue.pending (loadQueue Demo.clash)) = ["5"; "5"] /\
  ~ partitioned (loadQueue Demo.clash).
Proof.
  split; [|split; [|split; [|split]]].
  - unfold Demo.queued. apply reach_add.
    + apply reach_init. reflexivity.
    + vm_compute. tauto.
  - split; vm_compute; repeat constructor; simpl; try tauto; discriminate.
  - eexists. reflexivity.
  - reflexivity.
  - intros [Hnd _]. vm_compute in Hnd.
    inversion Hnd as [|? ? Hin _]. apply Hin. now left.
Qed.

(** C2 as amended, at a world reached by one ingestion. *)
Lemma reachable_queue_partitioned_witness :
  Reachable Demo.digest Demo.dir Demo.offset Demo.zones Demo.queued /\
  partitioned (loadQueue Demo.queued) /\
  partitioned
    (loadQueue (snd (processScheduledPosts Demo.dir Demo.dryConfig Demo.noon
                       (fun k => Demo.fine 0 0) Demo.queued))).
Proof.
  assert (H : Reachable Demo.digest Demo.dir Demo.offset Demo.zones Demo.queued).
  { unfold Demo.queued. apply reach_add.
    - apply reach_init. reflexivity.
    - vm_compute. tauto. }
  destruct (@reachable_queue_partitioned Demo.digest Demo.dir Demo.offset
              Demo.zones Demo.queued H) as (Hp & _ & _ & Hproc).
  split; [exact H|]. split; [exact Hp|]. apply Hproc.
Defined.

(** At 10:00, Bangkok time, in a process that runs in Bangkok, with slots
    09:00 and 18:00: today 18:00. *)
Lemma getNextScheduleTime_first_later_slot_witness :
  Config.post_times Demo.config <> [] /\
  forallb validSlot (Config.post_times Demo.config) = true /\
  exists r,
    getNextScheduleTime Demo.offset Demo.zones Demo.config
      (Demo.midnight + 10 * msPerHour) = Returns r /\
    localTime Demo.offset r = atDay 20000 18 0.
Proof.
  assert (H1 : Config.post_times Demo.config <> []) by discriminate.
  assert (H2 : forallb validSlot (Config.post_times Demo.config) = true)
    by reflexivity.
  split; [exact H1|]. split; [exact H2|].
  destruct (@getNextScheduleTime_first_later_slot Demo.offset Demo.zones
              (7 * msPerHour) (fun _ _ => eq_refl) Demo.config
              (Demo.midnight + 10 * msPerHour) (7 * msPerHour) eq_refl H1 H2)
    as (r & Hr & _ & Hslots & _).
  exists r. split; [exact Hr|].
  destruct (Hslots eq_refl) as (_ & Hday & _).
  apply Hday. vm_compute. split; [discriminate | reflexivity].
Defined.

(** The three readings of the specification, evaluated; the process runs
    in the configured zone here, so the instants are Bangkok times. *)
Example slot_at_10_is_18_today :
  getNextScheduleTime Demo.offset Demo.zones Demo.config
    (Demo.midnight + 10 * msPerHour)
  = Returns (Demo.midnight + 18 * msPerHour).
Proof. reflexivity. Qed.

Example slot_at_19_is_09_tomorrow :
  getNextScheduleTime Demo.offset Demo.zones Demo.config
    (Demo.midnight + 19 * msPerHour)
  = Returns (Demo.midnight + msPerDay + 9 * msPerHour).
Proof. reflexivity. Qed.

Example slot_at_08_is_09_today :
  getNextScheduleTime Demo.offset Demo.zones Demo.config
    (Demo.midnight + 8 * msPerHour)
  = Returns (Demo.midnight + 9 * msPerHour).
Proof. reflexivity. Qed.

(** C3. In a process that runs in UTC, with the zone Asia/Bangkok and the
    slots 09:00 and 18:00 configured, the call at 10:00 Bangkok time (03:00
    UTC) returns 18:00 UTC of that day.  In Bangkok that instant reads 01:00
    of the next day: it is neither 18:00 nor today there.  The slot the
    zone asks for, 18:00 today in Bangkok, is the instant 11:00 UTC, which is
    what the same call returns in a process that runs in Bangkok. *)
Theorem slot_in_utc_process_misses_configured_zone :
  let now := Demo.midnight + 10 * msPerHour in
  Config.post_times Demo.config = ["09:00"; "18:00"] /\
  Config.timezone Demo.config = Some "Asia/Bangkok" /\
  wallClock Demo.zones "Asia/Bangkok" now = Some (atDay 20000 10 0) /\
  getNextScheduleTime Demo.utc Demo.zones Demo.config now
  = Returns (atDay 20000 18 0) /\
  wallClock Demo.zones "Asia/Bangkok" (atDay 20000 18 0)
  = Some (atDay 20001 1 0) /\
  wallClock Demo.zones "Asia/Bangkok" (atDay 20000 11 0)
  = Some (atDay 20000 18 0) /\
  atDay 20000 18 0 <> atDay 20000 11 0 /\
  getNextScheduleTime Demo.offset Demo.zones Demo.config now
  = Returns (atDay 20000 11 0).
Proof. repeat split. discriminate. Qed.

(** A name that is not a time zone: the call throws. *)
Example unknown_zone_throws :
  getNextScheduleTime Demo.utc Demo.zones
    (Config.mk false (Some "1234567890") (Some "EAAB-token") (Some "v18.0")
               (Some "bot-token") ["09:00"; "18:00"] (Some "Mars/Phobos") None)
    (Demo.midnight + 10 * msPerHour)
  = Throws "RangeError: Invalid time zone specified".
Proof. reflexivity. Qed.

(** C4: a delivery at 100.5 s, then an attempt whose clock reads 130 s. *)
Lemma rate_limit_gate_witness :
  postToFacebook Demo.dir (Demo.due 0) Demo.config (Demo.fine 100000 100500)
    Demo.fresh
  = (Returns (mkPostResult (Some "1234567890_1") false),
     mkWorld None 100500 [] [EvNet FbFeed]) /\
  exists waitTime,
    postToFacebook Demo.dir (Demo.due 1) Demo.config (Demo.fine 130000 130500)
      (mkWorld None 100500 [] [EvNet FbFeed])
    = (Throws ("Rate limit exceeded. Please wait " ++ JS.toString waitTime
               ++ " seconds before next post.")%string,
       mkWorld None 100500 [] [EvNet FbFeed]).
Proof.
  assert (E : postToFacebook Demo.dir (Demo.due 0) Demo.config
                (Demo.fine 100000 100500) Demo.fresh
              = (Returns (mkPostResult (Some "1234567890_1") false),
                 mkWorld None 100500 [] [EvNet FbFeed])) by reflexivity.
  split; [exact E|].
  destruct (@rate_limit_gate Demo.dir (Demo.due 0) (Demo.due 1) Demo.config
              Demo.config (Demo.fine 100000 100500) (Demo.fine 130000 130500)
              Demo.fresh _ _ E eq_refl eq_refl eq_refl)
    as (_ & Hclosed & _).
  apply Hclosed. reflexivity.
Defined.

(** C5: a dry-run pass over 1001 due items with distinct hashes, starting
    from an empty history. *)
Lemma posted_hashes_bounded_witness :
  (List.length (storedHashes (Demo.backlog 1001)) <= 1000)%nat /\
  List.length
    (storedHashes
       (snd (processScheduledPosts Demo.dir Demo.dryConfig Demo.noon
               (fun k => Demo.fine 0 0) (Demo.backlog 1001)))) = 1000%nat /\
  storedHashes
    (snd (processScheduledPosts Demo.dir Demo.dryConfig Demo.noon
            (fun k => Demo.fine 0 0) (Demo.backlog 1001)))
  = tl (map (fun e => Item.contentHash (fst e))
          (fst (processScheduledPosts Demo.dir Demo.dryConfig Demo.noon
                  (fun k => Demo.fine 0 0) (Demo.backlog 1001)))).
Proof.
  assert (H : (List.length (storedHashes (Demo.backlog 1001)) <= 1000)%nat)
    by (vm_compute; apply Nat.le_0_l).
  split; [exact H|].
  destruct (posted_hashes_bounded Demo.dir Demo.dryConfig Demo.noon
              (fun k => Demo.fine 0 0) (Demo.backlog 1001) H) as (_ & Hall).
  destruct Hall as (_ & Hlast); [vm_compute; reflexivity ..|].
  apply Hlast; vm_compute; reflexivity.
Defined.

(** C6: a pass with a placeholder page id; the delivery of the one due item
    throws a configuration error. *)
Lemma failed_delivery_stays_pending_witness :
  NoDup (map Item.id (Queue.pending (loadQueue Demo.queued))) /\
  exists q' item,
    store (snd (processScheduledPosts Demo.dir Demo.badConfig Demo.noon
                  (fun k => Demo.fine 0 0) Demo.queued)) = Some q' /\
    In (Item.markFailed "Config error: Facebook Page ID is required" item)
       (Queue.pending q').
Proof.
  assert (H : NoDup (map Item.id (Queue.pending (loadQueue Demo.queued)))).
  { vm_compute. constructor; [tauto | constructor]. }
  split; [exact H|].
  destruct (failed_delivery_stays_pending Demo.dir Demo.badConfig Demo.noon
              (fun k => Demo.fine 0 0) Demo.queued)
    as (q' & evs & Hstore & _ & _ & _ & _ & Hfailed).
  exists q'. eexists. split; [exact Hstore|].
  apply (Hfailed H). vm_compute. left. reflexivity.
Defined.

(** C7: one dry-run attempt, and the dry-run pass over the queue that
    holds "hello #now". *)
Lemma dry_run_isolated_witness :
  Config.dry_run Demo.dryConfig = true /\
  postToFacebook Demo.dir (Demo.due 0) Demo.dryConfig (Demo.fine 42 43)
    Demo.fresh
  = (Returns (mkPostResult (Some "dry-run-42") true), Demo.fresh) /\
  exists x,
    In x (Queue.posted (loadQueue Demo.afterPass)) /\
    Item.text x = "hello #now" /\
    Item.status x = posted_st /\
    Item.facebookPostId x = Some "dry-run-0" /\
    Item.postedAt x = Some Demo.noon.
Proof.
  split; [reflexivity|].
  destruct (dry_run_isolated Demo.dir Demo.dryConfig eq_refl)
    as (Hone & Hpass).
  destruct (Hone (Demo.due 0) (Demo.fine 42 43) Demo.fresh) as (E & _).
  split; [exact E|].
  destruct (Hpass Demo.noon (fun k => Demo.fine 0 0) Demo.queued)
    as (q' & Hw & _ & _ & Hitems).
  destruct (Hitems 0%nat
              (Item.mk "5" (Some "AI-Media") "hello #now" None "text" None
                       "hello #now:text" 5
                       (Some (Demo.midnight + 18 * msPerHour))
                       pending_st None None None) eq_refl)
    as (x & _ & Hin & Hst & Hid & Hat & _ & Htext & _).
  exists x. unfold Demo.afterPass. rewrite Hw.
  split; [exact Hin|]. split; [exact Htext|]. split; [exact Hst|].
  split; [exact Hid | exact Hat].
Defined.

(** The whole dry-run pass over [Demo.queued], evaluated. *)
Example dry_run_pass_only_saves :
  trace Demo.afterPass = trace Demo.queued ++
    [EvSaveQueue (Queue.mk []
       [Item.mk "5" (Some "AI-Media") "hello #now" None "text" None
                "hello #now:text" 5 (Some (Demo.midnight + 18 * msPerHour))
                posted_st (Some Demo.noon) (Some "dry-run-0") None]
       None (Some ["hello #now:text"]))].
Proof. reflexivity. Qed.

(** The guard of [cleanupTempFile] alone is a test for a substring: called
    on a path next to the temp directory, "/app/temporary/...", it would
    delete the file.  The program makes no such call: its one use passes the
    path of the download. *)
Example cleanupTempFile_deletes_outside_temp :
  TEMP_DIR Demo.dir = "/app/temp" /\
  underTempDir Demo.dir Demo.sibling = false /\
  existsSync Demo.sibling (mkWorld None 0 [Demo.sibling] []) = true /\
  cleanupTempFile Demo.dir Demo.sibling (mkWorld None 0 [Demo.sibling] [])
  = mkWorld None 0 [] [EvUnlink Demo.sibling].
Proof. repeat split. Qed.

(** C9: three unscheduled items, [posts_per_day] not configured. *)
Lemma schedulePosts_first_n_same_slot_witness :
  (forall k : nat, (fun _ : nat => Demo.noon) k = Demo.noon) /\
  getNextScheduleTime Demo.offset Demo.zones Demo.config Demo.noon
  = Returns (Demo.midnight + 18 * msPerHour) /\
  map Item.scheduledFor
      (Queue.pending
         (loadQueue (snd (schedulePosts Demo.offset Demo.zones Demo.config
                            (fun _ => Demo.noon) (Demo.backlog 3)))))
  = [Some (Demo.midnight + 18 * msPerHour);
     Some (Demo.midnight + 18 * msPerHour); None].
Proof.
  assert (H1 : forall k : nat, (fun _ : nat => Demo.noon) k = Demo.noon)
    by reflexivity.
  assert (H2 : getNextScheduleTime Demo.offset Demo.zones Demo.config Demo.noon
               = Returns (Demo.midnight + 18 * msPerHour)) by reflexivity.
  split; [exact H1|]. split; [exact H2|].
  destruct (@schedulePosts_first_n_same_slot Demo.offset Demo.zones Demo.config
              (fun _ => Demo.noon) Demo.noon (Demo.midnight + 18 * msPerHour)
              (Demo.backlog 3) H1 H2 I) as (_ & E & _).
  rewrite E. reflexivity.
Defined.

(** C10: the duplicate of a posted item. *)
Lemma addToQueue_rejection_writes_nothing_witness :
  addToQueue Demo.digest Demo.offset Demo.zones Demo.hello Demo.config
    (Demo.at10 7) Demo.afterPass
  = (AddDuplicate, Demo.afterPass) /\
  store Demo.afterPass = store Demo.afterPass /\
  added Demo.afterPass Demo.afterPass = [].
Proof.
  assert (E : addToQueue Demo.digest Demo.offset Demo.zones Demo.hello
                Demo.config (Demo.at10 7) Demo.afterPass
              = (AddDuplicate, Demo.afterPass)) by reflexivity.
  split; [exact E|].
  destruct (@addToQueue_rejection_writes_nothing Demo.digest Demo.offset
              Demo.zones Demo.hello Demo.config (Demo.at10 7) Demo.afterPass
              _ _ E) as (Hrej & _).
  destruct (Hrej (or_introl eq_refl)) as (_ & Hs & Ha).
  split; [exact Hs | exact Ha].
Defined.

(** * Further properties at concrete inputs *)

(** Half a minute after a delivery the limiter asks for 31 seconds. *)
Lemma checkRateLimit_wait_is_exact_witness :
  checkRateLimit 130000 Demo.warm
  = Denied 31 "Rate limit exceeded. Please wait 31 seconds before next post." /\
  checkRateLimit (130000 + 31 * 1000) Demo.warm = Allowed.
Proof.
  assert (H : checkRateLimit 130000 Demo.warm
              = Denied 31 "Rate limit exceeded. Please wait 31 seconds before next post.")
    by reflexivity.
  split; [exact H|].
  destruct (checkRateLimit_wait_is_exact 130000 Demo.warm H) as (_ & Hok & _).
  exact Hok.
Defined.

(** A text item goes to the feed. *)
Lemma media_missing_posts_to_feed_witness :
  added Demo.fresh
    (snd (postToFacebook Demo.dir (Demo.due 0) Demo.config
            (Demo.fine 100000 100500) Demo.fresh))
  = [EvNet FbFeed].
Proof.
  destruct (@media_missing_posts_to_feed Demo.dir (Demo.due 0) Demo.config
              (Demo.fine 100000 100500) Demo.fresh
              eq_refl eq_refl eq_refl eq_refl (or_introl eq_refl)) as [H _].
  exact H.
Defined.

(** Telegram does not know the file of the photo. *)
Lemma failed_download_stops_attempt_witness :
  fst (postToFacebook Demo.dir Demo.photo Demo.config
         (Demo.offline 100000 100500) Demo.fresh)
  = Throws "Telegram download failed: Failed to get file info from Telegram" /\
  files (snd (postToFacebook Demo.dir Demo.photo Demo.config
                (Demo.offline 100000 100500) Demo.fresh)) = [].
Proof.
  destruct (@failed_download_stops_attempt Demo.dir Demo.photo Demo.config
              (Demo.offline 100000 100500) Demo.fresh
              eq_refl eq_refl eq_refl eq_refl eq_refl eq_refl)
    as (_ & _ & _ & Hfiles & _).
  split; [reflexivity | exact Hfiles].
Defined.

(** A pass over the queue that holds "hello #now". *)
Lemma pass_settles_pending_witness :
  NoDup (map Item.id (Queue.pending (loadQueue Demo.queued))) /\
  Queue.pending
    (loadQueue (snd (processScheduledPosts Demo.dir Demo.config Demo.noon
                       (fun k => Demo.fine 100000 100500) Demo.queued)))
  = flat_map
      (settle (fst (processScheduledPosts Demo.dir Demo.config Demo.noon
                      (fun k => Demo.fine 100000 100500) Demo.queued)))
      (Queue.pending (loadQueue Demo.queued)).
Proof.
  assert (H : NoDup (map Item.id (Queue.pending (loadQueue Demo.queued)))).
  { vm_compute. constructor; [tauto | constructor]. }
  split; [exact H|].
  destruct (@pass_settles_pending Demo.dir Demo.config Demo.noon
              (fun k => Demo.fine 100000 100500) Demo.queued H) as [E _].
  exact E.
Defined.

Lemma pass_conserves_items_witness :
  NoDup (map Item.id (Queue.pending (loadQueue Demo.queued))) /\
  (List.length
     (Queue.pending
        (loadQueue (snd (processScheduledPosts Demo.dir Demo.config Demo.noon
                           (fun k => Demo.fine 100000 100500) Demo.queued))))
   + List.length
       (Queue.posted
          (loadQueue (snd (processScheduledPosts Demo.dir Demo.config Demo.noon
                             (fun k => Demo.fine 100000 100500) Demo.queued))))
   = List.length (Queue.pending (loadQueue Demo.queued))
     + List.length (Queue.posted (loadQueue Demo.queued)))%nat.
Proof.
  assert (H : NoDup (map Item.id (Queue.pending (loadQueue Demo.queued)))).
  { vm_compute. constructor; [tauto | constructor]. }
  split; [exact H|].
  exact (@pass_conserves_items Demo.dir Demo.config Demo.noon
           (fun k => Demo.fine 100000 100500) Demo.queued H).
Defined.

(** Three due items in one pass whose deliveries take half a second. *)
Lemma pass_delivers_once_per_minute_witness :
  (List.length
     (deliveredOf Demo.noon
        (fst (processScheduledPosts Demo.dir Demo.config Demo.noon
                (fun k => Demo.fine 100000 100500) (Demo.backlog 3))))
   <= 1)%nat.
Proof.
  destruct (@pass_delivers_once_per_minute Demo.dir Demo.config Demo.noon
              (fun k => Demo.fine 100000 100500) (Demo.backlog 3) eq_refl
              (fun j i _ => eq_refl)) as [H _].
  exact H.
Defined.

(** A pass with the page id of the template. *)
Lemma pass_with_invalid_config_witness :
  snd (processScheduledPosts Demo.dir Demo.badConfig Demo.noon
         (fun k => Demo.fine 100000 100500) (Demo.backlog 2))
  = saveQueue
      (Queue.mk
         (map (Item.markFailed "Config error: Facebook Page ID is required")
              (map Demo.due (seq 0 2)))
         [] None (Some []))
      (Demo.backlog 2).
Proof.
  rewrite (@pass_with_invalid_config Demo.dir Demo.badConfig Demo.noon
             (fun k => Demo.fine 100000 100500) (Demo.backlog 2)
             eq_refl eq_refl).
  reflexivity.
Defined.

(** At 10:00 in Bangkok, in a process that runs there, the next slot is
    within the day. *)
Lemma next_slot_within_a_day_witness :
  exists r,
    getNextScheduleTime Demo.offset Demo.zones Demo.config
      (Demo.midnight + 10 * msPerHour) = Returns r /\
    Demo.midnight + 10 * msPerHour < r
    <= Demo.midnight + 10 * msPerHour + msPerDay.
Proof.
  assert (Hne : Config.post_times Demo.config <> []) by discriminate.
  pose proof (@next_slot_within_a_day Demo.offset Demo.zones Demo.config
                (Demo.midnight + 10 * msPerHour) (7 * msPerHour)
                (fun _ _ => eq_refl) Hne eq_refl) as H.
  assert (Hz : Demo.zones (zoneName Demo.config)
                 (Demo.midnight + 10 * msPerHour) = Some (7 * msPerHour))
    by reflexivity.
  rewrite Hz in H. destruct H as (r & E & _ & _ & Hsame).
  exists r. split; [exact E|]. apply Hsame. reflexivity.
Defined.

(** An ingestion while no slot is configured. *)
Lemma addToQueue_without_slots_keeps_item_witness :
  exists item msg,
    Item.text item = "hello #now" /\
    addToQueue Demo.digest Demo.offset Demo.zones Demo.hello Demo.noSlots
      (Demo.at10 5) Demo.fresh
    = (AddThrows msg,
       saveQueue (Queue.mk [item] [] None (Some [])) Demo.fresh).
Proof.
  assert (Hn : ~ In (generateContentHash Demo.digest (contentText Demo.hello)
                       (Content.mediaType Demo.hello))
                    (storedHashes Demo.fresh)).
  { vm_compute. tauto. }
  assert (Hp : 0 < postsPerDay Demo.noSlots) by reflexivity.
  destruct (@addToQueue_without_slots_keeps_item Demo.digest Demo.offset
              Demo.zones Demo.hello Demo.noSlots (Demo.at10 5) (Demo.at10 6)
              Demo.fresh eq_refl Hn eq_refl Hp)
    as (item & msg & Ht & _ & _ & E & _).
  exists item, msg. split; [exact Ht | exact E].
Defined.

(** The queue after one ingestion and one dry-run pass. *)
Lemma queued_items_pass_validation_witness :
  exists i,
    In i (Queue.pending (loadQueue Demo.queued)
          ++ Queue.posted (loadQueue Demo.queued)) /\
    Item.text i <> "" /\ (String.length (Item.text i) <= 2200)%nat.
Proof.
  assert (Hp : Produced Demo.digest Demo.dir Demo.offset Demo.zones Demo.queued).
  { unfold Demo.queued. apply produced_add. apply produced_init. reflexivity. }
  assert (Hin : In (hd (Demo.due 0) (Queue.pending (loadQueue Demo.queued)))
                   (Queue.pending (loadQueue Demo.queued)
                    ++ Queue.posted (loadQueue Demo.queued))).
  { vm_compute. left. reflexivity. }
  destruct (@queued_items_pass_validation Demo.digest Demo.dir Demo.offset
              Demo.zones Demo.queued _ Hp Hin) as (H1 & H2 & _).
  eexists. split; [exact Hin|]. split; [exact H1 | exact H2].
Defined.

Lemma queue_bookkeeping_witness :
  Produced Demo.digest Demo.dir Demo.offset Demo.zones Demo.afterPass /\
  forall i, In i (Queue.posted (loadQueue Demo.afterPass)) ->
            Item.status i = posted_st /\ Item.postedAt i <> None.
Proof.
  assert (Hp : Produced Demo.digest Demo.dir Demo.offset Demo.zones
                 Demo.afterPass).
  { unfold Demo.afterPass, Demo.queued. apply produced_process.
    apply produced_add. apply produced_init. reflexivity. }
  split; [exact Hp|].
  destruct (@queue_bookkeeping Demo.digest Demo.dir Demo.offset Demo.zones
              Demo.afterPass Hp) as [_ H].
  exact H.
Defined.

(** "hello #now" offered again after the dry-run pass that posted it. *)
Lemma delivered_content_is_refused_later_witness :
  addToQueue Demo.digest Demo.offset Demo.zones Demo.hello Demo.config
    (Demo.at10 6) Demo.afterPass
  = (AddDuplicate, Demo.afterPass).
Proof.
  apply (@delivered_content_is_refused_later Demo.digest Demo.dir Demo.offset
           Demo.zones Demo.hello Demo.config Demo.dryConfig (Demo.at10 6)
           Demo.noon (fun k => Demo.fine 0 0) Demo.queued
           (hd (Demo.due 0) (Queue.pending (loadQueue Demo.queued)))
           (mkPostResult (Some "dry-run-0") true)).
  - vm_compute. left. reflexivity.
  - reflexivity.
  - vm_compute. discriminate.
  - vm_compute. repeat constructor.
  - reflexivity.
Defined.

(** [DRY_RUN=1] turns off the dry run that the file asks for, and the page
    id of the environment replaces the placeholder. *)
Lemma environment_overrides_file_witness :
  exists loaded,
    loadConfig Demo.env (Some (Some Demo.template)) = Some (Some loaded) /\
    Raw.dry_run Demo.template = FlagBool true /\
    Config.dry_run (settingsOf loaded) = false /\
    Config.page_id (settingsOf loaded) = Some "1234567890".
Proof.
  assert (E : loadConfig Demo.env (Some (Some Demo.template))
              = Some (Some
                  (Raw.mk (Some (Raw.mkFacebook (Some "1234567890")
                                   (Some "${FACEBOOK_ACCESS_TOKEN}")
                                   (Some "v18.0")))
                          (Some (Some "${TELEGRAM_BOT_TOKEN}"))
                          (FlagBool false)
                          ["09:00"; "18:00"] (Some "Asia/Bangkok") (Some 2))))
    by reflexivity.
  destruct (environment_overrides_file Demo.env Demo.template E)
    as (Hpage & _ & _ & Hdry & _).
  eexists. split; [exact E|]. split; [reflexivity|].
  split; [exact (Hdry "1" eq_refl) | exact (Hpage "1234567890" eq_refl)].
Defined.

(** The template loaded in an environment that has [HOME] and nothing
    else. *)
Lemma unresolved_placeholder_passes_validateConfig_witness :
  loadConfig Demo.bare (Some (Some Demo.template)) = Some (Some Demo.template) /\
  validateConfig (settingsOf Demo.template) = mkValidation true [].
Proof.
  assert (E : loadConfig Demo.bare (Some (Some Demo.template))
              = Some (Some Demo.template)) by reflexivity.
  destruct (@unresolved_placeholder_passes_validateConfig Demo.bare
              Demo.template Demo.template "${FACEBOOK_PAGE_ID}"
              "${FACEBOOK_ACCESS_TOKEN}" (Some "v18.0") E eq_refl eq_refl
              eq_refl eq_refl eq_refl eq_refl eq_refl eq_refl eq_refl)
    as (_ & _ & Hv).
  split; [exact E | exact Hv].
Defined.

(** A placeholder that names a member of [Object.prototype]. *)
Example placeholder_toString_is_not_kept :
  replaceEnvVars Demo.bare (JObj [("page_id", JStr "${toString}")])
  = JObj [("page_id", JForeign)].
Proof. reflexivity. Qed.

(** Three items wait; the default quota gives a slot to two of them. *)
Lemma schedulePosts_quota_witness :
  List.length
    (filter unscheduled
       (Queue.pending
          (loadQueue (snd (schedulePosts Demo.offset Demo.zones Demo.config
                             (fun _ => Demo.midnight + 10 * msPerHour)
                             (Demo.backlog 3))))))
  = 1%nat.
Proof.
  rewrite (@schedulePosts_quota Demo.offset Demo.zones Demo.config
             (fun _ => Demo.midnight + 10 * msPerHour) (Demo.backlog 3)
             eq_refl).
  reflexivity.
Defined.

(** The photo is fetched, uploaded and removed. *)
Lemma download_always_cleaned_up_witness :
  added Demo.fresh
    (snd (postToFacebook Demo.dir Demo.photo Demo.config
            (Demo.fine 100000 100500) Demo.fresh))
  = [EvNet TgGetFile; EvNet TgDownload;
     EvWriteFile "/app/temp/100000_file_1.jpg"; EvNet FbPhotoUpload;
     EvUnlink "/app/temp/100000_file_1.jpg"].
Proof.
  destruct (@download_always_cleaned_up Demo.dir Demo.photo Demo.config
              (Demo.fine 100000 100500) Demo.fresh "photos/file_1.jpg"
              eq_refl eq_refl eq_refl eq_refl eq_refl eq_refl eq_refl)
    as (_ & _ & requests & E & _ & _ & Himg).
  rewrite E, (Himg eq_refl). reflexivity.
Defined.

(** The failed item of C6 is lost when another pending item has its id.
    "hello #now" and "bye" were ingested in the same millisecond and share
    the id "5"; in the pass the delivery of the first is refused and the
    second goes well, and the filter by id that removes the second from
    pending removes the first with it. *)
Lemma failed_item_lost_to_twin :
  Produced Demo.digest Demo.dir Demo.offset Demo.zones Demo.clash /\
  map Item.text (Queue.pending (loadQueue Demo.clash)) = ["hello #now"; "bye"] /\
  map (fun e => (Item.text (fst e), snd e))
      (fst (processScheduledPosts Demo.dir Demo.config Demo.evening
              Demo.oneFails Demo.clash))
  = [("hello #now", Throws "(#200) Permissions error");
     ("bye", Returns (mkPostResult (Some "1234567890_1") false))] /\
  Queue.pending
    (loadQueue (snd (processScheduledPosts Demo.dir Demo.config Demo.evening
                       Demo.oneFails Demo.clash))) = [] /\
  map Item.text
    (Queue.posted
       (loadQueue (snd (processScheduledPosts Demo.dir Demo.config Demo.evening
                          Demo.oneFails Demo.clash)))) = ["bye"].
Proof.
  split.
  { unfold Demo.clash, Demo.queued.
    apply produced_add. apply produced_add. apply produced_init. reflexivity. }
  repeat split.
Qed.

(** C8: the photo is fetched and its file removed; a file next to the
    scratch directory is still there. *)
Lemma scratch_file_removed_nothing_else_deleted_witness :
  In (EvUnlink "/app/temp/100000_file_1.jpg")
     (added Demo.fresh
        (snd (postToFacebook Demo.dir Demo.photo Demo.config
                (Demo.fine 100000 100500) Demo.fresh))) /\
  existsSync "/app/temp/100000_file_1.jpg"
    (snd (postToFacebook Demo.dir Demo.photo Demo.config
            (Demo.fine 100000 100500) Demo.fresh)) = false /\
  existsSync Demo.sibling
    (snd (postToFacebook Demo.dir Demo.photo Demo.config
            (Demo.fine 100000 100500) (mkWorld None 0 [Demo.sibling] [])))
  = true.
Proof.
  destruct (@scratch_file_removed_nothing_else_deleted Demo.dir Demo.photo
              Demo.config (Demo.fine 100000 100500) Demo.fresh)
    as (Hwritten & Hreached & _ & _ & _).
  destruct (Hwritten "/app/temp/100000_file_1.jpg"
              (Hreached eq_refl eq_refl eq_refl eq_refl eq_refl
                 "photos/file_1.jpg" eq_refl eq_refl))
    as (_ & Hunlink & Hgone).
  split; [exact Hunlink|]. split; [exact Hgone|].
  destruct (@scratch_file_removed_nothing_else_deleted Demo.dir Demo.photo
              Demo.config (Demo.fine 100000 100500)
              (mkWorld None 0 [Demo.sibling] []))
    as (_ & _ & _ & Hkept & _).
  rewrite (Hkept Demo.sibling eq_refl). reflexivity.
Defined.
